(** * The autonomous task controller and the service registry

    A shallow embedding of [AutonomousController]
    (convergence-core/autonomous-controller) and of the manual
    registration of [AutoConfigManager] (convergence-core/auto-config).

    Conventions of the embedding.
    - Task and capability records are JavaScript objects shared by reference:
      the controller state carries a store of task objects ([taskHeap]) and
      one of capability objects ([capHeap]); the queue, the active map, the
      capability map, pending executions and emitted events hold indices
      into these stores.
    - [Date.now()] and [Math.random()] are inputs ([Env]).
    - Integer valued numbers are [Z]; [successRate], [avgLatencyMs] and
      [confidence] are exact rationals ([Q]), rounding is not modelled.
    - [emit] appends to an event trace; listeners are passive.
    - An executor is a promise that is pending between the dispatching tick
      and its settlement; the settlement (return or throw) is an input. *)

From stdpp Require Import gmap strings list fin_maps pretty sorting.
From Stdlib Require Import QArith Ascii Lqa.
Local Open Scope string_scope.
Local Open Scope Z_scope.
Local Open Scope list_scope.

(** ** Types and interfaces *)

Inductive OperationMode := supervised | autonomous | unrestricted.

Inductive CapabilityType := personaplex | agent_zero | poke | mcp_tool | custom_cap.

Inductive TaskType :=
  voice | text | code | research | autonomous_task | custom.

Inductive Priority := low | normal | high | critical.

Inductive TaskStatus :=
  queued | assigned | running | completed | failed | cancelled.

Inductive DecisionType := route | scale | heal | optimize | restrict | unrestrict.

#[global] Instance OperationMode_eq_dec : EqDecision OperationMode.
Proof. solve_decision. Defined.
#[global] Instance CapabilityType_eq_dec : EqDecision CapabilityType.
Proof. solve_decision. Defined.
#[global] Instance TaskType_eq_dec : EqDecision TaskType.
Proof. solve_decision. Defined.
#[global] Instance Priority_eq_dec : EqDecision Priority.
Proof. solve_decision. Defined.
#[global] Instance TaskStatus_eq_dec : EqDecision TaskStatus.
Proof. solve_decision. Defined.

(** [Record<string, unknown>]: keys with rendered values. *)
Definition Payload := list (string * string).

Record AgentCapability := {
  cap_id : string;
  cap_name : string;
  cap_type : CapabilityType;
  cap_priority : Z;
  enabled : bool;
  maxConcurrent : Z;
  currentLoad : Z;
  successRate : Q;
  avgLatencyMs : Q;
  tags : list string;
}.

Record Task := {
  task_id : string;
  task_type : TaskType;
  task_input : Payload;
  task_priority : Priority;
  status : TaskStatus;
  assignedTo : option string;
  createdAt : Z;
  startedAt : option Z;
  completedAt : option Z;
  result : option Payload;
  error : option string;
  retryCount : Z;
  maxRetries : Z;
}.

Record Decision := {
  dec_id : string;
  dec_type : DecisionType;
  reason : string;
  dec_input : Payload;
  dec_output : Payload;
  confidence : Q;
  timestamp : Z;
  executed : bool;
  requiresApproval : bool;
}.

Record ControllerConfig := {
  mode : OperationMode;
  selfHealing : bool;
  autoScaling : bool;
  intelligentRouting : bool;
  maxConcurrentTasks : Z;
  taskTimeoutMs : Z;
  cfg_maxRetries : Z;
  decisionThreshold : Q;
  contentFiltering : bool;
  safetyGuardrails : bool;
  verboseLogging : bool;
}.

Definition DEFAULT_CONFIG : ControllerConfig := {|
  mode := autonomous;
  selfHealing := true;
  autoScaling := true;
  intelligentRouting := true;
  maxConcurrentTasks := 10;
  taskTimeoutMs := 300000;
  cfg_maxRetries := 3;
  decisionThreshold := 0.7;
  contentFiltering := false;
  safetyGuardrails := false;
  verboseLogging := true;
|}.

(** The value returned by [getStatus]. *)
Record Status := {
  st_running : bool;
  st_mode : OperationMode;
  st_queued : nat;
  st_active : nat;
  st_completed : nat;
  st_capabilities_total : nat;
  st_capabilities_enabled : nat;
  st_decisions : nat;
  st_config : ControllerConfig;
}.

(** Events of the controller; a task or capability payload is the object
    itself, hence its index in the store. *)
Inductive Event :=
  | started_ev (c : ControllerConfig)
  | stopped_ev
  | mode_changed (previousMode newMode : OperationMode)
  | guardrails_disabled
  | task_filtered (t : nat)
  | task_queued (t : nat)
  | task_cancelled (t : nat)
  | task_started (t : nat)
  | task_completed (t : nat)
  | task_failed (t : nat)
  | task_timeout (t : nat)
  | voice_task (t : nat)
  | autonomous_task_ev (t : nat) (d : Decision)
  | research_task (t : nat)
  | mcp_task (t : nat)
  | generic_task (t : nat)
  | capability_registered (c : nat)
  | decision_ev (d : Decision)
  | health_check (st : Status)
  | config_updated (c : ControllerConfig)
  | log_ev (message : string).

(** What the environment supplies to one synchronous run of controller
    code: the clock, and the [Math.random()] suffix for each place of the
    run that calls [generateId]. *)
Record Env := { now : Z; random : nat -> string }.

(** A started executor: the task, the capability object captured by the
    closure, [startTime] and the value the executor resolves to. *)
Record Execution := {
  ex_task : nat;
  ex_cap : nat;
  ex_startTime : Z;
  ex_value : Payload;
}.

(** A rejected [executeTask] promise whose [catch] handler has not run. *)
Record Rejection := {
  rej_task : nat;
  rej_cap : nat;
  rej_error : string;
}.

Inductive Outcome := Returns | Throws (err : string).

Record Controller := {
  config : ControllerConfig;
  capHeap : list AgentCapability;
  capabilities : list (string * nat);
  taskHeap : list Task;
  taskQueue : list nat;
  activeTasks : gmap string nat;
  decisions : list Decision;
  isRunning : bool;
  healthIntervals : nat;
  executing : list Execution;
  rejected : list Rejection;
  cooldowns : list nat;
  events : list Event;
}.

(** ** Field updates *)

Definition with_config (f : ControllerConfig -> ControllerConfig) (s : Controller) :=
  {| config := f (config s); capHeap := capHeap s; capabilities := capabilities s;
     taskHeap := taskHeap s; taskQueue := taskQueue s; activeTasks := activeTasks s;
     decisions := decisions s; isRunning := isRunning s;
     healthIntervals := healthIntervals s; executing := executing s;
     rejected := rejected s; cooldowns := cooldowns s; events := events s |}.

Definition with_capHeap (f : list AgentCapability -> list AgentCapability) (s : Controller) :=
  {| config := config s; capHeap := f (capHeap s); capabilities := capabilities s;
     taskHeap := taskHeap s; taskQueue := taskQueue s; activeTasks := activeTasks s;
     decisions := decisions s; isRunning := isRunning s;
     healthIntervals := healthIntervals s; executing := executing s;
     rejected := rejected s; cooldowns := cooldowns s; events := events s |}.

Definition with_capabilities (f : list (string * nat) -> list (string * nat)) (s : Controller) :=
  {| config := config s; capHeap := capHeap s; capabilities := f (capabilities s);
     taskHeap := taskHeap s; taskQueue := taskQueue s; activeTasks := activeTasks s;
     decisions := decisions s; isRunning := isRunning s;
     healthIntervals := healthIntervals s; executing := executing s;
     rejected := rejected s; cooldowns := cooldowns s; events := events s |}.

Definition with_taskHeap (f : list Task -> list Task) (s : Controller) :=
  {| config := config s; capHeap := capHeap s; capabilities := capabilities s;
     taskHeap := f (taskHeap s); taskQueue := taskQueue s; activeTasks := activeTasks s;
     decisions := decisions s; isRunning := isRunning s;
     healthIntervals := healthIntervals s; executing := executing s;
     rejected := rejected s; cooldowns := cooldowns s; events := events s |}.

Definition with_taskQueue (f : list nat -> list nat) (s : Controller) :=
  {| config := config s; capHeap := capHeap s; capabilities := capabilities s;
     taskHeap := taskHeap s; taskQueue := f (taskQueue s); activeTasks := activeTasks s;
     decisions := decisions s; isRunning := isRunning s;
     healthIntervals := healthIntervals s; executing := executing s;
     rejected := rejected s; cooldowns := cooldowns s; events := events s |}.

Definition with_activeTasks (f : gmap string nat -> gmap string nat) (s : Controller) :=
  {| config := config s; capHeap := capHeap s; capabilities := capabilities s;
     taskHeap := taskHeap s; taskQueue := taskQueue s; activeTasks := f (activeTasks s);
     decisions := decisions s; isRunning := isRunning s;
     healthIntervals := healthIntervals s; executing := executing s;
     rejected := rejected s; cooldowns := cooldowns s; events := events s |}.

Definition with_decisions (f : list Decision -> list Decision) (s : Controller) :=
  {| config := config s; capHeap := capHeap s; capabilities := capabilities s;
     taskHeap := taskHeap s; taskQueue := taskQueue s; activeTasks := activeTasks s;
     decisions := f (decisions s); isRunning := isRunning s;
     healthIntervals := healthIntervals s; executing := executing s;
     rejected := rejected s; cooldowns := cooldowns s; events := events s |}.

Definition with_isRunning (b : bool) (s : Controller) :=
  {| config := config s; capHeap := capHeap s; capabilities := capabilities s;
     taskHeap := taskHeap s; taskQueue := taskQueue s; activeTasks := activeTasks s;
     decisions := decisions s; isRunning := b;
     healthIntervals := healthIntervals s; executing := executing s;
     rejected := rejected s; cooldowns := cooldowns s; events := events s |}.

Definition with_healthIntervals (f : nat -> nat) (s : Controller) :=
  {| config := config s; capHeap := capHeap s; capabilities := capabilities s;
     taskHeap := taskHeap s; taskQueue := taskQueue s; activeTasks := activeTasks s;
     decisions := decisions s; isRunning := isRunning s;
     healthIntervals := f (healthIntervals s); executing := executing s;
     rejected := rejected s; cooldowns := cooldowns s; events := events s |}.

Definition with_executing (f : list Execution -> list Execution) (s : Controller) :=
  {| config := config s; capHeap := capHeap s; capabilities := capabilities s;
     taskHeap := taskHeap s; taskQueue := taskQueue s; activeTasks := activeTasks s;
     decisions := decisions s; isRunning := isRunning s;
     healthIntervals := healthIntervals s; executing := f (executing s);
     rejected := rejected s; cooldowns := cooldowns s; events := events s |}.

Definition with_rejected (f : list Rejection -> list Rejection) (s : Controller) :=
  {| config := config s; capHeap := capHeap s; capabilities := capabilities s;
     taskHeap := taskHeap s; taskQueue := taskQueue s; activeTasks := activeTasks s;
     decisions := decisions s; isRunning := isRunning s;
     healthIntervals := healthIntervals s; executing := executing s;
     rejected := f (rejected s); cooldowns := cooldowns s; events := events s |}.

Definition with_cooldowns (f : list nat -> list nat) (s : Controller) :=
  {| config := config s; capHeap := capHeap s; capabilities := capabilities s;
     taskHeap := taskHeap s; taskQueue := taskQueue s; activeTasks := activeTasks s;
     decisions := decisions s; isRunning := isRunning s;
     healthIntervals := healthIntervals s; executing := executing s;
     rejected := rejected s; cooldowns := f (cooldowns s); events := events s |}.

(** [this.emit(...)]. *)
Definition emit (e : Event) (s : Controller) :=
  {| config := config s; capHeap := capHeap s; capabilities := capabilities s;
     taskHeap := taskHeap s; taskQueue := taskQueue s; activeTasks := activeTasks s;
     decisions := decisions s; isRunning := isRunning s;
     healthIntervals := healthIntervals s; executing := executing s;
     rejected := rejected s; cooldowns := cooldowns s; events := events s ++ [e] |}.

(** Assignments to the fields of a task object. *)
Definition set_status (v : TaskStatus) (t : Task) : Task :=
  {| task_id := task_id t; task_type := task_type t; task_input := task_input t;
     task_priority := task_priority t; status := v; assignedTo := assignedTo t;
     createdAt := createdAt t; startedAt := startedAt t; completedAt := completedAt t;
     result := result t; error := error t; retryCount := retryCount t;
     maxRetries := maxRetries t |}.

Definition set_assignedTo (v : string) (t : Task) : Task :=
  {| task_id := task_id t; task_type := task_type t; task_input := task_input t;
     task_priority := task_priority t; status := status t; assignedTo := Some v;
     createdAt := createdAt t; startedAt := startedAt t; completedAt := completedAt t;
     result := result t; error := error t; retryCount := retryCount t;
     maxRetries := maxRetries t |}.

Definition set_startedAt (v : Z) (t : Task) : Task :=
  {| task_id := task_id t; task_type := task_type t; task_input := task_input t;
     task_priority := task_priority t; status := status t; assignedTo := assignedTo t;
     createdAt := createdAt t; startedAt := Some v; completedAt := completedAt t;
     result := result t; error := error t; retryCount := retryCount t;
     maxRetries := maxRetries t |}.

Definition set_completedAt (v : Z) (t : Task) : Task :=
  {| task_id := task_id t; task_type := task_type t; task_input := task_input t;
     task_priority := task_priority t; status := status t; assignedTo := assignedTo t;
     createdAt := createdAt t; startedAt := startedAt t; completedAt := Some v;
     result := result t; error := error t; retryCount := retryCount t;
     maxRetries := maxRetries t |}.

Definition set_result (v : Payload) (t : Task) : Task :=
  {| task_id := task_id t; task_type := task_type t; task_input := task_input t;
     task_priority := task_priority t; status := status t; assignedTo := assignedTo t;
     createdAt := createdAt t; startedAt := startedAt t; completedAt := completedAt t;
     result := Some v; error := error t; retryCount := retryCount t;
     maxRetries := maxRetries t |}.

Definition set_error (v : string) (t : Task) : Task :=
  {| task_id := task_id t; task_type := task_type t; task_input := task_input t;
     task_priority := task_priority t; status := status t; assignedTo := assignedTo t;
     createdAt := createdAt t; startedAt := startedAt t; completedAt := completedAt t;
     result := result t; error := Some v; retryCount := retryCount t;
     maxRetries := maxRetries t |}.

Definition incr_retryCount (t : Task) : Task :=
  {| task_id := task_id t; task_type := task_type t; task_input := task_input t;
     task_priority := task_priority t; status := status t; assignedTo := assignedTo t;
     createdAt := createdAt t; startedAt := startedAt t; completedAt := completedAt t;
     result := result t; error := error t; retryCount := retryCount t + 1;
     maxRetries := maxRetries t |}.

(** Assignments to the fields of a capability object. *)
Definition set_enabled (v : bool) (c : AgentCapability) : AgentCapability :=
  {| cap_id := cap_id c; cap_name := cap_name c; cap_type := cap_type c;
     cap_priority := cap_priority c; enabled := v; maxConcurrent := maxConcurrent c;
     currentLoad := currentLoad c; successRate := successRate c;
     avgLatencyMs := avgLatencyMs c; tags := tags c |}.

Definition set_currentLoad (v : Z) (c : AgentCapability) : AgentCapability :=
  {| cap_id := cap_id c; cap_name := cap_name c; cap_type := cap_type c;
     cap_priority := cap_priority c; enabled := enabled c; maxConcurrent := maxConcurrent c;
     currentLoad := v; successRate := successRate c;
     avgLatencyMs := avgLatencyMs c; tags := tags c |}.

Definition set_successRate (v : Q) (c : AgentCapability) : AgentCapability :=
  {| cap_id := cap_id c; cap_name := cap_name c; cap_type := cap_type c;
     cap_priority := cap_priority c; enabled := enabled c; maxConcurrent := maxConcurrent c;
     currentLoad := currentLoad c; successRate := v;
     avgLatencyMs := avgLatencyMs c; tags := tags c |}.

Definition set_avgLatencyMs (v : Q) (c : AgentCapability) : AgentCapability :=
  {| cap_id := cap_id c; cap_name := cap_name c; cap_type := cap_type c;
     cap_priority := cap_priority c; enabled := enabled c; maxConcurrent := maxConcurrent c;
     currentLoad := currentLoad c; successRate := successRate c;
     avgLatencyMs := v; tags := tags c |}.

(** [task.f = v] and [capability.f = v] on the shared objects. *)
Definition update_task (r : nat) (f : Task -> Task) (s : Controller) : Controller :=
  with_taskHeap (alter f r) s.

Definition update_cap (r : nat) (f : AgentCapability -> AgentCapability)
    (s : Controller) : Controller :=
  with_capHeap (alter f r) s.

(** ** Helpers *)

(** [generateId], at the [i]-th place of a run that draws an identifier. *)
Definition generateId (env : Env) (i : nat) : string :=
  pretty (now env) +:+ "-" +:+ random env i.

(** [log]: the console line depends on [verboseLogging], the ["log"] event
    does not. *)
Definition log (message : string) (s : Controller) : Controller :=
  emit (log_ev message) s.

Definition mode_name (m : OperationMode) : string :=
  match m with
  | supervised => "supervised"
  | autonomous => "autonomous"
  | unrestricted => "unrestricted"
  end.

Definition task_type_name (t : TaskType) : string :=
  match t with
  | voice => "voice" | text => "text" | code => "code"
  | research => "research" | autonomous_task => "autonomous" | custom => "custom"
  end.

Definition priority_name (p : Priority) : string :=
  match p with
  | low => "low" | normal => "normal" | high => "high" | critical => "critical"
  end.

Definition decision_type_name (t : DecisionType) : string :=
  match t with
  | route => "route" | scale => "scale" | heal => "heal"
  | optimize => "optimize" | restrict => "restrict" | unrestrict => "unrestrict"
  end.

(** A rational in a payload is rendered as a fraction. *)
Definition render_Q (q : Q) : string :=
  pretty (Qnum q) +:+ "/" +:+ pretty (Zpos (Qden q)).

(** ** Decision making *)

Definition calculateConfidence (type : DecisionType) (input : Payload) : Q :=
  match type with
  | route => 0.9
  | scale => 0.8
  | heal => 0.85
  | optimize => 0.75
  | restrict => 0.7
  | unrestrict => 0.6
  end.

Definition makeDecision (type : DecisionType) (why : string)
    (input output : Payload) (env : Env) (i : nat) (s : Controller)
    : Decision * Controller :=
  let decision := {|
    dec_id := generateId env i;
    dec_type := type;
    reason := why;
    dec_input := input;
    dec_output := output;
    confidence := calculateConfidence type input;
    timestamp := now env;
    executed := bool_decide (mode (config s) <> supervised);
    requiresApproval := bool_decide (mode (config s) = supervised);
  |} in
  let s := with_decisions (fun ds => ds ++ [decision]) s in
  let s := emit (decision_ev decision) s in
  let s :=
    if verboseLogging (config s)
    then log ("Decision: " +:+ decision_type_name type +:+ " - " +:+ why) s
    else s in
  (decision, s).

(** [getDecisions(limit)]: [decisions.slice(-limit)]; [slice(-0)] is the
    whole array. *)
Definition getDecisions (limit : nat) (s : Controller) : list Decision :=
  match limit with
  | O => decisions s
  | _ => drop (length (decisions s) - limit)%nat (decisions s)
  end.

(** ** Mode control *)

Definition set_mode (m : OperationMode) (c : ControllerConfig) : ControllerConfig :=
  {| mode := m; selfHealing := selfHealing c; autoScaling := autoScaling c;
     intelligentRouting := intelligentRouting c;
     maxConcurrentTasks := maxConcurrentTasks c; taskTimeoutMs := taskTimeoutMs c;
     cfg_maxRetries := cfg_maxRetries c; decisionThreshold := decisionThreshold c;
     contentFiltering := contentFiltering c; safetyGuardrails := safetyGuardrails c;
     verboseLogging := verboseLogging c |}.

Definition set_contentFiltering (b : bool) (c : ControllerConfig) : ControllerConfig :=
  {| mode := mode c; selfHealing := selfHealing c; autoScaling := autoScaling c;
     intelligentRouting := intelligentRouting c;
     maxConcurrentTasks := maxConcurrentTasks c; taskTimeoutMs := taskTimeoutMs c;
     cfg_maxRetries := cfg_maxRetries c; decisionThreshold := decisionThreshold c;
     contentFiltering := b; safetyGuardrails := safetyGuardrails c;
     verboseLogging := verboseLogging c |}.

Definition set_safetyGuardrails (b : bool) (c : ControllerConfig) : ControllerConfig :=
  {| mode := mode c; selfHealing := selfHealing c; autoScaling := autoScaling c;
     intelligentRouting := intelligentRouting c;
     maxConcurrentTasks := maxConcurrentTasks c; taskTimeoutMs := taskTimeoutMs c;
     cfg_maxRetries := cfg_maxRetries c; decisionThreshold := decisionThreshold c;
     contentFiltering := contentFiltering c; safetyGuardrails := b;
     verboseLogging := verboseLogging c |}.

Definition setMode (m : OperationMode) (env : Env) (s : Controller) : Controller :=
  let previousMode := mode (config s) in
  let s := with_config (set_mode m) s in
  let s :=
    match m with
    | unrestricted =>
        let s := with_config (set_contentFiltering false) s in
        let s := with_config (set_safetyGuardrails false) s in
        log "UNRESTRICTED MODE ENABLED - All guardrails disabled" s
    | supervised =>
        let s := with_config (set_contentFiltering true) s in
        with_config (set_safetyGuardrails true) s
    | autonomous => s
    end in
  let s := snd (makeDecision route "Mode changed"
                  [("previousMode", mode_name previousMode); ("newMode", mode_name m)]
                  [("mode", mode_name m)] env 0 s) in
  emit (mode_changed previousMode m) s.

Definition enableUnrestrictedMode (env : Env) (s : Controller) : Controller :=
  setMode unrestricted env s.

Definition disableGuardrails (s : Controller) : Controller :=
  let s := with_config (set_contentFiltering false) s in
  let s := with_config (set_safetyGuardrails false) s in
  let s := log "All guardrails and content filtering DISABLED" s in
  emit guardrails_disabled s.

(** ** Lifecycle *)

(** [start]: the dispatch interval lives while [isRunning]; every effective
    [start] adds a health interval that [stop] never clears. *)
Definition start (s : Controller) : Controller :=
  if isRunning s then s
  else
    let s := with_isRunning true s in
    let s := log "Starting Autonomous Controller" s in
    let s := with_healthIntervals S s in
    emit (started_ev (config s)) s.

Definition stop (s : Controller) : Controller :=
  emit stopped_ev (with_isRunning false s).

(** ** Content filtering *)

Definition blockedPatterns : list string := [].

Definition lower_ascii (c : ascii) : ascii :=
  let n := nat_of_ascii c in
  if ((65 <=? n)%nat && (n <=? 90)%nat)%bool then ascii_of_nat (n + 32) else c.

Fixpoint toLowerCase (x : string) : string :=
  match x with
  | EmptyString => EmptyString
  | String c r => String (lower_ascii c) (toLowerCase r)
  end.

(** The double quote character. *)
Definition dquote : string := String (ascii_of_nat 34) EmptyString.

Definition JSON_stringify (p : Payload) : string :=
  "{" +:+ String.concat ","
            (map (fun kv => dquote +:+ fst kv +:+ dquote +:+ ":" +:+ snd kv) p) +:+ "}".

Definition includes (pattern x : string) : bool :=
  match String.index 0 pattern x with Some _ => true | None => false end.

Definition shouldFilterContent (input : Payload) (s : Controller) : bool :=
  if (bool_decide (mode (config s) = unrestricted)
      || negb (contentFiltering (config s)))%bool
  then false
  else
    let txt := toLowerCase (JSON_stringify input) in
    existsb (fun pattern => includes pattern txt) blockedPatterns.

(** ** The priority queue *)

Definition priorityOrder (p : Priority) : Z :=
  match p with
  | critical => 0
  | high => 1
  | normal => 2
  | low => 3
  end.

(** [Array.prototype.findIndex]; [None] stands for [-1]. *)
Fixpoint findIndex {A} (p : A -> bool) (l : list A) : option nat :=
  match l with
  | [] => None
  | x :: r => if p x then Some O else S <$> findIndex p r
  end.

(** [splice(i, 0, x)]. *)
Definition splice_in {A} (i : nat) (x : A) (l : list A) : list A :=
  take i l ++ x :: drop i l.

(** The priority of the task object behind a queue entry. *)
Definition priority_at (heap : list Task) (r : nat) : option Priority :=
  task_priority <$> heap !! r.

Definition insertTaskByPriority (r : nat) (s : Controller) : Controller :=
  match taskHeap s !! r with
  | None => s
  | Some task =>
      let insertIndex :=
        findIndex (fun t =>
             match taskHeap s !! t with
             | Some t' =>
                 bool_decide (priorityOrder (task_priority t')
                              > priorityOrder (task_priority task))
             | None => false
             end) (taskQueue s) in
      match insertIndex with
      | None => with_taskQueue (fun q => q ++ [r]) s
      | Some i => with_taskQueue (splice_in i r) s
      end
  end.

(** ** Task management *)

Record SubmitOptions := {
  opt_priority : option Priority;
  opt_maxRetries : option Z;
}.

Definition submitTask (type : TaskType) (input : Payload) (options : SubmitOptions)
    (env : Env) (s : Controller) : nat * Controller :=
  let task := {|
    task_id := generateId env 0;
    task_type := type;
    task_input := input;
    task_priority := default normal (opt_priority options);
    status := queued;
    assignedTo := None;
    createdAt := now env;
    startedAt := None;
    completedAt := None;
    result := None;
    error := None;
    retryCount := 0;
    maxRetries := default (cfg_maxRetries (config s)) (opt_maxRetries options);
  |} in
  let r := length (taskHeap s) in
  let s := with_taskHeap (fun h => h ++ [task]) s in
  if (negb (contentFiltering (config s))
      || bool_decide (mode (config s) = unrestricted))%bool
  then
    let s := log ("Task accepted (unfiltered): " +:+ task_id task) s in
    let s := insertTaskByPriority r s in
    (r, emit (task_queued r) s)
  else if shouldFilterContent input s
  then
    let s := update_task r (set_status cancelled) s in
    let s := update_task r (set_error "Content filtered by guardrails") s in
    (r, emit (task_filtered r) s)
  else
    let s := insertTaskByPriority r s in
    (r, emit (task_queued r) s).

(** [getTask]: the active map first, then the queue. *)
Definition getTask (taskId : string) (s : Controller) : option nat :=
  match activeTasks s !! taskId with
  | Some r => Some r
  | None =>
      List.find (fun r =>
          match taskHeap s !! r with
          | Some t => bool_decide (task_id t = taskId)
          | None => false
          end) (taskQueue s)
  end.

Definition cancelTask (taskId : string) (s : Controller) : bool * Controller :=
  match getTask taskId s with
  | Some r =>
      match taskHeap s !! r with
      | Some task =>
          if (bool_decide (status task <> completed)
              && bool_decide (status task <> failed))%bool
          then
            let s := update_task r (set_status cancelled) s in
            (true, emit (task_cancelled r) s)
          else (false, s)
      | None => (false, s)
      end
  | None => (false, s)
  end.

(** ** Capability management *)

(** [Map.prototype.set] on a map kept in insertion order: an existing key
    keeps its position and gets the new value, a new key goes last. *)
Fixpoint map_set {V} (k : string) (v : V) (m : list (string * V)) : list (string * V) :=
  match m with
  | [] => [(k, v)]
  | (k', v') :: r =>
      if bool_decide (k' = k) then (k, v) :: r else (k', v') :: map_set k v r
  end.

Definition default_capabilities : list AgentCapability := [
  {| cap_id := "personaplex-voice"; cap_name := "PersonaPlex Voice";
     cap_type := personaplex; cap_priority := 1; enabled := true;
     maxConcurrent := 5; currentLoad := 0; successRate := 1.0;
     avgLatencyMs := 100;
     tags := ["voice"; "speech"; "audio"; "conversation"] |};
  {| cap_id := "agent-zero-auto"; cap_name := "Agent Zero Autonomous";
     cap_type := agent_zero; cap_priority := 2; enabled := true;
     maxConcurrent := 3; currentLoad := 0; successRate := 1.0;
     avgLatencyMs := 500;
     tags := ["autonomous"; "code"; "planning"; "execution"] |};
  {| cap_id := "poke-research"; cap_name := "Poke Research";
     cap_type := poke; cap_priority := 3; enabled := true;
     maxConcurrent := 5; currentLoad := 0; successRate := 1.0;
     avgLatencyMs := 1000;
     tags := ["research"; "gmail"; "onboarding"; "profile"] |}
].

(** [this.capabilities.set(cap.id, cap)]; the object handed over is taken
    as new to the controller and gets a place of its own in the store. An
    object replaced under its id stays in the store, where pending
    executions still refer to it. *)
Definition add_capability (c : AgentCapability) (s : Controller) : Controller :=
  let r := length (capHeap s) in
  let s := with_capHeap (fun h => h ++ [c]) s in
  with_capabilities (map_set (cap_id c) r) s.

Definition initializeDefaultCapabilities (s : Controller) : Controller :=
  fold_left (fun s c => add_capability c s) default_capabilities s.

Definition registerCapability (c : AgentCapability) (s : Controller) : Controller :=
  let r := length (capHeap s) in
  let s := add_capability c s in
  emit (capability_registered r) s.

Definition matchesTaskType (capability : AgentCapability) (task : Task) : bool :=
  let typeMapping (t : TaskType) : list CapabilityType :=
    match t with
    | voice => [personaplex]
    | text => [agent_zero; poke; mcp_tool]
    | code => [agent_zero]
    | research => [poke; agent_zero]
    | autonomous_task => [agent_zero]
    | custom => [agent_zero; mcp_tool; custom_cap]
    end in
  bool_decide (cap_type capability ∈ typeMapping (task_type task)).

(** The score of the comparator of [selectCapability]. *)
Definition score (a : AgentCapability) : Q :=
  (inject_Z (cap_priority a) * 10 + successRate a * 5
   - avgLatencyMs a / 1000 - inject_Z (currentLoad a))%Q.

(** [Array.prototype.sort] is stable: [x], which precedes the elements of
    [l], stays in front of [y] unless the comparator [scoreB - scoreA] is
    positive for [(x, y)]. *)
Fixpoint sort_insert (x : nat * AgentCapability) (l : list (nat * AgentCapability))
    : list (nat * AgentCapability) :=
  match l with
  | [] => [x]
  | y :: r =>
      if Qle_bool (score (snd y)) (score (snd x))
      then x :: y :: r
      else y :: sort_insert x r
  end.

Definition sort_by_score (l : list (nat * AgentCapability)) :=
  foldr sort_insert [] l.

(** [Array.from(this.capabilities.values())], each object with its index. *)
Definition capability_values (s : Controller) : list (nat * AgentCapability) :=
  omap (fun kv => (fun c => (snd kv, c)) <$> capHeap s !! snd kv) (capabilities s).

(** The candidates of [selectCapability], before sorting. *)
Definition candidates_of (task : Task) (s : Controller) : list (nat * AgentCapability) :=
  List.filter (fun rc => matchesTaskType (snd rc) task)
    (List.filter (fun rc => (enabled (snd rc)
                        && bool_decide (currentLoad (snd rc) < maxConcurrent (snd rc)))%bool)
       (capability_values s)).

Definition selectCapability (task : Task) (env : Env) (s : Controller)
    : option nat * Controller :=
  let candidates := sort_by_score (candidates_of task s) in
  match candidates with
  | [] => (None, s)
  | first :: _ =>
      let s :=
        if (intelligentRouting (config s)
            && bool_decide (1 < length candidates)%nat)%bool
        then snd (makeDecision route "Selected capability for task"
                    [("taskId", task_id task);
                     ("taskType", task_type_name (task_type task));
                     ("candidates",
                      String.concat "," (map (fun rc => cap_id (snd rc)) candidates))]
                    [("selected", cap_id (snd first))] env 0 s)
        else s in
      (Some (fst first), s)
  end.

(** ** Task processing *)

(** The synchronous body of the family executors: what they emit and the
    value their promise resolves to. *)
Definition executeVoiceTask (r : nat) (task : Task) (s : Controller) : Payload * Controller :=
  ([("type", "voice"); ("processed", "true"); ("input", JSON_stringify (task_input task))],
   emit (voice_task r) s).

Definition executeAutonomousTask (r : nat) (task : Task) (env : Env) (s : Controller)
    : Payload * Controller :=
  let made :=
    makeDecision route "Autonomous task routing" (task_input task)
      [("handler", "agent-zero"); ("task", task_id task)] env 1 s in
  let decision := fst made in
  ([("type", "autonomous"); ("decision", dec_id decision); ("processed", "true")],
   emit (autonomous_task_ev r decision) (snd made)).

Definition executeResearchTask (r : nat) (task : Task) (s : Controller) : Payload * Controller :=
  ([("type", "research"); ("processed", "true"); ("input", JSON_stringify (task_input task))],
   emit (research_task r) s).

Definition executeMcpTask (r : nat) (task : Task) (s : Controller) : Payload * Controller :=
  ([("type", "mcp"); ("processed", "true"); ("input", JSON_stringify (task_input task))],
   emit (mcp_task r) s).

Definition executeGenericTask (r : nat) (task : Task) (s : Controller) : Payload * Controller :=
  ([("type", "generic"); ("processed", "true"); ("input", JSON_stringify (task_input task))],
   emit (generic_task r) s).

(** [executeTask] up to its [await]: the executor is started and the call
    is left pending. *)
Definition executeTask_begin (r c : nat) (env : Env) (s : Controller) : Controller :=
  match taskHeap s !! r, capHeap s !! c with
  | Some task, Some capability =>
      let startTime := now env in
      let called :=
        match cap_type capability with
        | personaplex => executeVoiceTask r task s
        | agent_zero => executeAutonomousTask r task env s
        | poke => executeResearchTask r task s
        | mcp_tool => executeMcpTask r task s
        | custom_cap => executeGenericTask r task s
        end in
      with_executing (fun l => l ++ [{| ex_task := r; ex_cap := c;
                                        ex_startTime := startTime;
                                        ex_value := fst called |}]) (snd called)
  | _, _ => s
  end.

(** The [finally] block of [executeTask]. *)
Definition executeTask_finally (r c : nat) (s : Controller) : Controller :=
  let s := update_cap c (fun cap => set_currentLoad (currentLoad cap - 1) cap) s in
  match taskHeap s !! r with
  | Some task => with_activeTasks (delete (task_id task)) s
  | None => s
  end.

(** [executeTask] from its [await] on, for the [i]-th pending call: the
    executor has returned or thrown. A throw leaves the promise of
    [executeTask] rejected after the [finally] block. *)
Definition executeTask_resume (i : nat) (o : Outcome) (env : Env) (s : Controller)
    : Controller :=
  match executing s !! i with
  | None => s
  | Some ex =>
      let r := ex_task ex in
      let c := ex_cap ex in
      let s := with_executing (delete i) s in
      match o with
      | Returns =>
          let s := update_task r (set_status completed) s in
          let s := update_task r (set_completedAt (now env)) s in
          let s := update_task r (set_result (ex_value ex)) s in
          let latency := now env - ex_startTime ex in
          let s := update_cap c (fun cap =>
                     set_avgLatencyMs ((avgLatencyMs cap + inject_Z latency) / 2)%Q cap) s in
          let s := update_cap c (fun cap =>
                     set_successRate (successRate cap * 0.9 + 0.1)%Q cap) s in
          let s := emit (task_completed r) s in
          let s := log ("Task " +:+ default "" (task_id <$> taskHeap s !! r)
                        +:+ " completed in " +:+ pretty latency +:+ "ms") s in
          executeTask_finally r c s
      | Throws err =>
          let s := executeTask_finally r c s in
          with_rejected (fun l => l ++ [{| rej_task := r; rej_cap := c;
                                           rej_error := err |}]) s
      end
  end.

Definition handleTaskError (r c : nat) (err : string) (env : Env) (s : Controller)
    : Controller :=
  let s := update_cap c (fun cap => set_currentLoad (currentLoad cap - 1) cap) s in
  let s := update_cap c (fun cap => set_successRate (successRate cap * 0.9)%Q cap) s in
  match taskHeap s !! r with
  | None => s
  | Some task =>
      if bool_decide (retryCount task < maxRetries task)
      then
        let s := update_task r incr_retryCount s in
        let s := update_task r (set_status queued) s in
        let s := with_activeTasks (delete (task_id task)) s in
        let s := insertTaskByPriority r s in
        let s := log ("Retrying task " +:+ task_id task +:+ " (attempt "
                      +:+ pretty (retryCount task + 1) +:+ ")") s in
        if selfHealing (config s)
        then snd (makeDecision heal "Task retry with different capability"
                    [("taskId", task_id task);
                     ("failedCapability",
                      default "" (cap_id <$> capHeap s !! c))]
                    [("action", "retry")] env 0 s)
        else s
      else
        let s := update_task r (set_status failed) s in
        let s := update_task r (set_completedAt (now env)) s in
        let s := update_task r (set_error err) s in
        let s := with_activeTasks (delete (task_id task)) s in
        let s := emit (task_failed r) s in
        log ("Task " +:+ task_id task +:+ " failed: " +:+ err) s
  end.

(** The [catch] handler of [processTaskQueue] for the [i]-th rejection. *)
Definition executeTask_catch (i : nat) (env : Env) (s : Controller) : Controller :=
  match rejected s !! i with
  | None => s
  | Some rej =>
      let s := with_rejected (delete i) s in
      handleTaskError (rej_task rej) (rej_cap rej) (rej_error rej) env s
  end.

(** [Array.prototype.shift]. *)
Definition shift {A} (l : list A) : option (A * list A) :=
  match l with
  | [] => None
  | x :: r => Some (x, r)
  end.

(** One tick of the dispatch loop; the first component is the task taken
    from the queue ([const task = this.taskQueue.shift()]), if any. *)
Definition processTaskQueue_pop (env : Env) (s : Controller) : option nat * Controller :=
  if bool_decide (Z.of_nat (size (activeTasks s)) >= maxConcurrentTasks (config s))
  then (None, s)
  else
    match shift (taskQueue s) with
    | None => (None, s)
    | Some (r, rest) =>
        let s := with_taskQueue (fun _ => rest) s in
        match taskHeap s !! r with
        | None => (Some r, s)
        | Some task =>
            let selected := selectCapability task env s in
            let s := snd selected in
            match fst selected with
            | None =>
                if bool_decide (retryCount task < maxRetries task)
                then
                  let s := update_task r incr_retryCount s in
                  (Some r, with_taskQueue (fun q => q ++ [r]) s)
                else
                  let s := update_task r (set_status failed) s in
                  let s := update_task r (set_error "No capable agent available") s in
                  (Some r, emit (task_failed r) s)
            | Some c =>
                let cname := default "" (cap_name <$> capHeap s !! c) in
                let cid := default "" (cap_id <$> capHeap s !! c) in
                let s := update_task r (set_assignedTo cid) s in
                let s := update_task r (set_status running) s in
                let s := update_task r (set_startedAt (now env)) s in
                let s := with_activeTasks (insert (task_id task) r) s in
                let s := update_cap c (fun cap => set_currentLoad (currentLoad cap + 1) cap) s in
                let s := emit (task_started r) s in
                let s := log ("Task " +:+ task_id task +:+ " assigned to " +:+ cname) s in
                (Some r, executeTask_begin r c env s)
            end
        end
    end.

Definition processTaskQueue (env : Env) (s : Controller) : Controller :=
  snd (processTaskQueue_pop env s).

(** ** Public API: status and configuration *)

Definition getStatus (s : Controller) : Status := {|
  st_running := isRunning s;
  st_mode := mode (config s);
  st_queued := length (taskQueue s);
  st_active := size (activeTasks s);
  st_completed := length (List.filter executed (decisions s));
  st_capabilities_total := length (capabilities s);
  st_capabilities_enabled :=
    length (List.filter (fun rc => enabled (snd rc)) (capability_values s));
  st_decisions := length (decisions s);
  st_config := config s;
|}.

Definition getCapabilities (s : Controller) : list AgentCapability :=
  map snd (capability_values s).

Definition getConfig (s : Controller) : ControllerConfig := config s.

(** [Partial<ControllerConfig>]. *)
Record ConfigUpdates := {
  upd_mode : option OperationMode;
  upd_selfHealing : option bool;
  upd_autoScaling : option bool;
  upd_intelligentRouting : option bool;
  upd_maxConcurrentTasks : option Z;
  upd_taskTimeoutMs : option Z;
  upd_maxRetries : option Z;
  upd_decisionThreshold : option Q;
  upd_contentFiltering : option bool;
  upd_safetyGuardrails : option bool;
  upd_verboseLogging : option bool;
}.

Definition no_updates : ConfigUpdates := {|
  upd_mode := None; upd_selfHealing := None; upd_autoScaling := None;
  upd_intelligentRouting := None; upd_maxConcurrentTasks := None;
  upd_taskTimeoutMs := None; upd_maxRetries := None; upd_decisionThreshold := None;
  upd_contentFiltering := None; upd_safetyGuardrails := None;
  upd_verboseLogging := None;
|}.

(** [{ ...c, ...u }]. *)
Definition merge_config (c : ControllerConfig) (u : ConfigUpdates) : ControllerConfig := {|
  mode := default (mode c) (upd_mode u);
  selfHealing := default (selfHealing c) (upd_selfHealing u);
  autoScaling := default (autoScaling c) (upd_autoScaling u);
  intelligentRouting := default (intelligentRouting c) (upd_intelligentRouting u);
  maxConcurrentTasks := default (maxConcurrentTasks c) (upd_maxConcurrentTasks u);
  taskTimeoutMs := default (taskTimeoutMs c) (upd_taskTimeoutMs u);
  cfg_maxRetries := default (cfg_maxRetries c) (upd_maxRetries u);
  decisionThreshold := default (decisionThreshold c) (upd_decisionThreshold u);
  contentFiltering := default (contentFiltering c) (upd_contentFiltering u);
  safetyGuardrails := default (safetyGuardrails c) (upd_safetyGuardrails u);
  verboseLogging := default (verboseLogging c) (upd_verboseLogging u);
|}.

Definition updateConfig (updates : ConfigUpdates) (s : Controller) : Controller :=
  let s := with_config (fun c => merge_config c updates) s in
  emit (config_updated (config s)) s.

(** [new AutonomousController(config)]. *)
Definition new_controller (cfg : ConfigUpdates) : Controller :=
  initializeDefaultCapabilities {|
    config := merge_config DEFAULT_CONFIG cfg;
    capHeap := []; capabilities := []; taskHeap := []; taskQueue := [];
    activeTasks := ∅; decisions := []; isRunning := false; healthIntervals := O;
    executing := []; rejected := []; cooldowns := []; events := [];
  |}.

(** ** Health monitoring *)

(** The body of the loop over the capabilities; [k] counts the decisions
    made so far in this run. *)
Definition monitor_capability (env : Env) (acc : nat * Controller) (c : nat)
    : nat * Controller :=
  let '(k, s) := acc in
  match capHeap s !! c with
  | None => (k, s)
  | Some capability =>
      if (negb (Qle_bool 0.5 (successRate capability))
          && selfHealing (config s))%bool
      then
        let s := update_cap c (set_enabled false) s in
        let s := snd (makeDecision heal "Disabled underperforming capability"
                        [("capabilityId", cap_id capability);
                         ("successRate", render_Q (successRate capability))]
                        [("action", "disable")] env k s) in
        (S k, with_cooldowns (fun l => l ++ [c]) s)
      else (k, s)
  end.

Definition is_stale (env : Env) (s : Controller) (r : nat) : bool :=
  match taskHeap s !! r with
  | Some t => bool_decide (now env - createdAt t > taskTimeoutMs (config s))
  | None => false
  end.

Definition timeout_task (s : Controller) (r : nat) : Controller :=
  let s := update_task r (set_status failed) s in
  let s := update_task r (set_error "Task timeout in queue") s in
  emit (task_timeout r) s.

Definition monitorHealth (env : Env) (s : Controller) : Controller :=
  let s := snd (fold_left (monitor_capability env) (map snd (capabilities s)) (O, s)) in
  let staleTasks := List.filter (is_stale env s) (taskQueue s) in
  let s := fold_left timeout_task staleTasks s in
  let s := with_taskQueue (List.filter (fun r => negb (is_stale env s r))) s in
  emit (health_check (getStatus s)) s.

(** The callback of the [i]-th pending re-enable timeout. *)
Definition reenable (i : nat) (s : Controller) : Controller :=
  match cooldowns s !! i with
  | None => s
  | Some c =>
      let s := with_cooldowns (delete i) s in
      let s := update_cap c (set_enabled true) s in
      update_cap c (set_successRate 0.7) s
  end.

(** ** Runs of the controller *)

(** What can happen to a controller: calls of its public methods, ticks of
    its two intervals while they exist, settlements of pending executors,
    callbacks of pending promises and timeouts. *)
Inductive Action :=
  | Start
  | Stop
  | SetMode (m : OperationMode) (env : Env)
  | EnableUnrestrictedMode (env : Env)
  | DisableGuardrails
  | SubmitTask (type : TaskType) (input : Payload) (options : SubmitOptions) (env : Env)
  | CancelTask (taskId : string)
  | RegisterCapability (c : AgentCapability)
  | UpdateConfig (u : ConfigUpdates)
  | DispatchTick (env : Env)
  | Settle (i : nat) (o : Outcome) (env : Env)
  | Catch (i : nat) (env : Env)
  | HealthTick (env : Env)
  | Cooldown (i : nat).

Definition step (s : Controller) (a : Action) : Controller :=
  match a with
  | Start => start s
  | Stop => stop s
  | SetMode m env => setMode m env s
  | EnableUnrestrictedMode env => enableUnrestrictedMode env s
  | DisableGuardrails => disableGuardrails s
  | SubmitTask type input options env => snd (submitTask type input options env s)
  | CancelTask taskId => snd (cancelTask taskId s)
  | RegisterCapability c => registerCapability c s
  | UpdateConfig u => updateConfig u s
  | DispatchTick env => if isRunning s then processTaskQueue env s else s
  | Settle i o env => executeTask_resume i o env s
  | Catch i env => executeTask_catch i env s
  | HealthTick env =>
      match healthIntervals s with O => s | _ => monitorHealth env s end
  | Cooldown i => reenable i s
  end.

Definition run (s : Controller) (l : list Action) : Controller :=
  fold_left step l s.

(** The states a controller built with [cfg] can be in. *)
Definition reachable (s : Controller) : Prop :=
  exists cfg l, s = run (new_controller cfg) l.

(** The status of the task object [r], as whoever holds it reads it. *)
Definition status_of (s : Controller) (r : nat) : option TaskStatus :=
  status <$> taskHeap s !! r.

(** The tasks started so far, in order. *)
Definition started (s : Controller) : list nat :=
  omap (fun e => match e with task_started r => Some r | _ => None end) (events s).

(** The number of task objects whose status is [completed]. *)
Definition completed_tasks (s : Controller) : nat :=
  length (List.filter (fun t => bool_decide (status t = completed)) (taskHeap s)).

(** ** Manual registration of the service registry *)

Module AutoConfig.

Inductive ServiceType :=
  svc_personaplex | svc_agent_zero | svc_poke | svc_mcp | svc_webhook | svc_channel.

Inductive ServiceStatus := unknown | checking | healthy | degraded | unhealthy.

Record ServiceEndpoint := {
  svc_id : string;
  svc_name : string;
  svc_type : ServiceType;
  url : string;
  svc_status : ServiceStatus;
  lastCheck : option Z;
  latencyMs : option Z;
  svc_config : option Payload;
  autoDiscovered : option bool;
}.

(** [Omit<ServiceEndpoint, "status" | "lastCheck">]. *)
Record ServiceInput := {
  in_id : string;
  in_name : string;
  in_type : ServiceType;
  in_url : string;
  in_latencyMs : option Z;
  in_config : option Payload;
  in_autoDiscovered : option bool;
}.

Inductive ConfigEventType :=
  discovered | connected | disconnected | healed | error_ev | config_changed.

Record ConfigEvent := {
  ce_type : ConfigEventType;
  ce_service : ServiceEndpoint;
  ce_timestamp : Z;
  ce_details : option Payload;
}.

(** The part of [AutoConfigManager] that [registerService] reads and
    writes: the [services] map and the ["config_event"] events emitted. *)
Record Manager := {
  services : gmap string ServiceEndpoint;
  config_events : list ConfigEvent;
}.

Definition emitEvent (type : ConfigEventType) (service : ServiceEndpoint)
    (details : option Payload) (env : Env) (m : Manager) : Manager :=
  let event := {| ce_type := type; ce_service := service;
                  ce_timestamp := now env; ce_details := details |} in
  {| services := services m; config_events := config_events m ++ [event] |}.

(** [{ ...service, status: "unknown", lastCheck: undefined }]. *)
Definition endpoint_of (service : ServiceInput) : ServiceEndpoint := {|
  svc_id := in_id service;
  svc_name := in_name service;
  svc_type := in_type service;
  url := in_url service;
  svc_status := unknown;
  lastCheck := None;
  latencyMs := in_latencyMs service;
  svc_config := in_config service;
  autoDiscovered := in_autoDiscovered service;
|}.

Definition registerService (service : ServiceInput) (env : Env) (m : Manager) : Manager :=
  let endpoint := endpoint_of service in
  let m := {| services := <[svc_id endpoint := endpoint]> (services m);
              config_events := config_events m |} in
  emitEvent config_changed endpoint None env m.

(** [getServices]: the values of the map. *)
Definition getServices (m : Manager) : list ServiceEndpoint :=
  snd <$> map_to_list (services m).

End AutoConfig.

(** ** Concrete inputs *)

(** A clock reading with the random suffixes [r0], [r1], ... *)
Definition env_at (t : Z) (r : string) : Env :=
  {| now := t; random := fun i => r +:+ pretty i |}.

Definition with_priority (p : Priority) : SubmitOptions :=
  {| opt_priority := Some p; opt_maxRetries := None |}.

Definition with_maxRetries (n : Z) : SubmitOptions :=
  {| opt_priority := None; opt_maxRetries := Some n |}.

Definition no_options : SubmitOptions :=
  {| opt_priority := None; opt_maxRetries := None |}.

(** ** Vocabulary for the order of the queue *)



Definition in_class (heap : list Task) (p : Priority) (r : nat) : Prop :=
  priority_at heap r = Some p.

#[global] Instance in_class_dec heap p r : base.Decision (in_class heap p r).
Proof. unfold in_class. apply _. Defined.



(** Insertion at the first index satisfying [p], at the end when there is
    none: the shape of [insertTaskByPriority]. *)
Definition insert_before {A} (p : A -> bool) (x : A) (q : list A) : list A :=
  match findIndex p q with
  | None => q ++ [x]
  | Some i => splice_in i x q
  end.

(** The test of [insertTaskByPriority] on a queue entry. *)
Definition ranks_after (heap : list Task) (task : Task) (t : nat) : bool :=
  match heap !! t with
  | Some t' =>
      bool_decide (priorityOrder (task_priority t') > priorityOrder (task_priority task))
  | None => false
  end.

(** ** Vocabulary for retries *)

(** One execution attempt that fails: a tick of the dispatch loop, the
    executor started by it throws [err], the [catch] handler runs. The
    three runs read the clocks and random sources of [envs]. *)
Definition failing_attempt (err : string) (s : Controller) (envs : Env * Env * Env)
    : Controller :=
  let i := length (executing s) in
  let j := length (rejected s) in
  let s := processTaskQueue (fst (fst envs)) s in
  let s := executeTask_resume i (Throws err) (snd (fst envs)) s in
  executeTask_catch j (snd envs) s.



Definition retryCount_of (s : Controller) (r : nat) : option Z :=
  retryCount <$> taskHeap s !! r.

(** The task [r] is alone in the queue, a tick would not be skipped and
    some capability can take the task. *)
Definition ready (s : Controller) (r : nat) (task : Task) : Prop :=
  taskQueue s = [r]
  /\ taskHeap s !! r = Some task
  /\ Z.of_nat (size (activeTasks s)) < maxConcurrentTasks (config s)
  /\ candidates_of task s <> [].

(** What [f] reads before a run and after each of its actions. *)
Fixpoint observe {A} (f : Controller -> A) (s : Controller) (l : list Action) : list A :=
  match l with
  | [] => [f s]
  | a :: rest => f s :: observe f (step s a) rest
  end.

(** The built-in voice capability, registered again under its id but
    disabled: no capability is left for voice tasks. *)
Definition voice_disabled : AgentCapability :=
  {| cap_id := "personaplex-voice"; cap_name := "PersonaPlex Voice";
     cap_type := personaplex; cap_priority := 1; enabled := false;
     maxConcurrent := 5; currentLoad := 0; successRate := 1.0;
     avgLatencyMs := 100;
     tags := ["voice"; "speech"; "audio"; "conversation"] |}.

(** [currentLoad] of the capability object [c]. *)
Definition load_of (s : Controller) (c : nat) : option Z :=
  currentLoad <$> capHeap s !! c.

Definition completedAt_of (s : Controller) (r : nat) : option (option Z) :=
  completedAt <$> taskHeap s !! r.

Definition error_of (s : Controller) (r : nat) : option (option string) :=
  error <$> taskHeap s !! r.

(** The id of the task object behind a queue entry. *)
Definition id_at (heap : list Task) (r : nat) : option string :=
  task_id <$> heap !! r.


(** ** Vocabulary for the further properties *)

(** The rank of the class of the task behind a queue entry. The test of
    [insertTaskByPriority] on an entry is [rank_of] above the rank of the
    inserted task. *)
Definition rank_of (heap : list Task) (r : nat) : Z :=
  default 0 (priorityOrder <$> priority_at heap r).

(** The queue lists its tasks in class order. *)
Definition class_sorted (heap : list Task) (q : list nat) : Prop :=
  StronglySorted (fun a b => rank_of heap a <= rank_of heap b) q.

(** What every record of the decision log satisfies: it is executed
    exactly when it needs no approval, it is a route or a heal decision,
    and its confidence is the fixed figure of its type. *)
Definition decision_ok (d : Decision) : Prop :=
  executed d = negb (requiresApproval d)
  /\ (dec_type d = route \/ dec_type d = heal)
  /\ confidence d = calculateConfidence (dec_type d) (dec_input d).

(** The decision log of [s'] is that of [s] with records added at its
    end. *)
Definition log_grows (s s' : Controller) : Prop :=
  exists added, decisions s' = decisions s ++ added /\ Forall decision_ok added.

(** What the queue timeout of [monitorHealth] writes on a task. *)
Definition timed_out (t : Task) : Task :=
  set_error "Task timeout in queue" (set_status failed t).

(** The test of the health monitor on a capability. *)
Definition underperforming (c : AgentCapability) : bool :=
  negb (Qle_bool 0.5 (successRate c)).

(** What the health monitor does to a capability under self-healing. *)
Definition health_checked (c : AgentCapability) : AgentCapability :=
  if underperforming c then set_enabled false c else c.

(** A custom capability that fails most of the time. *)
Definition weak_capability : AgentCapability :=
  {| cap_id := "weak"; cap_name := "Weak"; cap_type := custom_cap; cap_priority := 1;
     enabled := true; maxConcurrent := 2; currentLoad := 0; successRate := 0.4;
     avgLatencyMs := 100; tags := [] |}.

(** The success rate is a proportion. *)
Definition rate_ok (c : AgentCapability) : Prop :=
  (0 <= successRate c)%Q /\ (successRate c <= 1)%Q.

(** The capabilities that the actions of a run register. *)
Definition registered (l : list Action) : list AgentCapability :=
  omap (fun a => match a with RegisterCapability c => Some c | _ => None end) l.

(** The capability registry is a map: its keys are pairwise distinct and
    each key is the id of the capability object stored under it. *)
Definition caps_wf (s : Controller) : Prop :=
  NoDup (map fst (capabilities s))
  /\ forall k c, (k, c) ∈ capabilities s -> cap_id <$> capHeap s !! c = Some k.

(** The capability store of [h'] holds the objects of [h], with the ids
    they had, and possibly new ones. *)
Definition ids_kept (h h' : list AgentCapability) : Prop :=
  forall c, (c < length h)%nat -> cap_id <$> h' !! c = cap_id <$> h !! c.

(** Consecutive runs of the dispatch loop, one for each clock reading. *)
Definition dispatch_ticks (envs : list Env) (s : Controller) : Controller :=
  fold_left (fun s env => processTaskQueue env s) envs s.

(** The running flag and the health timers of [s'] are those of [s]. *)
Definition lifecycle_kept (s s' : Controller) : Prop :=
  isRunning s' = isRunning s /\ healthIntervals s' = healthIntervals s.

(** The task object [t'] is the task object [t] at a later time: the
    fields given at submission are the same and no retry has been
    uncounted. *)
Definition same_task (t t' : Task) : Prop :=
  task_id t' = task_id t /\ task_type t' = task_type t
  /\ task_input t' = task_input t /\ task_priority t' = task_priority t
  /\ createdAt t' = createdAt t /\ maxRetries t' = maxRetries t
  /\ retryCount t <= retryCount t'.

(** The task store [h'] holds the task objects of [h], and possibly new
    ones. *)
Definition tasks_kept (h h' : list Task) : Prop :=
  forall r t, h !! r = Some t -> exists t', h' !! r = Some t' /\ same_task t t'.

(** ** The service registry: the environment and the status summary *)

Module AutoConfigEnv.
Import AutoConfig.

#[global] Instance ServiceType_eq_dec : EqDecision ServiceType.
Proof. solve_decision. Defined.
#[global] Instance ServiceStatus_eq_dec : EqDecision ServiceStatus.
Proof. solve_decision. Defined.

(** [process.env]. *)
Definition ProcessEnv := string -> option string.

(** The test [if (value)] on a variable of the environment: it is set and
    not the empty string. *)
Definition truthy (value : option string) : option string :=
  match value with
  | Some v => if bool_decide (v = "") then None else Some v
  | None => None
  end.

(** The string behind a service type. *)
Definition type_name (t : ServiceType) : string :=
  match t with
  | svc_personaplex => "personaplex"
  | svc_agent_zero => "agent-zero"
  | svc_poke => "poke"
  | svc_mcp => "mcp"
  | svc_webhook => "webhook"
  | svc_channel => "channel"
  end.

Definition ENV_VAR_MAPPINGS : list (ServiceType * list string) :=
  [(svc_personaplex, ["PERSONAPLEX_SERVER_URL"; "PERSONAPLEX_URL"; "MOSHI_SERVER_URL"]);
   (svc_agent_zero, ["AGENT_ZERO_URL"; "AGENT_ZERO_API_URL"]);
   (svc_poke, ["POKE_API_URL"; "POKE_BACKEND_URL"; "COMPOSIO_API_KEY"]);
   (svc_mcp, ["MCP_SERVER_URL"; "MCP_ENDPOINT"])].

(** The lines [log] is called with, without their leading pictograph:
    ["Loading configuration from environment..."],
    ["Found <serviceType> from <envVar>: <value>"] and ["<what> configured"]. *)
Inductive LogLine :=
  | log_loading
  | log_found (serviceType envVar value : string)
  | log_configured (what : string).

(** The endpoint that [loadFromEnvironment] builds for a variable. *)
Definition env_endpoint (serviceType : ServiceType) (envVar value : string)
    : ServiceEndpoint := {|
  svc_id := type_name serviceType +:+ "-env-" +:+ toLowerCase envVar;
  svc_name := type_name serviceType +:+ " (" +:+ envVar +:+ ")";
  svc_type := serviceType;
  url := value;
  svc_status := unknown;
  lastCheck := None;
  latencyMs := None;
  svc_config := None;
  autoDiscovered := Some false;
|}.

(** The body of the inner loop. *)
Definition load_variable (env : ProcessEnv) (serviceType : ServiceType)
    (acc : list LogLine * Manager) (envVar : string) : list LogLine * Manager :=
  match truthy (env envVar) with
  | Some value =>
      let endpoint := env_endpoint serviceType envVar value in
      (fst acc ++ [log_found (type_name serviceType) envVar value],
       {| services := <[svc_id endpoint := endpoint]> (services (snd acc));
          config_events := config_events (snd acc) |})
  | None => acc
  end.

(** The lines about the API keys. *)
Definition key_lines (env : ProcessEnv) : list LogLine :=
  omap (fun kv => match truthy (env (fst kv)) with
                  | Some _ => Some (log_configured (snd kv))
                  | None => None
                  end)
    [("HF_TOKEN", "HuggingFace token"); ("COMPOSIO_API_KEY", "Composio API key");
     ("OPENAI_API_KEY", "OpenAI API key"); ("ANTHROPIC_API_KEY", "Anthropic API key")].

(** [loadFromEnvironment]: the lines logged and the manager afterwards. *)
Definition loadFromEnvironment (env : ProcessEnv) (m : Manager)
    : list LogLine * Manager :=
  let acc :=
    fold_left (fun acc entry => fold_left (load_variable env (fst entry)) (snd entry) acc)
      ENV_VAR_MAPPINGS ([log_loading], m) in
  (fst acc ++ key_lines env, snd acc).

Definition getServicesByType (type : ServiceType) (m : Manager) : list ServiceEndpoint :=
  List.filter (fun s => bool_decide (svc_type s = type)) (getServices m).

Definition getHealthyServices (m : Manager) : list ServiceEndpoint :=
  List.filter (fun s => bool_decide (svc_status s = healthy)) (getServices m).

(** The [services] part of the summary of [getStatus]. *)
Record ServiceCounts := {
  sc_total : nat;
  sc_healthy : nat;
  sc_unhealthy : nat;
}.

Definition getStatus_services (m : Manager) : ServiceCounts :=
  let services := getServices m in
  {| sc_total := length services;
     sc_healthy :=
       length (List.filter (fun s => bool_decide (svc_status s = healthy)) services);
     sc_unhealthy :=
       length (List.filter (fun s => bool_decide (svc_status s = unhealthy)) services) |}.

(** The variables of [ENV_VAR_MAPPINGS], with their service types, in the
    order of the two loops. *)
Definition mapped_variables : list (ServiceType * string) :=
  flat_map (fun entry => map (fun envVar => (fst entry, envVar)) (snd entry))
    ENV_VAR_MAPPINGS.

End AutoConfigEnv.

(** ** The queue timeout, with a clock reading for each call of [Date.now()] *)

(** [Array.prototype.filter] with a callback that depends on the place of
    the entry: entry [i] of the array is kept when [p i] holds of it. The
    entries of [l] are at the places [k], [k + 1], ... *)
Fixpoint filter_from {A} (p : nat -> A -> bool) (k : nat) (l : list A) : list A :=
  match l with
  | [] => []
  | x :: rest =>
      if p k x then x :: filter_from p (S k) rest else filter_from p (S k) rest
  end.

Definition filter_indexed {A} (p : nat -> A -> bool) (l : list A) : list A :=
  filter_from p 0 l.

(** [Date.now() - t.createdAt > this.config.taskTimeoutMs] at the reading
    [t] of the clock. *)
Definition is_stale_at (t : Z) (s : Controller) (r : nat) : bool :=
  match taskHeap s !! r with
  | Some task => bool_decide (t - createdAt task > taskTimeoutMs (config s))
  | None => false
  end.

Module Clocked.

(** The readings of [Date.now()] in the two passes of [monitorHealth] over
    the queue: the callback of the first [filter] reads [first i] on the
    entry at place [i], the callback of the second reads [second i]. *)
Record Readings := {
  first : nat -> Z;
  second : nat -> Z;
}.

(** [monitorHealth], each callback of the two filters with a clock reading
    of its own. *)
Definition monitorHealth (env : Env) (clock : Readings) (s : Controller) : Controller :=
  let s := snd (fold_left (monitor_capability env) (map snd (capabilities s)) (O, s)) in
  let staleTasks :=
    filter_indexed (fun i r => is_stale_at (first clock i) s r) (taskQueue s) in
  let s := fold_left timeout_task staleTasks s in
  let s := with_taskQueue
             (filter_indexed (fun i r => negb (is_stale_at (second clock i) s r))) s in
  emit (health_check (getStatus s)) s.

End Clocked.

(** ** Submission of an input that [JSON.stringify] may throw on *)

Module AnyInput.

(** An input record as a caller can hand it to [submitTask]: [fields] is
    what the model carries of it, [serializable] tells whether
    [JSON.stringify] returns on it or throws a [TypeError], as it does on
    a circular structure and on a BigInt value. *)
Record Input := {
  fields : Payload;
  serializable : bool;
}.

(** [JSON.stringify(input)]; [None] stands for the error thrown. *)
Definition JSON_stringify (input : Input) : option string :=
  if serializable input then Some (JSON_stringify (fields input)) else None.

(** [shouldFilterContent]; [None] stands for the error thrown by
    [JSON.stringify]. *)
Definition shouldFilterContent (input : Input) (s : Controller) : option bool :=
  if (bool_decide (mode (config s) = unrestricted)
      || negb (contentFiltering (config s)))%bool
  then Some false
  else
    match JSON_stringify input with
    | None => None
    | Some json =>
        let txt := toLowerCase json in
        Some (existsb (fun pattern => includes pattern txt) blockedPatterns)
    end.

(** [submitTask]; [None] stands for the promise rejected with the error
    thrown by [JSON.stringify]: the task object that was built is dropped
    and nothing of the controller has been written. *)
Definition submitTask (type : TaskType) (input : Input) (options : SubmitOptions)
    (env : Env) (s : Controller) : option (nat * Controller) :=
  let task := {|
    task_id := generateId env 0;
    task_type := type;
    task_input := fields input;
    task_priority := default normal (opt_priority options);
    status := queued;
    assignedTo := None;
    createdAt := now env;
    startedAt := None;
    completedAt := None;
    result := None;
    error := None;
    retryCount := 0;
    maxRetries := default (cfg_maxRetries (config s)) (opt_maxRetries options);
  |} in
  let r := length (taskHeap s) in
  let s := with_taskHeap (fun h => h ++ [task]) s in
  if (negb (contentFiltering (config s))
      || bool_decide (mode (config s) = unrestricted))%bool
  then
    let s := log ("Task accepted (unfiltered): " +:+ task_id task) s in
    let s := insertTaskByPriority r s in
    Some (r, emit (task_queued r) s)
  else
    match shouldFilterContent input s with
    | None => None
    | Some true =>
        let s := update_task r (set_status cancelled) s in
        let s := update_task r (set_error "Content filtered by guardrails") s in
        Some (r, emit (task_filtered r) s)
    | Some false =>
        let s := insertTaskByPriority r s in
        Some (r, emit (task_queued r) s)
    end.

End AnyInput.

(** ** Vocabulary for the count of executions *)









(** * Properties *)

(** ** What a logged decision leaves alone *)

Lemma makeDecision_snd type why input output env i s :
  snd (makeDecision type why input output env i s)
  = let d := fst (makeDecision type why input output env i s) in
    let s' := emit (decision_ev d) (with_decisions (fun ds => ds ++ [d]) s) in
    if verboseLogging (config s)
    then log ("Decision: " +:+ decision_type_name type +:+ " - " +:+ why) s'
    else s'.
Proof. unfold makeDecision; cbn. destruct (verboseLogging (config s)); reflexivity. Qed.

Ltac decision_frame :=
  rewrite makeDecision_snd; cbn;
  match goal with |- context [verboseLogging ?c] => destruct (verboseLogging c) end;
  reflexivity.

Lemma makeDecision_config type why input output env i s :
  config (snd (makeDecision type why input output env i s)) = config s.
Proof. decision_frame. Qed.

Lemma makeDecision_decisions type why input output env i s :
  decisions (snd (makeDecision type why input output env i s))
  = decisions s ++ [fst (makeDecision type why input output env i s)].
Proof. decision_frame. Qed.

Lemma makeDecision_taskHeap type why input output env i s :
  taskHeap (snd (makeDecision type why input output env i s)) = taskHeap s.
Proof. decision_frame. Qed.

Lemma makeDecision_taskQueue type why input output env i s :
  taskQueue (snd (makeDecision type why input output env i s)) = taskQueue s.
Proof. decision_frame. Qed.

Lemma makeDecision_capHeap type why input output env i s :
  capHeap (snd (makeDecision type why input output env i s)) = capHeap s.
Proof. decision_frame. Qed.

Lemma makeDecision_capabilities type why input output env i s :
  capabilities (snd (makeDecision type why input output env i s)) = capabilities s.
Proof. decision_frame. Qed.

Lemma makeDecision_activeTasks type why input output env i s :
  activeTasks (snd (makeDecision type why input output env i s)) = activeTasks s.
Proof. decision_frame. Qed.

Lemma makeDecision_executing type why input output env i s :
  executing (snd (makeDecision type why input output env i s)) = executing s.
Proof. decision_frame. Qed.

Lemma makeDecision_rejected type why input output env i s :
  rejected (snd (makeDecision type why input output env i s)) = rejected s.
Proof. decision_frame. Qed.

Lemma makeDecision_started type why input output env i s :
  started (snd (makeDecision type why input output env i s)) = started s.
Proof.
  rewrite makeDecision_snd; cbn. unfold started.
  destruct (verboseLogging (config s)); cbn;
    rewrite ?omap_app; cbn; by rewrite ?app_nil_r.
Qed.

Lemma setMode_config m env s :
  config (setMode m env s)
  = match m with
    | unrestricted =>
        set_safetyGuardrails false (set_contentFiltering false (set_mode m (config s)))
    | supervised =>
        set_safetyGuardrails true (set_contentFiltering true (set_mode m (config s)))
    | autonomous => set_mode m (config s)
    end.
Proof.
  unfold setMode. cbn [config emit]. rewrite makeDecision_config.
  destruct m; reflexivity.
Qed.

(** ** Mode control *)

(** C8. [setMode("unrestricted")] always leaves [contentFiltering] and
    [safetyGuardrails] false, and a second call changes nothing in the
    configuration; [setMode("supervised")] always leaves both true;
    [setMode("autonomous")] leaves both flags as they were. In particular
    supervised, unrestricted, autonomous in this order ends with
    [contentFiltering = false]. *)
Theorem setMode_filtering_flags (s : Controller) (e1 e2 e3 : Env) :
  (contentFiltering (config (setMode unrestricted e1 s)) = false
   /\ safetyGuardrails (config (setMode unrestricted e1 s)) = false)
  /\ config (setMode unrestricted e2 (setMode unrestricted e1 s))
     = config (setMode unrestricted e1 s)
  /\ (contentFiltering (config (setMode supervised e1 s)) = true
      /\ safetyGuardrails (config (setMode supervised e1 s)) = true)
  /\ (contentFiltering (config (setMode autonomous e1 s)) = contentFiltering (config s)
      /\ safetyGuardrails (config (setMode autonomous e1 s)) = safetyGuardrails (config s))
  /\ contentFiltering
       (config (setMode autonomous e3 (setMode unrestricted e2 (setMode supervised e1 s))))
     = false.
Proof.
  rewrite !setMode_config. repeat split.
Qed.

(** ** The status counter *)

Lemma executeTask_resume_decisions i o env s :
  decisions (executeTask_resume i o env s) = decisions s.
Proof.
  unfold executeTask_resume, executeTask_finally.
  destruct (executing s !! i) as [ex|]; [|reflexivity].
  destruct o; cbn.
  - match goal with |- context [alter ?f ?r ?h !! ?k] =>
      destruct (alter f r h !! k) end; reflexivity.
  - match goal with |- context [taskHeap s !! ?k] =>
      destruct (taskHeap s !! k) end; reflexivity.
Qed.

Lemma setMode_taskHeap m env s : taskHeap (setMode m env s) = taskHeap s.
Proof.
  unfold setMode. cbn [taskHeap emit]. rewrite makeDecision_taskHeap.
  by destruct m.
Qed.

Lemma setMode_decisions m env s :
  List.filter executed (decisions (setMode m env s))
  = List.filter executed (decisions s)
    ++ (if bool_decide (m = supervised) then [] else
          [fst (makeDecision route "Mode changed"
                  [("previousMode", mode_name (mode (config s))); ("newMode", mode_name m)]
                  [("mode", mode_name m)] env 0 (with_config (set_mode m) s))]).
Proof.
  unfold setMode. cbn [decisions emit]. rewrite makeDecision_decisions.
  rewrite List.filter_app.
  destruct m; cbn; rewrite ?app_nil_r; reflexivity.
Qed.

(** C10. The [completed] figure of [getStatus] is the number of logged
    decisions whose [executed] flag is set, in every state. It is not the
    number of completed tasks: the completion of a task never moves it, a
    mode change to anything but supervised adds one to it without touching
    any task. So after a task completes under supervised mode the figure is
    0 with one completed task, and after a mode change on a fresh
    controller it is 1 with no completed task. *)
Theorem getStatus_completed_counts_executed_decisions :
  (forall s, st_completed (getStatus s) = length (List.filter executed (decisions s)))
  /\ (forall s i env,
        st_completed (getStatus (executeTask_resume i Returns env s))
        = st_completed (getStatus s))
  /\ (forall s m env,
        st_completed (getStatus (setMode m env s))
        = (st_completed (getStatus s) + (if bool_decide (m = supervised) then 0 else 1))%nat
        /\ completed_tasks (setMode m env s) = completed_tasks s)
  /\ (let s := run (new_controller no_updates)
                 [Start; SetMode supervised (env_at 1 "a");
                  SubmitTask text [] no_options (env_at 2 "b");
                  DispatchTick (env_at 3 "c"); Settle 0 Returns (env_at 4 "d")] in
      reachable s /\ completed_tasks s = 1%nat /\ st_completed (getStatus s) = 0%nat)
  /\ (let s := run (new_controller no_updates) [SetMode autonomous (env_at 1 "a")] in
      reachable s /\ completed_tasks s = 0%nat /\ st_completed (getStatus s) = 1%nat).
Proof.
  split; [reflexivity|].
  split; [intros; cbn [getStatus st_completed];
          by rewrite executeTask_resume_decisions|].
  split.
  { intros s m env. unfold completed_tasks. rewrite setMode_taskHeap.
    split; [|reflexivity]. cbn [getStatus st_completed].
    rewrite setMode_decisions, length_app. by destruct m. }
  split; (split; [eexists _, _; reflexivity | by vm_compute]).
Qed.

(** ** The service registry *)

Lemma map_to_list_at_key {V} (m : gmap string V) (k : string) (v : V) :
  m !! k = Some v ->
  filter (fun kv => fst kv = k) (map_to_list m) = [(k, v)].
Proof.
  intros Hk.
  assert (Hp : map_to_list m ≡ₚ (k, v) :: map_to_list (delete k m)).
  { rewrite <- (insert_delete_id m k v Hk) at 1.
    apply map_to_list_insert, lookup_delete_eq. }
  assert (Hf : filter (fun kv : string * V => fst kv = k)
                 (map_to_list (delete k m)) = []).
  { destruct (filter _ (map_to_list (delete k m))) as [|[k' v'] l] eqn:E; [done|].
    assert (Hin : (k', v') ∈ filter (fun kv : string * V => fst kv = k)
                    (map_to_list (delete k m))) by (rewrite E; left).
    apply list_elem_of_filter in Hin as [Hk' Hin]. cbn in Hk'. subst k'.
    apply elem_of_map_to_list in Hin. by rewrite lookup_delete_eq in Hin. }
  apply Permutation_singleton_r.
  rewrite Hp, filter_cons_True by done. by rewrite Hf.
Qed.

Import AutoConfig.

(** C9. Two calls of [registerService] with the same id, whatever the other
    fields, leave exactly one entry under that id; it carries the fields of
    the second call, its status is [unknown] and its [lastCheck] is
    cleared. Nothing of the first call survives, no entry is added by the
    second call, and each call emits one [config_changed] event for the
    endpoint it stored. *)
Theorem registerService_idempotent_upsert
    (m : Manager) (a b : ServiceInput) (e1 e2 : Env) :
  in_id a = in_id b ->
  let m1 := AutoConfig.registerService a e1 m in
  let m2 := AutoConfig.registerService b e2 m1 in
  filter (fun kv => fst kv = in_id b) (map_to_list (services m2))
    = [(in_id b, endpoint_of b)]
  /\ (exists e, services m2 !! in_id b = Some e
        /\ svc_status e = unknown /\ lastCheck e = None
        /\ svc_name e = in_name b /\ svc_type e = in_type b /\ url e = in_url b
        /\ latencyMs e = in_latencyMs b /\ svc_config e = in_config b
        /\ autoDiscovered e = in_autoDiscovered b)
  /\ services m2 = services (AutoConfig.registerService b e2 m)
  /\ size (services m2) = size (services m1)
  /\ length (getServices m2) = length (getServices m1)
  /\ config_events m2
     = config_events m
       ++ [ {| ce_type := config_changed; ce_service := endpoint_of a;
               ce_timestamp := now e1; ce_details := None |};
            {| ce_type := config_changed; ce_service := endpoint_of b;
               ce_timestamp := now e2; ce_details := None |} ].
Proof.
  intros Hid m1 m2.
  assert (Hs2 : services m2 = <[in_id b := endpoint_of b]> (services m)).
  { subst m1 m2. cbn. rewrite Hid. apply insert_insert_eq. }
  assert (Hsize : size (services m2) = size (services m1)).
  { rewrite Hs2. subst m1. cbn. rewrite Hid.
    destruct (services m !! in_id b) as [x|] eqn:E.
    - rewrite <- (insert_delete_id (services m) _ _ E), !insert_insert_eq.
      rewrite !map_size_insert_None by apply lookup_delete_eq. done.
    - by rewrite !map_size_insert_None. }
  split; [apply map_to_list_at_key; rewrite Hs2; apply lookup_insert_eq|].
  split; [exists (endpoint_of b); rewrite Hs2, lookup_insert_eq; repeat split|].
  split; [by rewrite Hs2|].
  split; [done|].
  split; [unfold getServices; by rewrite !length_fmap, !length_map_to_list|].
  subst m1 m2. cbn. by rewrite <- app_assoc.
Qed.

(** At ["svc-1"], with two different urls. *)
Lemma registerService_idempotent_upsert_witness :
  let a := {| in_id := "svc-1"; in_name := "one"; in_type := svc_webhook;
              in_url := "http://a.example"; in_latencyMs := None;
              in_config := None; in_autoDiscovered := None |} in
  let b := {| in_id := "svc-1"; in_name := "one"; in_type := svc_webhook;
              in_url := "http://b.example"; in_latencyMs := None;
              in_config := None; in_autoDiscovered := None |} in
  let m := {| services := ∅; config_events := [] |} in
  let m2 := AutoConfig.registerService b (env_at 2 "y")
              (AutoConfig.registerService a (env_at 1 "x") m) in
  in_id a = in_id b
  /\ filter (fun kv => fst kv = in_id b) (map_to_list (services m2))
     = [(in_id b, endpoint_of b)].
Proof.
  intros a b m m2. split; [reflexivity|].
  apply (registerService_idempotent_upsert m a b (env_at 1 "x") (env_at 2 "y")).
  reflexivity.
Defined.

(** ** The priority queue *)

Lemma insert_before_split {A} (p : A -> bool) (x : A) (l1 l2 : list A) :
  Forall (fun y => p y = false) l1 ->
  Forall (fun y => p y = true) l2 ->
  insert_before p x (l1 ++ l2) = l1 ++ x :: l2.
Proof.
  unfold insert_before. intros H1 H2.
  induction H1 as [|y l1 Hy _ IH]; cbn.
  - destruct H2 as [|z l2 Hz _]; cbn; [reflexivity|]. by rewrite Hz.
  - rewrite Hy. unfold splice_in in *.
    destruct (findIndex p (l1 ++ l2)); cbn; by rewrite IH.
Qed.

Lemma insertTaskByPriority_queue r s task :
  taskHeap s !! r = Some task ->
  taskQueue (insertTaskByPriority r s)
  = insert_before (ranks_after (taskHeap s) task) r (taskQueue s).
Proof.
  intros Hr. unfold insertTaskByPriority, insert_before. rewrite Hr.
  fold (ranks_after (taskHeap s) task).
  by destruct (findIndex _ (taskQueue s)).
Qed.

Lemma insertTaskByPriority_taskHeap r s :
  taskHeap (insertTaskByPriority r s) = taskHeap s.
Proof.
  unfold insertTaskByPriority. destruct (taskHeap s !! r); [|reflexivity].
  by destruct (findIndex _ (taskQueue s)).
Qed.




Lemma shouldFilterContent_false input s : shouldFilterContent input s = false.
Proof. unfold shouldFilterContent, blockedPatterns. by destruct (_ || _)%bool. Qed.

(** The task object that [submitTask] builds. *)
Lemma submitTask_spec type input options env s :
  let task := {|
    task_id := generateId env 0; task_type := type; task_input := input;
    task_priority := default normal (opt_priority options); status := queued;
    assignedTo := None; createdAt := now env; startedAt := None;
    completedAt := None; result := None; error := None; retryCount := 0;
    maxRetries := default (cfg_maxRetries (config s)) (opt_maxRetries options) |} in
  let s' := snd (submitTask type input options env s) in
  fst (submitTask type input options env s) = length (taskHeap s)
  /\ taskHeap s' = taskHeap s ++ [task]
  /\ taskQueue s'
     = insert_before (ranks_after (taskHeap s ++ [task]) task)
         (length (taskHeap s)) (taskQueue s).
Proof.
  intros task s'. subst s'. unfold submitTask. fold task.
  cbn [config with_taskHeap].
  assert (Hr : (taskHeap s ++ [task]) !! length (taskHeap s) = Some task).
  { by rewrite lookup_app_r, Nat.sub_diag by lia. }
  destruct (_ || _)%bool; [|rewrite shouldFilterContent_false];
    cbn [fst snd taskHeap taskQueue emit];
    rewrite insertTaskByPriority_taskHeap,
      (insertTaskByPriority_queue _ _ task) by exact Hr; done.
Qed.





(** ** What routing and the start of an executor leave alone *)

Lemma sort_insert_perm x l : sort_insert x l ≡ₚ x :: l.
Proof.
  induction l as [|y l IH]; cbn; [done|].
  destruct (Qle_bool _ _); [done|]. rewrite IH. apply Permutation_swap.
Qed.

Lemma sort_by_score_perm l : sort_by_score l ≡ₚ l.
Proof.
  induction l as [|x l IH]; cbn; [done|].
  by rewrite sort_insert_perm, IH.
Qed.

Lemma selectCapability_fst task env s :
  fst (selectCapability task env s)
  = fst <$> head (sort_by_score (candidates_of task s)).
Proof. unfold selectCapability. by destruct (sort_by_score _). Qed.

Ltac select_frame :=
  unfold selectCapability;
  match goal with |- context [sort_by_score ?l] => destruct (sort_by_score l) end;
  [reflexivity|];
  match goal with |- context [if ?b then _ else _] => destruct b end;
  cbn [fst snd];
  rewrite ?makeDecision_config, ?makeDecision_taskHeap, ?makeDecision_taskQueue,
    ?makeDecision_capHeap, ?makeDecision_capabilities, ?makeDecision_activeTasks,
    ?makeDecision_executing, ?makeDecision_rejected, ?makeDecision_started;
  reflexivity.

Lemma selectCapability_config task env s :
  config (snd (selectCapability task env s)) = config s.
Proof. select_frame. Qed.
Lemma selectCapability_taskHeap task env s :
  taskHeap (snd (selectCapability task env s)) = taskHeap s.
Proof. select_frame. Qed.
Lemma selectCapability_taskQueue task env s :
  taskQueue (snd (selectCapability task env s)) = taskQueue s.
Proof. select_frame. Qed.
Lemma selectCapability_capHeap task env s :
  capHeap (snd (selectCapability task env s)) = capHeap s.
Proof. select_frame. Qed.
Lemma selectCapability_capabilities task env s :
  capabilities (snd (selectCapability task env s)) = capabilities s.
Proof. select_frame. Qed.
Lemma selectCapability_activeTasks task env s :
  activeTasks (snd (selectCapability task env s)) = activeTasks s.
Proof. select_frame. Qed.
Lemma selectCapability_executing task env s :
  executing (snd (selectCapability task env s)) = executing s.
Proof. select_frame. Qed.
Lemma selectCapability_rejected task env s :
  rejected (snd (selectCapability task env s)) = rejected s.
Proof. select_frame. Qed.
Lemma selectCapability_started task env s :
  started (snd (selectCapability task env s)) = started s.
Proof. select_frame. Qed.

Lemma started_emit e s :
  started (emit e s)
  = started s ++ match e with task_started r => [r] | _ => [] end.
Proof. unfold started. cbn. rewrite omap_app. by destruct e. Qed.

Lemma started_log msg s : started (log msg s) = started s.
Proof. unfold log. by rewrite started_emit, app_nil_r. Qed.

Lemma started_with_executing f s : started (with_executing f s) = started s.
Proof. reflexivity. Qed.

Ltac begin_frame :=
  unfold executeTask_begin;
  repeat match goal with
    | |- context [match ?h !! ?k with _ => _ end] => destruct (h !! k)
    end; try reflexivity;
  match goal with |- context [cap_type ?c] => destruct (cap_type c) end;
  unfold executeVoiceTask, executeAutonomousTask, executeResearchTask,
    executeMcpTask, executeGenericTask;
  cbn [fst snd config taskHeap taskQueue capHeap capabilities activeTasks
       executing rejected with_executing emit];
  rewrite ?started_with_executing, ?started_emit, ?app_nil_r;
  cbn [fst snd];
  rewrite ?makeDecision_config, ?makeDecision_taskHeap, ?makeDecision_taskQueue,
    ?makeDecision_capHeap, ?makeDecision_capabilities, ?makeDecision_activeTasks,
    ?makeDecision_executing, ?makeDecision_rejected, ?makeDecision_started;
  try reflexivity.

Lemma executeTask_begin_config r c env s :
  config (executeTask_begin r c env s) = config s.
Proof. begin_frame. Qed.
Lemma executeTask_begin_taskHeap r c env s :
  taskHeap (executeTask_begin r c env s) = taskHeap s.
Proof. begin_frame. Qed.
Lemma executeTask_begin_taskQueue r c env s :
  taskQueue (executeTask_begin r c env s) = taskQueue s.
Proof. begin_frame. Qed.
Lemma executeTask_begin_capHeap r c env s :
  capHeap (executeTask_begin r c env s) = capHeap s.
Proof. begin_frame. Qed.
Lemma executeTask_begin_capabilities r c env s :
  capabilities (executeTask_begin r c env s) = capabilities s.
Proof. begin_frame. Qed.
Lemma executeTask_begin_activeTasks r c env s :
  activeTasks (executeTask_begin r c env s) = activeTasks s.
Proof. begin_frame. Qed.
Lemma executeTask_begin_rejected r c env s :
  rejected (executeTask_begin r c env s) = rejected s.
Proof. begin_frame. Qed.
Lemma executeTask_begin_started r c env s :
  started (executeTask_begin r c env s) = started s.
Proof. begin_frame. Qed.

Lemma executeTask_begin_executing r c env s :
  is_Some (taskHeap s !! r) -> is_Some (capHeap s !! c) ->
  exists ex, executing (executeTask_begin r c env s) = executing s ++ [ex]
             /\ ex_task ex = r /\ ex_cap ex = c /\ ex_startTime ex = now env.
Proof.
  intros [task Ht] [cap Hc]. unfold executeTask_begin. rewrite Ht, Hc.
  destruct (cap_type cap);
    unfold executeVoiceTask, executeAutonomousTask, executeResearchTask,
      executeMcpTask, executeGenericTask;
    cbn [fst snd executing with_executing emit];
    rewrite ?makeDecision_executing; eexists; repeat split.
Qed.

(** ** One tick of the dispatch loop, case by case *)

Lemma candidates_of_capHeap task s c cap :
  (c, cap) ∈ candidates_of task s ->
  capHeap s !! c = Some cap
  /\ enabled cap = true /\ currentLoad cap < maxConcurrent cap
  /\ matchesTaskType cap task = true.
Proof.
  unfold candidates_of. rewrite !list_elem_of_In, !filter_In, <- list_elem_of_In.
  cbn. intros [[Hin [Hen Hload%bool_decide_eq_true]%andb_prop] Hm].
  repeat split; try done.
  unfold capability_values in Hin. apply list_elem_of_omap in Hin as ([k c'] & _ & Hc).
  cbn in Hc. destruct (capHeap s !! c') eqn:E; by simplify_eq/=.
Qed.

Lemma selectCapability_None task env s :
  candidates_of task s = [] -> selectCapability task env s = (None, s).
Proof. unfold selectCapability. by intros ->. Qed.

Lemma selectCapability_Some task env s :
  candidates_of task s <> [] ->
  exists c cap, fst (selectCapability task env s) = Some c
                /\ (c, cap) ∈ candidates_of task s.
Proof.
  intros Hne. rewrite selectCapability_fst.
  pose proof (sort_by_score_perm (candidates_of task s)) as Hp.
  destruct (sort_by_score (candidates_of task s)) as [|[c cap] l].
  - by apply Permutation_nil_l in Hp.
  - exists c, cap. split; [done|]. rewrite <- Hp. left.
Qed.

Lemma processTaskQueue_pop_idle env s :
  maxConcurrentTasks (config s) <= Z.of_nat (size (activeTasks s))
  \/ taskQueue s = [] ->
  processTaskQueue_pop env s = (None, s).
Proof.
  intros H. unfold processTaskQueue_pop. case_bool_decide; [done|].
  destruct H as [H| ->]; [lia|done].
Qed.

Lemma processTaskQueue_pop_unfold env s r q task :
  Z.of_nat (size (activeTasks s)) < maxConcurrentTasks (config s) ->
  taskQueue s = r :: q ->
  taskHeap s !! r = Some task ->
  processTaskQueue_pop env s
  = let s0 := with_taskQueue (fun _ => q) s in
    let selected := selectCapability task env s0 in
    let s := snd selected in
    match fst selected with
    | None =>
        if bool_decide (retryCount task < maxRetries task)
        then
          let s := update_task r incr_retryCount s in
          (Some r, with_taskQueue (fun q => q ++ [r]) s)
        else
          let s := update_task r (set_status failed) s in
          let s := update_task r (set_error "No capable agent available") s in
          (Some r, emit (task_failed r) s)
    | Some c =>
        let cname := default "" (cap_name <$> capHeap s !! c) in
        let cid := default "" (cap_id <$> capHeap s !! c) in
        let s := update_task r (set_assignedTo cid) s in
        let s := update_task r (set_status running) s in
        let s := update_task r (set_startedAt (now env)) s in
        let s := with_activeTasks (insert (task_id task) r) s in
        let s := update_cap c (fun cap => set_currentLoad (currentLoad cap + 1) cap) s in
        let s := emit (task_started r) s in
        let s := log ("Task " +:+ task_id task +:+ " assigned to " +:+ cname) s in
        (Some r, executeTask_begin r c env s)
    end.
Proof.
  intros Hsize Hq Ht. unfold processTaskQueue_pop.
  rewrite bool_decide_eq_false_2 by lia. rewrite Hq. cbn [shift].
  cbn [taskHeap with_taskQueue]. by rewrite Ht.
Qed.

(** No capability, retries left: the task goes to the very end of the
    queue ([push]) with one more retry counted. *)
Lemma processTaskQueue_requeue env s r q task :
  Z.of_nat (size (activeTasks s)) < maxConcurrentTasks (config s) ->
  taskQueue s = r :: q ->
  taskHeap s !! r = Some task ->
  candidates_of task s = [] ->
  retryCount task < maxRetries task ->
  processTaskQueue_pop env s
  = (Some r, with_taskQueue (fun q => q ++ [r])
               (update_task r incr_retryCount (with_taskQueue (fun _ => q) s))).
Proof.
  intros Hsize Hq Ht Hc Hretry.
  rewrite (processTaskQueue_pop_unfold env s r q task) by done. cbn zeta.
  rewrite selectCapability_None by done. cbn [fst snd].
  by rewrite bool_decide_eq_true_2.
Qed.

(** No capability, no retry left: the task fails and leaves the queue. *)
Lemma processTaskQueue_exhausted env s r q task :
  Z.of_nat (size (activeTasks s)) < maxConcurrentTasks (config s) ->
  taskQueue s = r :: q ->
  taskHeap s !! r = Some task ->
  candidates_of task s = [] ->
  ~ retryCount task < maxRetries task ->
  processTaskQueue_pop env s
  = (Some r, emit (task_failed r)
               (update_task r (set_error "No capable agent available")
                  (update_task r (set_status failed)
                     (with_taskQueue (fun _ => q) s)))).
Proof.
  intros Hsize Hq Ht Hc Hretry.
  rewrite (processTaskQueue_pop_unfold env s r q task) by done. cbn zeta.
  rewrite selectCapability_None by done. cbn [fst snd].
  by rewrite bool_decide_eq_false_2.
Qed.

(** A capability is found: the task is started on it. *)
Lemma processTaskQueue_dispatch env s r q task :
  Z.of_nat (size (activeTasks s)) < maxConcurrentTasks (config s) ->
  taskQueue s = r :: q ->
  taskHeap s !! r = Some task ->
  candidates_of task s <> [] ->
  exists c cap ex,
    (c, cap) ∈ candidates_of task s
    /\ fst (processTaskQueue_pop env s) = Some r
    /\ let s' := processTaskQueue env s in
       config s' = config s
       /\ capabilities s' = capabilities s
       /\ taskQueue s' = q
       /\ taskHeap s'
          = alter (set_startedAt (now env))  r
              (alter (set_status running) r
                 (alter (set_assignedTo (cap_id cap)) r (taskHeap s)))
       /\ capHeap s'
          = alter (fun cap => set_currentLoad (currentLoad cap + 1) cap) c (capHeap s)
       /\ activeTasks s' = <[task_id task := r]> (activeTasks s)
       /\ executing s' = executing s ++ [ex]
       /\ ex_task ex = r /\ ex_cap ex = c /\ ex_startTime ex = now env
       /\ rejected s' = rejected s
       /\ started s' = started s ++ [r].
Proof.
  intros Hsize Hq Ht Hne. unfold processTaskQueue.
  rewrite (processTaskQueue_pop_unfold env s r q task) by done. cbn zeta.
  set (s0 := with_taskQueue (fun _ => q) s).
  destruct (selectCapability_Some task env s0) as (c & cap & Hsel & Hin); [done|].
  rewrite Hsel. cbn [fst snd].
  destruct (candidates_of_capHeap task s c cap Hin) as (Hcap & _).
  rewrite !selectCapability_capHeap. change (capHeap s0) with (capHeap s).
  rewrite Hcap. cbn [fmap option_fmap option_map default].
  match goal with |- context [executeTask_begin r c env ?st] => set (s2 := st) end.
  destruct (executeTask_begin_executing r c env s2) as (ex & Hex & ? & ? & ?).
  { subst s2. cbn. rewrite selectCapability_taskHeap. cbn.
    rewrite !list_lookup_alter_eq, Ht. by eexists. }
  { subst s2. cbn. rewrite selectCapability_capHeap. cbn.
    rewrite list_lookup_alter_eq, Hcap. by eexists. }
  exists c, cap, ex. split; [done|]. split; [done|].
  rewrite executeTask_begin_config, executeTask_begin_capabilities,
    executeTask_begin_taskQueue, executeTask_begin_taskHeap,
    executeTask_begin_capHeap, executeTask_begin_activeTasks,
    executeTask_begin_rejected, executeTask_begin_started, Hex.
  subst s2. rewrite started_log, started_emit.
  cbn [config capabilities taskQueue taskHeap capHeap activeTasks executing rejected
       with_activeTasks update_cap update_task with_capHeap with_taskHeap emit log].
  unfold started at 1.
  cbn [events with_activeTasks update_cap update_task with_capHeap with_taskHeap].
  fold (started (snd (selectCapability task env s0))).
  rewrite selectCapability_config, selectCapability_capabilities,
    selectCapability_taskQueue, selectCapability_taskHeap,
    selectCapability_capHeap, selectCapability_activeTasks,
    selectCapability_executing, selectCapability_rejected,
    selectCapability_started.
  repeat split; done.
Qed.






(** ** Settlement of an executor and the error handler *)

Lemma candidates_of_elem task s c cap :
  (c, cap) ∈ candidates_of task s
  <-> (exists k, (k, c) ∈ capabilities s)
      /\ capHeap s !! c = Some cap
      /\ enabled cap = true /\ currentLoad cap < maxConcurrent cap
      /\ matchesTaskType cap task = true.
Proof.
  unfold candidates_of. rewrite !list_elem_of_In, !filter_In, <- list_elem_of_In.
  cbn. unfold capability_values. rewrite list_elem_of_omap, andb_true_iff.
  rewrite bool_decide_eq_true. split.
  - intros [[([k c'] & Hin & Hc) [Hen Hload]] Hm]. cbn in Hc.
    destruct (capHeap s !! c') eqn:E; simplify_eq/=. eauto 10.
  - intros ([k Hin] & Hc & Hen & Hload & Hm). repeat split; try done.
    exists (k, c). split; [done|]. cbn. by rewrite Hc.
Qed.

Lemma executeTask_resume_throw i err env s ex task :
  executing s !! i = Some ex ->
  taskHeap s !! ex_task ex = Some task ->
  let s' := executeTask_resume i (Throws err) env s in
  config s' = config s
  /\ capabilities s' = capabilities s
  /\ taskQueue s' = taskQueue s
  /\ taskHeap s' = taskHeap s
  /\ capHeap s'
     = alter (fun cap => set_currentLoad (currentLoad cap - 1) cap) (ex_cap ex) (capHeap s)
  /\ activeTasks s' = delete (task_id task) (activeTasks s)
  /\ executing s' = delete i (executing s)
  /\ rejected s'
     = rejected s ++ [{| rej_task := ex_task ex; rej_cap := ex_cap ex; rej_error := err |}]
  /\ started s' = started s.
Proof.
  intros Hex Ht. unfold executeTask_resume, executeTask_finally. rewrite Hex.
  cbn [taskHeap update_cap with_capHeap with_executing]. rewrite Ht.
  repeat split.
Qed.

Lemma executeTask_resume_return i env s ex task :
  executing s !! i = Some ex ->
  taskHeap s !! ex_task ex = Some task ->
  let s' := executeTask_resume i Returns env s in
  config s' = config s
  /\ capabilities s' = capabilities s
  /\ taskQueue s' = taskQueue s
  /\ taskHeap s'
     = alter (set_result (ex_value ex)) (ex_task ex)
         (alter (set_completedAt (now env)) (ex_task ex)
            (alter (set_status completed) (ex_task ex) (taskHeap s)))
  /\ capHeap s'
     = alter (fun cap => set_currentLoad (currentLoad cap - 1) cap) (ex_cap ex)
         (alter (fun cap => set_successRate (successRate cap * 0.9 + 0.1)%Q cap) (ex_cap ex)
            (alter (fun cap => set_avgLatencyMs
                       ((avgLatencyMs cap + inject_Z (now env - ex_startTime ex)) / 2)%Q cap)
               (ex_cap ex) (capHeap s)))
  /\ activeTasks s' = delete (task_id task) (activeTasks s)
  /\ executing s' = delete i (executing s)
  /\ rejected s' = rejected s
  /\ started s' = started s.
Proof.
  intros Hex Ht. unfold executeTask_resume, executeTask_finally. rewrite Hex.
  cbn [taskHeap update_task update_cap with_capHeap with_taskHeap with_executing emit log].
  rewrite !list_lookup_alter_eq, Ht. cbn [fmap option_fmap option_map].
  repeat split. unfold started. cbn. rewrite !omap_app. cbn. by rewrite !app_nil_r.
Qed.

Lemma started_insertTaskByPriority r s :
  started (insertTaskByPriority r s) = started s.
Proof.
  unfold insertTaskByPriority. destruct (taskHeap s !! r); [|done].
  by destruct (findIndex _ _).
Qed.

Ltac insert_frame :=
  unfold insertTaskByPriority;
  match goal with |- context [taskHeap ?s !! ?r] => destruct (taskHeap s !! r) end;
  [|reflexivity];
  match goal with |- context [findIndex ?p ?q] => destruct (findIndex p q) end;
  reflexivity.

Lemma insertTaskByPriority_config r s : config (insertTaskByPriority r s) = config s.
Proof. insert_frame. Qed.
Lemma insertTaskByPriority_capHeap r s : capHeap (insertTaskByPriority r s) = capHeap s.
Proof. insert_frame. Qed.
Lemma insertTaskByPriority_capabilities r s :
  capabilities (insertTaskByPriority r s) = capabilities s.
Proof. insert_frame. Qed.
Lemma insertTaskByPriority_activeTasks r s :
  activeTasks (insertTaskByPriority r s) = activeTasks s.
Proof. insert_frame. Qed.
Lemma insertTaskByPriority_executing r s :
  executing (insertTaskByPriority r s) = executing s.
Proof. insert_frame. Qed.
Lemma insertTaskByPriority_rejected r s :
  rejected (insertTaskByPriority r s) = rejected s.
Proof. insert_frame. Qed.

(** The handler with a retry left: one more retry counted, the task is
    queued again by priority. *)
Lemma handleTaskError_retry r c err env s task :
  taskHeap s !! r = Some task ->
  retryCount task < maxRetries task ->
  let s' := handleTaskError r c err env s in
  let task' := set_status queued (incr_retryCount task) in
  config s' = config s
  /\ capabilities s' = capabilities s
  /\ taskHeap s' = alter (set_status queued) r (alter incr_retryCount r (taskHeap s))
  /\ taskQueue s' = insert_before (ranks_after (taskHeap s') task') r (taskQueue s)
  /\ capHeap s'
     = alter (fun cap => set_successRate (successRate cap * 0.9)%Q cap) c
         (alter (fun cap => set_currentLoad (currentLoad cap - 1) cap) c (capHeap s))
  /\ activeTasks s' = delete (task_id task) (activeTasks s)
  /\ executing s' = executing s
  /\ rejected s' = rejected s
  /\ started s' = started s.
Proof.
  intros Ht Hretry s' task'. subst s'. unfold handleTaskError.
  cbn [taskHeap update_cap with_capHeap]. rewrite Ht.
  rewrite bool_decide_eq_true_2 by done.
  match goal with |- context [insertTaskByPriority r ?st] => set (s1 := st) end.
  assert (Ht' : taskHeap s1 !! r = Some task').
  { subst s1. cbn. by rewrite !list_lookup_alter_eq, Ht. }
  assert (Hfields :
    let s2 := log ("Retrying task " +:+ task_id task +:+ " (attempt "
                   +:+ pretty (retryCount task + 1) +:+ ")") (insertTaskByPriority r s1) in
    config s2 = config s /\ capabilities s2 = capabilities s
    /\ taskHeap s2 = alter (set_status queued) r (alter incr_retryCount r (taskHeap s))
    /\ taskQueue s2 = insert_before (ranks_after (taskHeap s2) task') r (taskQueue s)
    /\ capHeap s2
       = alter (fun cap => set_successRate (successRate cap * 0.9)%Q cap) c
           (alter (fun cap => set_currentLoad (currentLoad cap - 1) cap) c (capHeap s))
    /\ activeTasks s2 = delete (task_id task) (activeTasks s)
    /\ executing s2 = executing s /\ rejected s2 = rejected s
    /\ started s2 = started s).
  { cbn zeta. rewrite started_log, started_insertTaskByPriority.
    cbn [config capabilities taskHeap taskQueue capHeap activeTasks executing
         rejected log emit].
    rewrite insertTaskByPriority_config, insertTaskByPriority_capabilities,
      insertTaskByPriority_taskHeap, (insertTaskByPriority_queue r s1 task' Ht'),
      insertTaskByPriority_capHeap, insertTaskByPriority_activeTasks,
      insertTaskByPriority_executing, insertTaskByPriority_rejected.
    repeat split. }
  cbn zeta in Hfields.
  match goal with |- context [selfHealing ?c] => destruct (selfHealing c) end;
    [|exact Hfields].
  rewrite makeDecision_config, makeDecision_capabilities, makeDecision_taskHeap,
    makeDecision_taskQueue, makeDecision_capHeap, makeDecision_activeTasks,
    makeDecision_executing, makeDecision_rejected, makeDecision_started.
  exact Hfields.
Qed.

(** The handler with no retry left: the task fails for good. *)
Lemma handleTaskError_exhausted r c err env s task :
  taskHeap s !! r = Some task ->
  ~ retryCount task < maxRetries task ->
  let s' := handleTaskError r c err env s in
  config s' = config s
  /\ capabilities s' = capabilities s
  /\ taskHeap s'
     = alter (set_error err) r
         (alter (set_completedAt (now env)) r (alter (set_status failed) r (taskHeap s)))
  /\ taskQueue s' = taskQueue s
  /\ capHeap s'
     = alter (fun cap => set_successRate (successRate cap * 0.9)%Q cap) c
         (alter (fun cap => set_currentLoad (currentLoad cap - 1) cap) c (capHeap s))
  /\ activeTasks s' = delete (task_id task) (activeTasks s)
  /\ executing s' = executing s
  /\ rejected s' = rejected s
  /\ started s' = started s.
Proof.
  intros Ht Hretry s'. subst s'. unfold handleTaskError.
  cbn [taskHeap update_cap with_capHeap]. rewrite Ht.
  rewrite bool_decide_eq_false_2 by done.
  rewrite started_log, started_emit, app_nil_r.
  repeat split.
Qed.

(** ** An execution attempt that fails *)

(** The tick and the throw: the task has been started once more, its
    capability has been charged and released, a rejection is pending. *)
Lemma attempt_until_rejection err e1 e2 s r task :
  ready s r task ->
  let s2 := executeTask_resume (length (executing s)) (Throws err) e2
              (processTaskQueue e1 s) in
  exists c cap,
    (c, cap) ∈ candidates_of task s
    /\ config s2 = config s
    /\ capabilities s2 = capabilities s
    /\ taskQueue s2 = []
    /\ taskHeap s2
       = alter (set_startedAt (now e1)) r
           (alter (set_status running) r
              (alter (set_assignedTo (cap_id cap)) r (taskHeap s)))
    /\ capHeap s2
       = alter (fun cap => set_currentLoad (currentLoad cap - 1) cap) c
           (alter (fun cap => set_currentLoad (currentLoad cap + 1) cap) c (capHeap s))
    /\ activeTasks s2 = delete (task_id task) (<[task_id task := r]> (activeTasks s))
    /\ executing s2 = executing s
    /\ rejected s2
       = rejected s ++ [{| rej_task := r; rej_cap := c; rej_error := err |}]
    /\ started s2 = started s ++ [r].
Proof.
  intros (Hq & Ht & Hsize & Hcand) s2.
  destruct (processTaskQueue_dispatch e1 s r [] task Hsize Hq Ht Hcand)
    as (c & cap & ex & Hin & _ & H).
  cbn zeta in H.
  destruct H as (Hcfg & Hcaps & Hq1 & Hheap & HcapHeap & Hact & Hexec & Hexr & Hexc
                 & _ & Hrej & Hst).
  set (s1 := processTaskQueue e1 s) in *.
  assert (Hex : executing s1 !! length (executing s) = Some ex).
  { rewrite Hexec. by apply list_lookup_middle. }
  assert (Ht1 : taskHeap s1 !! ex_task ex
                = Some (set_startedAt (now e1)
                          (set_status running (set_assignedTo (cap_id cap) task)))).
  { by rewrite Hexr, Hheap, !list_lookup_alter_eq, Ht. }
  destruct (executeTask_resume_throw (length (executing s)) err e2 s1 ex _ Hex Ht1)
    as (Hcfg2 & Hcaps2 & Hq2 & Hheap2 & HcapHeap2 & Hact2 & Hexec2 & Hrej2 & Hst2).
  fold s2 in Hcfg2, Hcaps2, Hq2, Hheap2, HcapHeap2, Hact2, Hexec2, Hrej2, Hst2.
  exists c, cap. split; [done|].
  rewrite Hcfg2, Hcaps2, Hq2, Hheap2, HcapHeap2, Hact2, Hexec2, Hrej2, Hst2.
  rewrite Hcfg, Hcaps, Hq1, Hheap, HcapHeap, Hact, Hexec, Hrej, Hst, Hexr, Hexc.
  repeat split. by rewrite delete_middle, app_nil_r.
Qed.






(** ** The retry count in every reachable state *)









Lemma monitor_capability_taskHeap env acc c :
  taskHeap (snd (monitor_capability env acc c)) = taskHeap (snd acc).
Proof.
  destruct acc as [k s]. unfold monitor_capability.
  destruct (capHeap s !! c) as [cap|]; [|done].
  destruct (_ && _)%bool; [|done].
  cbn [snd taskHeap with_cooldowns]. by rewrite makeDecision_taskHeap.
Qed.

Lemma monitor_capabilities_taskHeap env caps : forall acc,
  taskHeap (snd (fold_left (monitor_capability env) caps acc)) = taskHeap (snd acc).
Proof.
  induction caps as [|c caps IH]; intros acc; [done|].
  cbn [fold_left]. by rewrite IH, monitor_capability_taskHeap.
Qed.





(** ** The load of a capability *)

(** An attempt that fails leaves the capability one below its load before
    the attempt: charged once by the tick, released by the [finally] block
    of [executeTask] and again by [handleTaskError]. *)
Lemma failing_attempt_load err envs s r task :
  ready s r task ->
  exists c cap,
    (c, cap) ∈ candidates_of task s
    /\ load_of (failing_attempt err s envs) c = Some (currentLoad cap - 1).
Proof.
  intros Hready. destruct envs as [[e1 e2] e3].
  destruct (attempt_until_rejection err e1 e2 s r task Hready)
    as (c & cap & Hin & _ & _ & _ & Hheap & HcapHeap & _ & _ & Hrej & _).
  exists c, cap. split; [done|].
  apply candidates_of_elem in Hin as (_ & Hcap & _).
  destruct Hready as (_ & Ht & _).
  unfold failing_attempt. cbn [fst snd].
  set (s2 := executeTask_resume _ _ _ _) in *.
  unfold executeTask_catch.
  rewrite Hrej, list_lookup_middle by done. cbn [rej_task rej_cap rej_error].
  set (s3 := with_rejected _ s2).
  set (task2 := set_startedAt (now e1)
                  (set_status running (set_assignedTo (cap_id cap) task))).
  assert (Ht3 : taskHeap s3 !! r = Some task2).
  { subst s3. cbn. by rewrite Hheap, !list_lookup_alter_eq, Ht. }
  assert (HcapHeap' :
    capHeap (handleTaskError r c err e3 s3)
    = alter (fun cap => set_successRate (successRate cap * 0.9)%Q cap) c
        (alter (fun cap => set_currentLoad (currentLoad cap - 1) cap) c (capHeap s3))).
  { destruct (decide (retryCount task2 < maxRetries task2)) as [Hretry|Hretry].
    - by destruct (handleTaskError_retry r c err e3 s3 task2 Ht3 Hretry)
        as (_ & _ & _ & _ & H & _).
    - by destruct (handleTaskError_exhausted r c err e3 s3 task2 Ht3 Hretry)
        as (_ & _ & _ & _ & H & _). }
  unfold load_of. rewrite HcapHeap'. subst s3. cbn [capHeap with_rejected].
  rewrite HcapHeap, !list_lookup_alter_eq, Hcap. cbn. f_equal. lia.
Qed.

(** C3, on the code: a voice task on a fresh controller whose executor
    throws. The load of the voice capability reads 0, 1 after the tick, 0
    after the [finally] block and -1 after [handleTaskError], with nothing
    pending and nothing active; when the executor returns it reads 0, 1,
    0. *)
Theorem throw_decrements_currentLoad_twice :
  let c := run (new_controller no_updates)
             [Start; SubmitTask voice [] (with_maxRetries 0) (env_at 1 "a")] in
  let view s := (load_of s 0, length (executing s), size (activeTasks s)) in
  observe view c
    [DispatchTick (env_at 2 "b"); Settle 0 (Throws "boom") (env_at 3 "c");
     Catch 0 (env_at 4 "d")]
  = [(Some 0, 0%nat, 0%nat); (Some 1, 1%nat, 1%nat); (Some 0, 0%nat, 0%nat);
     (Some (-1), 0%nat, 0%nat)]
  /\ observe view c [DispatchTick (env_at 2 "b"); Settle 0 Returns (env_at 3 "c")]
     = [(Some 0, 0%nat, 0%nat); (Some 1, 1%nat, 1%nat); (Some 0, 0%nat, 0%nat)].
Proof. by vm_compute. Qed.

(** ** Cancellation *)

(** C4, on the code: a text task is submitted and cancelled while queued;
    [cancelTask] returns true and the status reads cancelled, yet the next
    tick starts the task and its status reads running, then completed once
    the executor returns. A task cancelled while running reads completed
    after the executor returns. *)
Theorem cancelled_task_is_dispatched :
  let c := run (new_controller no_updates)
             [Start; SubmitTask text [] no_options (env_at 1 "a")] in
  let view s := (status_of s 0, started s) in
  fst (cancelTask "1-a0" c) = true
  /\ observe view c
       [CancelTask "1-a0"; DispatchTick (env_at 2 "b"); Settle 0 Returns (env_at 3 "c")]
     = [(Some queued, []); (Some cancelled, []); (Some running, [0%nat]);
        (Some completed, [0%nat])]
  /\ observe view c
       [DispatchTick (env_at 2 "b"); CancelTask "1-a0"; Settle 0 Returns (env_at 3 "c")]
     = [(Some queued, []); (Some running, [0%nat]); (Some cancelled, [0%nat]);
        (Some completed, [0%nat])].
Proof. by vm_compute. Qed.

(** ** The completion time *)

(** C5, on the code: three tasks that end failed or cancelled with no
    [completedAt]: one failed for lack of a capable agent, one failed by
    the queue timeout, one cancelled by [cancelTask]; and, for contrast,
    one failed by [handleTaskError], whose [completedAt] is set. *)
Theorem terminal_status_without_completedAt :
  (let s := run (new_controller no_updates)
              [Start; RegisterCapability voice_disabled;
               SubmitTask voice [] (with_maxRetries 0) (env_at 1 "a");
               DispatchTick (env_at 2 "b")] in
   reachable s /\ status_of s 0 = Some failed
   /\ error_of s 0 = Some (Some "No capable agent available")
   /\ completedAt_of s 0 = Some None)
  /\ (let s := run (new_controller no_updates)
                 [Start; SubmitTask text [] no_options (env_at 1 "a");
                  HealthTick (env_at 400000 "b")] in
      reachable s /\ status_of s 0 = Some failed
      /\ error_of s 0 = Some (Some "Task timeout in queue")
      /\ completedAt_of s 0 = Some None)
  /\ (let s := run (new_controller no_updates)
                 [Start; SubmitTask text [] no_options (env_at 1 "a");
                  CancelTask "1-a0"] in
      reachable s /\ status_of s 0 = Some cancelled
      /\ completedAt_of s 0 = Some None)
  /\ (let s := run (new_controller no_updates)
                 [Start; SubmitTask voice [] (with_maxRetries 0) (env_at 1 "a");
                  DispatchTick (env_at 2 "b"); Settle 0 (Throws "boom") (env_at 3 "c");
                  Catch 0 (env_at 4 "d")] in
      reachable s /\ status_of s 0 = Some failed
      /\ completedAt_of s 0 = Some (Some 4)).
Proof.
  split; [|split; [|split]];
    (split; [eexists _, _; reflexivity | by vm_compute]).
Qed.

(** ** Re-queueing without a capability *)

(** C7, on the code: a critical voice task, for which no capability is
    enabled, and a low text task. The tick that finds no capability puts
    the critical task behind the low one, which the next tick starts
    first. For contrast, when the critical task is started and its executor
    throws, [handleTaskError] puts it back in front of the low task. *)
Theorem requeue_without_capability_goes_last :
  (let c := run (new_controller no_updates)
              [Start; RegisterCapability voice_disabled;
               SubmitTask voice [] (with_priority critical) (env_at 1 "a");
               SubmitTask text [] (with_priority low) (env_at 2 "b")] in
   priority_at (taskHeap c) <$> taskQueue c = [Some critical; Some low]
   /\ observe (fun s => (taskQueue s, started s, retryCount_of s 0)) c
        [DispatchTick (env_at 3 "c"); DispatchTick (env_at 4 "d")]
      = [([0; 1]%nat, [], Some 0); ([1; 0]%nat, [], Some 1); ([0%nat], [1%nat], Some 1)])
  /\ (let c := run (new_controller no_updates)
                 [Start;
                  SubmitTask voice [] (with_priority critical) (env_at 1 "a");
                  SubmitTask text [] (with_priority low) (env_at 2 "b")] in
      observe (fun s => (taskQueue s, retryCount_of s 0)) c
        [DispatchTick (env_at 3 "c"); Settle 0 (Throws "boom") (env_at 4 "d");
         Catch 0 (env_at 5 "e")]
      = [([0; 1]%nat, Some 0); ([1%nat], Some 0); ([1%nat], Some 0);
         ([0; 1]%nat, Some 1)]).
Proof. by vm_compute. Qed.

(** ** Failure as seen through [getTask] *)

Lemma getTask_None taskId s :
  activeTasks s !! taskId = None ->
  (forall r, r ∈ taskQueue s -> id_at (taskHeap s) r <> Some taskId) ->
  getTask taskId s = None.
Proof.
  intros Hact Hq. unfold getTask. rewrite Hact.
  destruct (List.find _ (taskQueue s)) as [r|] eqn:E; [|done].
  apply find_some in E as [Hin Hid]. apply list_elem_of_In in Hin.
  specialize (Hq r Hin). unfold id_at in Hq.
  destruct (taskHeap s !! r) as [t|]; [|done].
  apply bool_decide_eq_true in Hid. cbn in Hq. congruence.
Qed.

Lemma handleTaskError_exhausted_event r c err env s task :
  taskHeap s !! r = Some task ->
  ~ retryCount task < maxRetries task ->
  task_failed r ∈ events (handleTaskError r c err env s).
Proof.
  intros Ht Hretry. unfold handleTaskError.
  cbn [taskHeap update_cap with_capHeap]. rewrite Ht.
  rewrite bool_decide_eq_false_2 by done. cbn [events log emit].
  rewrite !elem_of_app, !list_elem_of_singleton. by left; right.
Qed.

(** C6, against the claim: after a task has failed for good, by an
    executor error or for lack of a capable agent, its status is failed
    and [getTask] finds no task under its id. *)
Lemma getTask_after_failure_counterexample :
  (let s := run (new_controller no_updates)
              [Start; SubmitTask voice [] (with_maxRetries 0) (env_at 1 "a");
               DispatchTick (env_at 2 "b"); Settle 0 (Throws "boom") (env_at 3 "c");
               Catch 0 (env_at 4 "d")] in
   id_at (taskHeap s) 0 = Some "1-a0" /\ status_of s 0 = Some failed
   /\ ~ exists r, getTask "1-a0" s = Some r)
  /\ (let s := run (new_controller no_updates)
                 [Start; RegisterCapability voice_disabled;
                  SubmitTask voice [] (with_maxRetries 0) (env_at 1 "a");
                  DispatchTick (env_at 2 "b")] in
      id_at (taskHeap s) 0 = Some "1-a0" /\ status_of s 0 = Some failed
      /\ ~ exists r, getTask "1-a0" s = Some r).
Proof.
  split; (split; [by vm_compute|split; [by vm_compute|]]); intros [r Hr];
    vm_compute in Hr; discriminate Hr.
Qed.

(** C6, as amended. A task with no retry left whose id no other queued
    task carries. When a tick takes it from the head of the queue and finds
    no capability, or when [handleTaskError] runs for it after its executor
    threw: the task object has status failed and an error, ["No capable
    agent available"] or the text of the thrown error, and [task_failed]
    has been emitted for it; [getTask] on its id returns nothing, the task
    being neither queued nor active any more. *)
Theorem terminal_failure_on_task_not_in_getTask (s : Controller) (r : nat) (task : Task) :
  taskHeap s !! r = Some task ->
  ~ retryCount task < maxRetries task ->
  (forall r', r' ∈ taskQueue s -> r' <> r ->
     id_at (taskHeap s) r' <> Some (task_id task)) ->
  (forall env q,
     Z.of_nat (size (activeTasks s)) < maxConcurrentTasks (config s) ->
     taskQueue s = r :: q -> r ∉ q ->
     candidates_of task s = [] ->
     activeTasks s !! task_id task = None ->
     let s' := processTaskQueue env s in
     status_of s' r = Some failed
     /\ error_of s' r = Some (Some "No capable agent available")
     /\ task_failed r ∈ events s'
     /\ getTask (task_id task) s' = None)
  /\ (forall c err env,
        r ∉ taskQueue s ->
        let s' := handleTaskError r c err env s in
        status_of s' r = Some failed
        /\ error_of s' r = Some (Some err)
        /\ task_failed r ∈ events s'
        /\ getTask (task_id task) s' = None).
Proof.
  intros Ht Hretry Hids. split.
  - intros env q Hsize Hq Hnotin Hcand Hact s'. subst s'. unfold processTaskQueue.
    rewrite (processTaskQueue_exhausted env s r q task) by done.
    cbn [snd]. unfold status_of, error_of.
    cbn [taskHeap events emit update_task with_taskHeap with_taskQueue].
    rewrite !list_lookup_alter_eq, Ht. repeat split.
    + rewrite elem_of_app, list_elem_of_singleton. by right.
    + apply getTask_None; [done|].
      cbn [taskQueue taskHeap emit update_task with_taskHeap with_taskQueue].
      intros r' Hin. assert (r' <> r) as Hne by (by intros ->).
      unfold id_at. rewrite !list_lookup_alter_ne by done.
      apply Hids; [|done]. rewrite Hq. by right.
  - intros c err env Hnotin s'.
    destruct (handleTaskError_exhausted r c err env s task Ht Hretry)
      as (_ & _ & Hheap & Hq & _ & Hact & _).
    fold s' in Hheap, Hq, Hact. unfold status_of, error_of.
    rewrite Hheap, !list_lookup_alter_eq, Ht. repeat split.
    + by apply (handleTaskError_exhausted_event r c err env s task).
    + apply getTask_None; [rewrite Hact; apply lookup_delete_eq|].
      rewrite Hq, Hheap. intros r' Hin. assert (r' <> r) as Hne by (by intros ->).
      unfold id_at. rewrite !list_lookup_alter_ne by done. by apply Hids.
Qed.

(** At a voice task with no retry on a controller whose voice capability
    is disabled, and at the same task once its executor has thrown. *)
Lemma terminal_failure_on_task_not_in_getTask_witness :
  (let s := run (new_controller no_updates)
              [Start; RegisterCapability voice_disabled;
               SubmitTask voice [] (with_maxRetries 0) (env_at 1 "a")] in
   let s' := processTaskQueue (env_at 2 "b") s in
   status_of s' 0 = Some failed /\ getTask "1-a0" s' = None)
  /\ (let s := with_rejected (delete 0%nat)
                 (run (new_controller no_updates)
                    [Start; SubmitTask voice [] (with_maxRetries 0) (env_at 1 "a");
                     DispatchTick (env_at 2 "b");
                     Settle 0 (Throws "boom") (env_at 3 "c")]) in
      let s' := handleTaskError 0 0 "boom" (env_at 4 "d") s in
      status_of s' 0 = Some failed /\ error_of s' 0 = Some (Some "boom")
      /\ getTask "1-a0" s' = None).
Proof.
  split.
  - intros s s'.
    assert (Ht : taskHeap s !! 0%nat
                 = Some {| task_id := "1-a0"; task_type := voice; task_input := [];
                           task_priority := normal; status := queued;
                           assignedTo := None; createdAt := 1; startedAt := None;
                           completedAt := None; result := None; error := None;
                           retryCount := 0; maxRetries := 0 |}) by reflexivity.
    destruct (terminal_failure_on_task_not_in_getTask s 0 _ Ht) as [HA _].
    + cbn. lia.
    + intros r' Hin Hne. vm_compute in Hin.
      apply list_elem_of_singleton in Hin. contradiction.
    + destruct (HA (env_at 2 "b") []) as (H1 & _ & _ & H4);
        [by vm_compute|reflexivity|apply not_elem_of_nil|by vm_compute|by vm_compute|].
      split; assumption.
  - intros s s'.
    assert (Ht : taskHeap s !! 0%nat
                 = Some {| task_id := "1-a0"; task_type := voice; task_input := [];
                           task_priority := normal; status := running;
                           assignedTo := Some "personaplex-voice"; createdAt := 1;
                           startedAt := Some 2; completedAt := None; result := None;
                           error := None; retryCount := 0; maxRetries := 0 |})
      by reflexivity.
    destruct (terminal_failure_on_task_not_in_getTask s 0 _ Ht) as [_ HB].
    + cbn. lia.
    + intros r' Hin Hne. vm_compute in Hin. by apply elem_of_nil in Hin.
    + destruct (HB 0%nat "boom" (env_at 4 "d")) as (H1 & H2 & _ & H4);
        [vm_compute; apply not_elem_of_nil|].
      repeat split; assumption.
Defined.

(** * Further properties of the controller *)

(** ** The concurrency cap *)

(** X1. A tick of the dispatch loop never takes the active map above
    [maxConcurrentTasks]: at the cap it changes nothing at all, below it
    it adds at most one task. *)
Theorem processTaskQueue_respects_cap (env : Env) (s : Controller) :
  Z.of_nat (size (activeTasks s)) <= maxConcurrentTasks (config s) ->
  Z.of_nat (size (activeTasks (processTaskQueue env s))) <= maxConcurrentTasks (config s)
  /\ (size (activeTasks (processTaskQueue env s)) <= S (size (activeTasks s)))%nat
  /\ (Z.of_nat (size (activeTasks s)) = maxConcurrentTasks (config s) ->
      processTaskQueue env s = s).
Proof.
  intros Hcap.
  assert (Hidle : maxConcurrentTasks (config s) <= Z.of_nat (size (activeTasks s))
                  \/ taskQueue s = [] -> processTaskQueue env s = s).
  { intros H. unfold processTaskQueue. by rewrite processTaskQueue_pop_idle. }
  split; [|split]; [| |intros Heq; apply Hidle; left; lia].
  all: destruct (decide (maxConcurrentTasks (config s) <= Z.of_nat (size (activeTasks s))))
         as [Hfull|Hroom]; [rewrite Hidle by (by left); lia|].
  all: destruct (taskQueue s) as [|r q] eqn:Hq; [rewrite Hidle by (by right); lia|].
  all: destruct (taskHeap s !! r) as [task|] eqn:Ht;
         [|unfold processTaskQueue, processTaskQueue_pop;
           rewrite bool_decide_eq_false_2, Hq by lia; cbn; rewrite Ht; cbn; lia].
  all: destruct (decide (candidates_of task s = [])) as [Hc|Hc];
         [unfold processTaskQueue;
          destruct (decide (retryCount task < maxRetries task));
            [rewrite (processTaskQueue_requeue env s r q task) by (done || lia)
            |rewrite (processTaskQueue_exhausted env s r q task) by (done || lia)];
          cbn; lia|].
  all: destruct (processTaskQueue_dispatch env s r q task)
         as (c & cap & ex & _ & _ & H); [lia|done..|];
       cbn zeta in H; destruct H as (_ & _ & _ & _ & _ & -> & _);
       rewrite map_size_insert; destruct (activeTasks s !! task_id task); cbn; lia.
Qed.

(** With two tasks active under a cap of two, a tick leaves the queued
    task where it is. *)
Lemma processTaskQueue_respects_cap_witness :
  let s := run (new_controller no_updates)
             [Start;
              UpdateConfig {| upd_mode := None; upd_selfHealing := None;
                              upd_autoScaling := None; upd_intelligentRouting := None;
                              upd_maxConcurrentTasks := Some 2; upd_taskTimeoutMs := None;
                              upd_maxRetries := None; upd_decisionThreshold := None;
                              upd_contentFiltering := None; upd_safetyGuardrails := None;
                              upd_verboseLogging := None |};
              SubmitTask text [] no_options (env_at 1 "a");
              SubmitTask text [] no_options (env_at 2 "b");
              SubmitTask text [] no_options (env_at 3 "c");
              DispatchTick (env_at 4 "d"); DispatchTick (env_at 5 "e")] in
  size (activeTasks s) = 2%nat
  /\ Z.of_nat (size (activeTasks (processTaskQueue (env_at 6 "f") s))) <= 2.
Proof.
  intros s. split; [by vm_compute|].
  apply (processTaskQueue_respects_cap (env_at 6 "f") s). by vm_compute.
Defined.

(** ** Submission *)

Lemma insert_before_perm {A} (p : A -> bool) (x : A) (q : list A) :
  insert_before p x q ≡ₚ x :: q.
Proof.
  unfold insert_before. destruct (findIndex p q) as [i|].
  - unfold splice_in. rewrite <- (take_drop i q) at 3.
    by rewrite Permutation_middle.
  - by rewrite Permutation_app_comm.
Qed.

(** The state after [submitTask], whatever the mode and the flags. *)
Lemma submitTask_unfold type input options env s :
  let task := {|
    task_id := generateId env 0; task_type := type; task_input := input;
    task_priority := default normal (opt_priority options); status := queued;
    assignedTo := None; createdAt := now env; startedAt := None;
    completedAt := None; result := None; error := None; retryCount := 0;
    maxRetries := default (cfg_maxRetries (config s)) (opt_maxRetries options) |} in
  let r := length (taskHeap s) in
  let s1 := with_taskHeap (fun h => h ++ [task]) s in
  submitTask type input options env s
  = (r, emit (task_queued r)
          (insertTaskByPriority r
             (if (negb (contentFiltering (config s))
                  || bool_decide (mode (config s) = unrestricted))%bool
              then log ("Task accepted (unfiltered): " +:+ task_id task) s1
              else s1))).
Proof.
  intros task r s1. unfold submitTask. fold task r s1.
  change (config s1) with (config s).
  destruct (_ || _)%bool; [done|]. by rewrite shouldFilterContent_false.
Qed.

Lemma submitTask_activeTasks type input options env s :
  activeTasks (snd (submitTask type input options env s)) = activeTasks s.
Proof.
  rewrite submitTask_unfold. cbn [snd activeTasks emit].
  rewrite insertTaskByPriority_activeTasks. by destruct (_ || _)%bool.
Qed.

(** On an input that [JSON.stringify] serialises, [submitTask] queues the
    task. *)
Lemma submitTask_queues
    (type : TaskType) (input : Payload) (options : SubmitOptions) (env : Env)
    (s : Controller) :
  let r := fst (submitTask type input options env s) in
  let s' := snd (submitTask type input options env s) in
  r = length (taskHeap s)
  /\ status_of s' r = Some queued
  /\ error_of s' r = Some None
  /\ retryCount_of s' r = Some 0
  /\ taskQueue s' ≡ₚ r :: taskQueue s
  /\ (exists logged, events s' = events s ++ logged ++ [task_queued r]
                     /\ Forall (fun e => exists m, e = log_ev m) logged)
  /\ activeTasks s' = activeTasks s
  /\ (forall r', (r' < length (taskHeap s))%nat -> taskHeap s' !! r' = taskHeap s !! r').
Proof.
  intros r s'. subst r s'.
  destruct (submitTask_spec type input options env s) as (Hr & Hheap & Hq).
  cbn zeta in *. rewrite Hr. unfold status_of, error_of, retryCount_of.
  rewrite Hheap, Hq. rewrite lookup_app_r, Nat.sub_diag by lia. cbn.
  split; [done|]. split; [done|]. split; [done|]. split; [done|].
  split; [apply insert_before_perm|].
  rewrite submitTask_unfold. cbn [snd events activeTasks emit].
  split; [|split].
  - destruct (_ || _)%bool.
    + eexists [_]. split.
      * unfold insertTaskByPriority. cbn [taskHeap log emit with_taskHeap].
        rewrite lookup_app_r, Nat.sub_diag by lia. cbn [lookup].
        cbn. destruct (findIndex _ _); cbn; by rewrite <- app_assoc.
      * repeat constructor. by eexists.
    + exists []. split; [|constructor].
      unfold insertTaskByPriority. cbn [taskHeap with_taskHeap].
      rewrite lookup_app_r, Nat.sub_diag by lia. cbn.
      destruct (findIndex _ _); by cbn.
  - rewrite insertTaskByPriority_activeTasks. by destruct (_ || _)%bool.
  - intros r' Hlt. by rewrite lookup_app_l.
Qed.

(** [submitTask] on any input: the call is rejected exactly when the filter
    is consulted and [JSON.stringify] throws; otherwise it does what it
    does on the fields of the input. *)
Lemma submitTask_any_input type input options env s :
  AnyInput.submitTask type input options env s
  = if (contentFiltering (config s)
        && negb (bool_decide (mode (config s) = unrestricted))
        && negb (AnyInput.serializable input))%bool
    then None
    else Some (submitTask type (AnyInput.fields input) options env s).
Proof.
  unfold AnyInput.submitTask, submitTask, AnyInput.shouldFilterContent,
    shouldFilterContent, AnyInput.JSON_stringify.
  cbn [config with_taskHeap].
  destruct (contentFiltering (config s)),
    (bool_decide (mode (config s) = unrestricted)); cbn; try reflexivity.
  destruct (AnyInput.serializable input); cbn; reflexivity.
Qed.

(** X2. The content filter never filters anything: in every mode and with
    every setting of the flags [submitTask] either rejects the call or
    queues the task. The call is rejected, with nothing written to the
    controller, exactly when content filtering is on, the mode is not
    unrestricted and [JSON.stringify] throws on the input. In every other
    case the task is created with status queued and no error and put in
    the queue, which keeps all its other entries; [task_queued] is emitted
    for it and never [task_filtered], and neither the active map nor any
    other task is touched. *)
Theorem submitTask_always_queues
    (type : TaskType) (input : AnyInput.Input) (options : SubmitOptions) (env : Env)
    (s : Controller) :
  match AnyInput.submitTask type input options env s with
  | None =>
      contentFiltering (config s) = true
      /\ mode (config s) <> unrestricted
      /\ AnyInput.serializable input = false
  | Some (r, s') =>
      (contentFiltering (config s) = false \/ mode (config s) = unrestricted
       \/ AnyInput.serializable input = true)
      /\ r = length (taskHeap s)
      /\ status_of s' r = Some queued
      /\ error_of s' r = Some None
      /\ retryCount_of s' r = Some 0
      /\ taskQueue s' ≡ₚ r :: taskQueue s
      /\ (exists logged, events s' = events s ++ logged ++ [task_queued r]
                         /\ Forall (fun e => exists m, e = log_ev m) logged)
      /\ activeTasks s' = activeTasks s
      /\ (forall r', (r' < length (taskHeap s))%nat ->
            taskHeap s' !! r' = taskHeap s !! r')
  end.
Proof.
  rewrite submitTask_any_input.
  destruct (contentFiltering (config s)) eqn:Hf;
    [destruct (bool_decide (mode (config s) = unrestricted)) eqn:Hm;
       [|destruct (AnyInput.serializable input) eqn:Hs]|]; cbn [andb negb].
  3: { apply bool_decide_eq_false in Hm. done. }
  all: pose proof (submitTask_queues type (AnyInput.fields input) options env s) as H;
    cbn zeta in H;
    destruct (submitTask type (AnyInput.fields input) options env s) as [r s'];
    cbn [fst snd] in H; split; [|exact H].
  - right. left. by apply bool_decide_eq_true in Hm.
  - right. by right.
  - by left.
Qed.

Lemma find_unique {A} (p : A -> bool) (l : list A) (x : A) :
  x ∈ l -> p x = true -> (forall y, y ∈ l -> p y = true -> y = x) ->
  List.find p l = Some x.
Proof.
  intros Hin Hp Huniq. destruct (List.find p l) as [y|] eqn:E.
  - apply find_some in E as [Hy Hpy]. f_equal. apply Huniq; [|done].
    by apply list_elem_of_In.
  - apply list_elem_of_In in Hin. pose proof (find_none _ _ E x Hin). congruence.
Qed.


(** X3. A task just submitted is found by [getTask] under its id, and can
    be cancelled, as long as the id is not already that of an active or
    queued task. *)
Theorem getTask_finds_submitted
    (type : TaskType) (input : Payload) (options : SubmitOptions) (env : Env)
    (s : Controller) :
  activeTasks s !! generateId env 0 = None ->
  (forall r', r' ∈ taskQueue s -> id_at (taskHeap s) r' <> Some (generateId env 0)) ->
  let r := fst (submitTask type input options env s) in
  let s' := snd (submitTask type input options env s) in
  id_at (taskHeap s') r = Some (generateId env 0)
  /\ getTask (generateId env 0) s' = Some r
  /\ fst (cancelTask (generateId env 0) s') = true.
Proof.
  intros Hact Hids r s'.
  destruct (submitTask_spec type input options env s) as (Hr & Hheap & Hq).
  fold r s' in Hr, Hheap, Hq.
  assert (Hact' : activeTasks s' = activeTasks s)
    by apply submitTask_activeTasks.
  assert (Hold : forall r', (r' < length (taskHeap s))%nat ->
                   taskHeap s' !! r' = taskHeap s !! r').
  { intros r' Hlt. by rewrite Hheap, lookup_app_l. }
  assert (Hst : status_of s' r = Some queued).
  { unfold status_of. by rewrite Hheap, Hr, lookup_app_r, Nat.sub_diag by lia. }
  assert (Hq' : taskQueue s' ≡ₚ r :: taskQueue s).
  { rewrite Hq, Hr. apply insert_before_perm. }
  clear Hq. rename Hq' into Hq.
  assert (Hid : id_at (taskHeap s') r = Some (generateId env 0)).
  { unfold id_at. rewrite Hheap, Hr, lookup_app_r, Nat.sub_diag by lia. done. }
  assert (Hget : getTask (generateId env 0) s' = Some r).
  { unfold getTask. rewrite Hact', Hact. apply find_unique.
    - rewrite Hq. left.
    - unfold id_at in Hid. destruct (taskHeap s' !! r); [|done].
      apply bool_decide_eq_true. by injection Hid.
    - intros y Hy Hpy. rewrite Hq in Hy. apply elem_of_cons in Hy as [->|Hy]; [done|].
      destruct (decide (y < length (taskHeap s))%nat) as [Hlt|Hge].
      + exfalso. apply (Hids y Hy). unfold id_at. rewrite <- (Hold y Hlt).
        destruct (taskHeap s' !! y); [|done].
        apply bool_decide_eq_true in Hpy. cbn. by f_equal.
      + destruct (decide (y = r)) as [->|Hne]; [done|].
        rewrite Hheap, lookup_ge_None_2 in Hpy; [done|].
        rewrite length_app. cbn. lia. }
  split; [done|]. split; [done|].
  unfold cancelTask. rewrite Hget. unfold status_of in Hst.
  destruct (taskHeap s' !! r) as [t|]; [|done]. cbn in Hst. injection Hst as ->.
  done.
Qed.

(** At a first submission to a fresh controller. *)
Lemma getTask_finds_submitted_witness :
  let s := new_controller no_updates in
  getTask "1-a0" (snd (submitTask text [] no_options (env_at 1 "a") s)) = Some 0%nat.
Proof.
  intros s.
  destruct (getTask_finds_submitted text [] no_options (env_at 1 "a") s)
    as (_ & H & _); [reflexivity| |exact H].
  intros r' Hr'. vm_compute in Hr'. by apply elem_of_nil in Hr'.
Defined.

(** ** Cancellation, in general *)

Lemma cancelTask_frame taskId s :
  let s' := snd (cancelTask taskId s) in
  taskQueue s' = taskQueue s /\ activeTasks s' = activeTasks s
  /\ capHeap s' = capHeap s /\ capabilities s' = capabilities s
  /\ decisions s' = decisions s /\ config s' = config s
  /\ executing s' = executing s /\ rejected s' = rejected s.
Proof.
  unfold cancelTask.
  destruct (getTask taskId s) as [r|]; [|by repeat split].
  destruct (taskHeap s !! r) as [task|]; [|by repeat split].
  destruct (_ && _)%bool; by repeat split.
Qed.



(** ** Insertion into a queue in class order *)

Lemma ranks_after_rank heap task t :
  ranks_after heap task t
  = bool_decide (rank_of heap t > priorityOrder (task_priority task)).
Proof.
  unfold ranks_after, rank_of, priority_at.
  destruct (heap !! t) as [t'|]; [done|]. cbn.
  by destruct (task_priority task).
Qed.

Lemma sorted_split_at (rank : nat -> Z) (k : Z) (q : list nat) :
  StronglySorted (fun a b => rank a <= rank b) q ->
  exists l1 l2, q = l1 ++ l2
                /\ Forall (fun t => rank t <= k) l1
                /\ Forall (fun t => k < rank t) l2.
Proof.
  induction 1 as [|y q Hsorted IH Hy].
  - exists [], []. by repeat split.
  - destruct (decide (k < rank y)) as [Hgt|Hle].
    + exists [], (y :: q). repeat split; [done|].
      constructor; [done|]. eapply Forall_impl; [exact Hy|]. cbn. intros; lia.
    + destruct IH as (l1 & l2 & -> & H1 & H2).
      exists (y :: l1), l2. repeat split; [|done]. constructor; [lia|done].
Qed.

(** X5. Into a queue in class order, [insertTaskByPriority] puts the task
    behind every entry of its own class or of a more urgent one and in
    front of every entry of a less urgent class; the other entries keep
    their places and the queue stays in class order. *)
Theorem insertTaskByPriority_keeps_class_order (r : nat) (s : Controller) (task : Task) :
  taskHeap s !! r = Some task ->
  class_sorted (taskHeap s) (taskQueue s) ->
  let s' := insertTaskByPriority r s in
  exists l1 l2,
    taskQueue s = l1 ++ l2
    /\ taskQueue s' = l1 ++ r :: l2
    /\ Forall (fun t => rank_of (taskHeap s) t <= rank_of (taskHeap s) r) l1
    /\ Forall (fun t => rank_of (taskHeap s) r < rank_of (taskHeap s) t) l2
    /\ class_sorted (taskHeap s') (taskQueue s').
Proof.
  intros Ht Hsorted s'. subst s'.
  rewrite insertTaskByPriority_taskHeap, (insertTaskByPriority_queue r s task Ht).
  assert (Hrank : rank_of (taskHeap s) r = priorityOrder (task_priority task)).
  { unfold rank_of, priority_at. by rewrite Ht. }
  destruct (sorted_split_at (rank_of (taskHeap s)) (rank_of (taskHeap s) r)
              (taskQueue s) Hsorted) as (l1 & l2 & Hq & H1 & H2).
  exists l1, l2. rewrite Hq in *.
  assert (Hins : insert_before (ranks_after (taskHeap s) task) r (l1 ++ l2)
                 = l1 ++ r :: l2).
  { apply insert_before_split.
    - eapply Forall_impl; [exact H1|]. cbn. intros t Hle.
      rewrite ranks_after_rank, <- Hrank. apply bool_decide_eq_false_2. lia.
    - eapply Forall_impl; [exact H2|]. cbn. intros t Hlt.
      rewrite ranks_after_rank, <- Hrank. apply bool_decide_eq_true_2. lia. }
  rewrite Hins. repeat split; try done.
  unfold class_sorted in *.
  apply StronglySorted_app in Hsorted as (Hcross & Hs1 & Hs2).
  apply StronglySorted_app_2; [|done|].
  - intros x1 x2 Hx1 [->|Hx2]%elem_of_cons.
    + by apply (proj1 (Forall_forall _ _) H1).
    + by apply Hcross.
  - apply StronglySorted_cons. split; [|done].
    eapply Forall_impl; [exact H2|]. cbn. intros; lia.
Qed.

(** At a high task inserted between a critical and a low one. *)
Lemma insertTaskByPriority_keeps_class_order_witness :
  let s := run (new_controller no_updates)
             [SubmitTask text [] (with_priority low) (env_at 1 "a");
              SubmitTask text [] (with_priority critical) (env_at 2 "b")] in
  let s1 := with_taskHeap
              (fun h => h ++ [ {| task_id := "3-c0"; task_type := text; task_input := [];
                                  task_priority := high; status := queued;
                                  assignedTo := None; createdAt := 3; startedAt := None;
                                  completedAt := None; result := None; error := None;
                                  retryCount := 0; maxRetries := 3 |} ]) s in
  taskQueue s1 = [1; 0]%nat
  /\ taskQueue (insertTaskByPriority 2 s1) = [1; 2; 0]%nat
  /\ class_sorted (taskHeap (insertTaskByPriority 2 s1))
       (taskQueue (insertTaskByPriority 2 s1)).
Proof.
  intros s s1.
  destruct (insertTaskByPriority_keeps_class_order 2 s1 _ eq_refl)
    as (l1 & l2 & _ & _ & _ & _ & Hsorted).
  - unfold class_sorted. change (taskQueue s1) with [1; 0]%nat.
    repeat constructor. by vm_compute.
  - split; [done|]. split; [by vm_compute|exact Hsorted].
Defined.

(** ** Routing *)

(** X6. [selectCapability] answers nothing exactly when no registered
    capability is enabled, below its [maxConcurrent] and of a type allowed
    for the task, and then changes nothing; otherwise it answers one of
    the capabilities that are: a registered one that is enabled, below its
    [maxConcurrent] and of an allowed type, and the only such capability
    when there is just one. Which of several candidates is answered is
    decided by the comparison of their scores in floating point and is
    not stated here. *)
Theorem selectCapability_picks_candidate (task : Task) (env : Env) (s : Controller) :
  match fst (selectCapability task env s) with
  | None => candidates_of task s = [] /\ snd (selectCapability task env s) = s
  | Some c =>
      exists k cap,
        (k, c) ∈ capabilities s
        /\ capHeap s !! c = Some cap
        /\ (c, cap) ∈ candidates_of task s
        /\ enabled cap = true
        /\ currentLoad cap < maxConcurrent cap
        /\ matchesTaskType cap task = true
        /\ (forall only, candidates_of task s = [only] -> only = (c, cap))
  end.
Proof.
  rewrite selectCapability_fst.
  pose proof (sort_by_score_perm (candidates_of task s)) as Hperm.
  destruct (sort_by_score (candidates_of task s)) as [|[c cap] rest] eqn:E.
  - cbn. symmetry in Hperm. apply Permutation_nil_r in Hperm.
    split; [done|]. by rewrite selectCapability_None.
  - cbn.
    assert (Hin : (c, cap) ∈ candidates_of task s).
    { rewrite <- Hperm. left. }
    pose proof (proj1 (candidates_of_elem task s c cap) Hin)
      as ([k Hk] & Hcap & Hen & Hload & Hm).
    exists k, cap. do 6 (split; [done|]).
    intros only Honly. rewrite Honly in Hin.
    by apply list_elem_of_singleton in Hin.
Qed.

(** X7. Routing is audited only when there is a choice: a route decision
    naming the selected capability is logged exactly when intelligent
    routing is on and at least two capabilities are candidates; nothing
    else of the controller changes. *)
Theorem selectCapability_logs_choice (task : Task) (env : Env) (s : Controller) :
  let s' := snd (selectCapability task env s) in
  (taskHeap s' = taskHeap s /\ taskQueue s' = taskQueue s
   /\ activeTasks s' = activeTasks s /\ capHeap s' = capHeap s
   /\ capabilities s' = capabilities s /\ config s' = config s)
  /\ (if (intelligentRouting (config s)
          && bool_decide (2 <= length (candidates_of task s))%nat)%bool
      then exists d, decisions s' = decisions s ++ [d]
                     /\ dec_type d = route
                     /\ (exists c cap, fst (selectCapability task env s) = Some c
                           /\ capHeap s !! c = Some cap
                           /\ dec_output d = [("selected", cap_id cap)])
      else decisions s' = decisions s).
Proof.
  intros s'. subst s'.
  rewrite selectCapability_taskHeap, selectCapability_taskQueue,
    selectCapability_activeTasks, selectCapability_capHeap,
    selectCapability_capabilities, selectCapability_config.
  split; [done|].
  pose proof (sort_by_score_perm (candidates_of task s)) as Hperm.
  assert (Hlen : length (sort_by_score (candidates_of task s))
                 = length (candidates_of task s)) by by rewrite Hperm.
  unfold selectCapability.
  destruct (sort_by_score (candidates_of task s)) as [|[c cap] rest] eqn:E.
  - cbn in Hlen. rewrite <- Hlen. cbn. by rewrite andb_false_r.
  - rewrite <- Hlen.
    assert (bool_decide (1 < length ((c, cap) :: rest))%nat
            = bool_decide (2 <= length ((c, cap) :: rest))%nat) as ->.
    { apply bool_decide_ext. lia. }
    destruct (_ && _)%bool; [|done]. cbn [fst snd].
    rewrite makeDecision_decisions. eexists. split; [done|]. split; [done|].
    exists c, cap. split; [done|]. split; [|done].
    assert (Hin : (c, cap) ∈ candidates_of task s) by (rewrite <- Hperm; left).
    by apply candidates_of_elem in Hin as (_ & ? & _).
Qed.

(** ** The decision log *)

Lemma log_grows_refl s s' : decisions s' = decisions s -> log_grows s s'.
Proof. intros H. exists []. by rewrite H, app_nil_r. Qed.

Lemma log_grows_trans s1 s2 s3 : log_grows s1 s2 -> log_grows s2 s3 -> log_grows s1 s3.
Proof.
  intros (a1 & H1 & Hok1) (a2 & H2 & Hok2). exists (a1 ++ a2).
  split; [by rewrite H2, H1, app_assoc|]. by apply Forall_app.
Qed.

Lemma makeDecision_grows type why input output env i s :
  type = route \/ type = heal ->
  log_grows s (snd (makeDecision type why input output env i s)).
Proof.
  intros Htype. eexists [_]. split; [apply makeDecision_decisions|].
  apply Forall_singleton. unfold decision_ok. cbn. split; [|by split].
  by destruct (mode (config s)).
Qed.

Lemma setMode_grows m env s : log_grows s (setMode m env s).
Proof.
  unfold setMode. eapply log_grows_trans;
    [|apply log_grows_refl; cbn [decisions emit]; reflexivity].
  eapply log_grows_trans; [|apply makeDecision_grows; by left].
  apply log_grows_refl. by destruct m.
Qed.

Lemma selectCapability_grows task env s : log_grows s (snd (selectCapability task env s)).
Proof.
  unfold selectCapability. destruct (sort_by_score _); [by apply log_grows_refl|].
  destruct (_ && _)%bool; [|by apply log_grows_refl].
  apply makeDecision_grows. by left.
Qed.

Lemma executeTask_begin_grows r c env s : log_grows s (executeTask_begin r c env s).
Proof.
  unfold executeTask_begin.
  destruct (taskHeap s !! r) as [task|]; [|by apply log_grows_refl].
  destruct (capHeap s !! c) as [cap|]; [|by apply log_grows_refl].
  destruct (cap_type cap); try (by apply log_grows_refl).
  unfold executeAutonomousTask. cbn [fst snd].
  eapply log_grows_trans; [apply makeDecision_grows; by left|].
  by apply log_grows_refl.
Qed.

Lemma processTaskQueue_grows env s : log_grows s (processTaskQueue env s).
Proof.
  unfold processTaskQueue, processTaskQueue_pop.
  case_bool_decide; [by apply log_grows_refl|].
  destruct (shift (taskQueue s)) as [[r rest]|]; [|by apply log_grows_refl].
  cbn [taskHeap with_taskQueue].
  destruct (taskHeap s !! r) as [task|]; [|by apply log_grows_refl].
  cbn zeta.
  pose proof (selectCapability_grows task env (with_taskQueue (fun _ => rest) s)) as Hsel.
  destruct (fst (selectCapability task env _)) as [c|].
  - cbn [snd]. eapply log_grows_trans; [|apply executeTask_begin_grows].
    eapply log_grows_trans; [|apply log_grows_refl; reflexivity]. exact Hsel.
  - case_bool_decide; cbn [snd];
      (eapply log_grows_trans; [|apply log_grows_refl; reflexivity]); exact Hsel.
Qed.

Lemma insertTaskByPriority_decisions r s :
  decisions (insertTaskByPriority r s) = decisions s.
Proof. insert_frame. Qed.

Lemma handleTaskError_grows r c err env s : log_grows s (handleTaskError r c err env s).
Proof.
  unfold handleTaskError. cbn [taskHeap update_cap with_capHeap].
  destruct (taskHeap s !! r) as [task|]; [|by apply log_grows_refl].
  case_bool_decide; [|by apply log_grows_refl].
  match goal with |- context [selfHealing ?c] => destruct (selfHealing c) end.
  - eapply log_grows_trans; [|apply makeDecision_grows; by right].
    apply log_grows_refl. cbn [decisions log emit].
    by rewrite insertTaskByPriority_decisions.
  - apply log_grows_refl. cbn [decisions log emit].
    by rewrite insertTaskByPriority_decisions.
Qed.

Lemma monitor_capability_grows env acc c :
  log_grows (snd acc) (snd (monitor_capability env acc c)).
Proof.
  destruct acc as [k s]. unfold monitor_capability. cbn [snd].
  destruct (capHeap s !! c) as [cap|]; [|by apply log_grows_refl].
  destruct (_ && _)%bool; [|by apply log_grows_refl]. cbn [snd].
  eapply log_grows_trans; [|apply log_grows_refl; reflexivity].
  eapply log_grows_trans; [|apply makeDecision_grows; by right].
  by apply log_grows_refl.
Qed.

Lemma monitor_capabilities_grows env caps : forall acc,
  log_grows (snd acc) (snd (fold_left (monitor_capability env) caps acc)).
Proof.
  induction caps as [|c caps IH]; intros acc; [by apply log_grows_refl|].
  cbn [fold_left]. eapply log_grows_trans; [apply monitor_capability_grows|apply IH].
Qed.

Lemma timeout_tasks_decisions stale : forall s,
  decisions (fold_left timeout_task stale s) = decisions s.
Proof.
  induction stale as [|r stale IH]; intros s; [done|].
  cbn [fold_left]. by rewrite IH.
Qed.

Lemma monitorHealth_grows env s : log_grows s (monitorHealth env s).
Proof.
  unfold monitorHealth. cbn zeta.
  eapply log_grows_trans;
    [apply (monitor_capabilities_grows env (map snd (capabilities s)) (O, s))|].
  apply log_grows_refl. cbn [decisions emit with_taskQueue].
  by rewrite timeout_tasks_decisions.
Qed.

Lemma step_grows s a : log_grows s (step s a).
Proof.
  destruct a; cbn [step].
  - unfold start. destruct (isRunning s); by apply log_grows_refl.
  - by apply log_grows_refl.
  - apply setMode_grows.
  - apply setMode_grows.
  - by apply log_grows_refl.
  - rewrite submitTask_unfold. cbn [snd]. apply log_grows_refl.
    cbn [decisions emit]. rewrite insertTaskByPriority_decisions.
    by destruct (_ || _)%bool.
  - apply log_grows_refl. by destruct (cancelTask_frame taskId s)
      as (_ & _ & _ & _ & H & _).
  - by apply log_grows_refl.
  - by apply log_grows_refl.
  - destruct (isRunning s); [apply processTaskQueue_grows|by apply log_grows_refl].
  - apply log_grows_refl. apply executeTask_resume_decisions.
  - unfold executeTask_catch. destruct (rejected s !! i); [|by apply log_grows_refl].
    eapply log_grows_trans; [|apply handleTaskError_grows]. by apply log_grows_refl.
  - destruct (healthIntervals s); [by apply log_grows_refl|apply monitorHealth_grows].
  - unfold reenable. destruct (cooldowns s !! i); by apply log_grows_refl.
Qed.

Lemma run_grows l : forall s, log_grows s (run s l).
Proof.
  induction l as [|a l IH]; intros s; [by apply log_grows_refl|].
  cbn [run fold_left]. eapply log_grows_trans; [apply step_grows|apply IH].
Qed.

(** X8. The decision log is append-only: whatever is called or happens
    afterwards, the decisions logged so far remain, unchanged and in
    order, at the front of the log, and [getStatus().decisions] never
    goes down. *)
Theorem decisions_append_only (s : Controller) (l : list Action) :
  decisions s `prefix_of` decisions (run s l)
  /\ (st_decisions (getStatus s) <= st_decisions (getStatus (run s l)))%nat.
Proof.
  destruct (run_grows l s) as (added & H & _). cbn [getStatus st_decisions].
  rewrite H. split; [by apply prefix_app_r|]. rewrite length_app. lia.
Qed.

(** X9. In every state a controller can reach, every logged decision is
    executed exactly when it does not require approval, is of type route
    or heal (the types scale, optimize, restrict and unrestrict are never
    logged), and carries the fixed confidence of its type (0.9 for route,
    0.85 for heal). *)
Theorem logged_decisions_well_formed (cfg : ConfigUpdates) (l : list Action) :
  Forall (fun d =>
            executed d = negb (requiresApproval d)
            /\ (dec_type d = route /\ confidence d = 0.9%Q
                \/ dec_type d = heal /\ confidence d = 0.85%Q))
    (decisions (run (new_controller cfg) l)).
Proof.
  destruct (run_grows l (new_controller cfg)) as (added & H & Hok).
  rewrite H. change (decisions (new_controller cfg)) with (@nil Decision).
  cbn [app]. eapply Forall_impl; [exact Hok|]. cbn.
  intros d (Hex & Htype & Hconf). split; [done|].
  destruct Htype as [Ht|Ht]; rewrite Ht in Hconf; [left|right]; done.
Qed.

(** ** The health monitor *)

Ltac monitor_frame :=
  match goal with |- context [monitor_capability _ ?acc _] => destruct acc as [? ?s] end;
  unfold monitor_capability; cbn [snd];
  match goal with |- context [capHeap ?s !! ?c] => destruct (capHeap s !! c) end;
  [|reflexivity];
  match goal with |- context [if ?b then _ else _] => destruct b end; [|reflexivity];
  cbn [snd config taskQueue activeTasks executing rejected capabilities with_cooldowns];
  rewrite ?makeDecision_config, ?makeDecision_taskQueue, ?makeDecision_activeTasks,
    ?makeDecision_executing, ?makeDecision_rejected, ?makeDecision_capabilities;
  reflexivity.

Lemma monitor_capability_config env acc c :
  config (snd (monitor_capability env acc c)) = config (snd acc).
Proof. monitor_frame. Qed.
Lemma monitor_capability_taskQueue env acc c :
  taskQueue (snd (monitor_capability env acc c)) = taskQueue (snd acc).
Proof. monitor_frame. Qed.
Lemma monitor_capability_activeTasks env acc c :
  activeTasks (snd (monitor_capability env acc c)) = activeTasks (snd acc).
Proof. monitor_frame. Qed.
Lemma monitor_capability_capabilities env acc c :
  capabilities (snd (monitor_capability env acc c)) = capabilities (snd acc).
Proof. monitor_frame. Qed.

Ltac monitor_fold_frame lem :=
  let caps := fresh "caps" in let c := fresh "c" in let IH := fresh "IH" in
  intros caps; induction caps as [|c caps IH]; intros acc; [reflexivity|];
  cbn [fold_left]; rewrite IH; apply lem.

Lemma monitor_capabilities_config env : forall caps acc,
  config (snd (fold_left (monitor_capability env) caps acc)) = config (snd acc).
Proof. monitor_fold_frame monitor_capability_config. Qed.
Lemma monitor_capabilities_taskQueue env : forall caps acc,
  taskQueue (snd (fold_left (monitor_capability env) caps acc)) = taskQueue (snd acc).
Proof. monitor_fold_frame monitor_capability_taskQueue. Qed.
Lemma monitor_capabilities_activeTasks env : forall caps acc,
  activeTasks (snd (fold_left (monitor_capability env) caps acc)) = activeTasks (snd acc).
Proof. monitor_fold_frame monitor_capability_activeTasks. Qed.
Lemma monitor_capabilities_capabilities env : forall caps acc,
  capabilities (snd (fold_left (monitor_capability env) caps acc)) = capabilities (snd acc).
Proof. monitor_fold_frame monitor_capability_capabilities. Qed.

Lemma timed_out_idemp t : timed_out (timed_out t) = timed_out t.
Proof. reflexivity. Qed.

(** The task store after the timeouts: the tasks of [stale] are timed
    out, the others are as before. *)
Lemma timeout_tasks_lookup stale : forall s r,
  taskHeap (fold_left timeout_task stale s) !! r
  = (if decide (r ∈ stale) then timed_out else fun t => t) <$> taskHeap s !! r.
Proof.
  induction stale as [|a stale IH]; intros s r.
  - cbn. by destruct (taskHeap s !! r).
  - cbn [fold_left]. rewrite IH. unfold timeout_task.
    cbn [taskHeap emit update_task with_taskHeap].
    destruct (decide (r = a)) as [->|Hne].
    + rewrite !list_lookup_alter_eq. rewrite (decide_True (P := a ∈ a :: stale)) by left.
      destruct (taskHeap s !! a) as [t|]; [|done]. cbn.
      by destruct (decide (a ∈ stale)).
    + rewrite !list_lookup_alter_ne by done.
      destruct (decide (r ∈ stale)) as [Hin|Hnin].
      * by rewrite decide_True by by right.
      * rewrite decide_False; [done|]. by intros [?|?]%elem_of_cons.
Qed.

Ltac timeout_frame :=
  let stale := fresh "stale" in let r := fresh "r" in let IH := fresh "IH" in
  intros stale; induction stale as [|r stale IH]; intros s; [reflexivity|];
  cbn [fold_left]; rewrite IH; reflexivity.

Lemma timeout_tasks_config : forall stale s,
  config (fold_left timeout_task stale s) = config s.
Proof. timeout_frame. Qed.
Lemma timeout_tasks_taskQueue : forall stale s,
  taskQueue (fold_left timeout_task stale s) = taskQueue s.
Proof. timeout_frame. Qed.
Lemma timeout_tasks_activeTasks : forall stale s,
  activeTasks (fold_left timeout_task stale s) = activeTasks s.
Proof. timeout_frame. Qed.
Lemma timeout_tasks_capHeap : forall stale s,
  capHeap (fold_left timeout_task stale s) = capHeap s.
Proof. timeout_frame. Qed.
Lemma timeout_tasks_capabilities : forall stale s,
  capabilities (fold_left timeout_task stale s) = capabilities s.
Proof. timeout_frame. Qed.




Lemma filter_from_elem {A} (p : nat -> A -> bool) (l : list A) : forall k x,
  x ∈ filter_from p k l <-> exists i, l !! i = Some x /\ p (k + i)%nat x = true.
Proof.
  induction l as [|y l IH]; intros k x; cbn [filter_from].
  - split; [by intros ?%elem_of_nil|by intros (i & ? & _)].
  - assert (Htail : x ∈ filter_from p (S k) l
                    <-> exists i, l !! i = Some x /\ p (k + S i)%nat x = true).
    { rewrite IH. split; intros (i & Hi & Hp); exists i; (split; [done|]);
        by replace (k + S i)%nat with (S k + i)%nat in * by lia. }
    destruct (p k y) eqn:E.
    + rewrite elem_of_cons, Htail. split.
      * intros [->|(i & Hi & Hp)].
        -- exists 0%nat. by rewrite Nat.add_0_r.
        -- by exists (S i).
      * intros ([|i] & Hi & Hp).
        -- left. cbn in Hi. by injection Hi.
        -- right. by exists i.
    + rewrite Htail. split.
      * intros (i & Hi & Hp). by exists (S i).
      * intros ([|i] & Hi & Hp).
        -- cbn in Hi. injection Hi as ->. rewrite Nat.add_0_r in Hp. congruence.
        -- by exists i.
Qed.

Lemma filter_indexed_elem {A} (p : nat -> A -> bool) (l : list A) x :
  x ∈ filter_indexed p l <-> exists i, l !! i = Some x /\ p i x = true.
Proof. apply (filter_from_elem p l 0 x). Qed.

Lemma filter_from_agree {A} (p q : nat -> A -> bool) (l : list A) : forall k,
  (forall i y, p i y = q i y) -> filter_from p k l = filter_from q k l.
Proof.
  induction l as [|x l IH]; intros k H; [done|].
  cbn [filter_from]. by rewrite H, (IH (S k) H).
Qed.

(** With a test that does not look at the place, the plain [filter]. *)
Lemma filter_from_plain {A} (p : A -> bool) (l : list A) : forall k,
  filter_from (fun _ => p) k l = List.filter p l.
Proof.
  induction l as [|x l IH]; intros k; [done|].
  cbn [filter_from List.filter]. by rewrite IH.
Qed.

Lemma is_stale_at_agree t s s' r :
  config s' = config s ->
  createdAt <$> taskHeap s' !! r = createdAt <$> taskHeap s !! r ->
  is_stale_at t s' r = is_stale_at t s r.
Proof.
  intros Hc Hr. unfold is_stale_at. rewrite Hc.
  destruct (taskHeap s' !! r) as [t'|], (taskHeap s !! r) as [t0|]; cbn in Hr;
    try done. by injection Hr as ->.
Qed.

(** A task that is stale at one reading of the clock is stale at every
    later one. *)
Lemma is_stale_at_mono t t' s r :
  t <= t' -> is_stale_at t s r = true -> is_stale_at t' s r = true.
Proof.
  unfold is_stale_at. intros Hle. destruct (taskHeap s !! r); [|done].
  rewrite !bool_decide_eq_true. lia.
Qed.

(** The queue and the task store after [monitorHealth]. *)
Lemma monitorHealth_clocked_tasks env clock s :
  let s' := Clocked.monitorHealth env clock s in
  config s' = config s
  /\ taskQueue s'
     = filter_indexed (fun i r => negb (is_stale_at (Clocked.second clock i) s r))
         (taskQueue s)
  /\ (forall r,
        taskHeap s' !! r
        = (if decide (r ∈ filter_indexed
                            (fun i r => is_stale_at (Clocked.first clock i) s r)
                            (taskQueue s))
           then timed_out else fun t => t) <$> taskHeap s !! r)
  /\ activeTasks s' = activeTasks s.
Proof.
  unfold Clocked.monitorHealth. cbn zeta.
  set (s1 := snd (fold_left (monitor_capability env) (map snd (capabilities s)) (O, s))).
  assert (Hcfg1 : config s1 = config s) by apply monitor_capabilities_config.
  assert (Hq1 : taskQueue s1 = taskQueue s) by apply monitor_capabilities_taskQueue.
  assert (Hh1 : taskHeap s1 = taskHeap s) by apply monitor_capabilities_taskHeap.
  assert (Hstale1 : forall t r, is_stale_at t s1 r = is_stale_at t s r).
  { intros t r. apply is_stale_at_agree; [done|by rewrite Hh1]. }
  unfold filter_indexed.
  rewrite (filter_from_agree (fun i r => is_stale_at (Clocked.first clock i) s1 r)
             (fun i r => is_stale_at (Clocked.first clock i) s r))
    by (intros i r; apply Hstale1).
  rewrite Hq1.
  set (stale := filter_from (fun i r => is_stale_at (Clocked.first clock i) s r) 0
                  (taskQueue s)).
  cbn [config taskQueue taskHeap activeTasks emit with_taskQueue].
  rewrite timeout_tasks_config, timeout_tasks_taskQueue, timeout_tasks_activeTasks.
  split; [done|]. split; [|split].
  - rewrite Hq1. apply filter_from_agree. intros i r. f_equal.
    rewrite <- Hstale1. apply is_stale_at_agree; [by rewrite timeout_tasks_config|].
    rewrite timeout_tasks_lookup. destruct (taskHeap s1 !! r); [|done].
    by destruct (decide (r ∈ stale)).
  - intros r. by rewrite timeout_tasks_lookup, Hh1.
  - subst s1. by rewrite monitor_capabilities_activeTasks.
Qed.

(** X10. The queue timeout of the health monitor, whose two passes over
    the queue read the clock anew for every entry. After [monitorHealth]
    the queue is the old queue, in order, without the entries that are
    older than [taskTimeoutMs] at the reading of the second pass. The
    tasks failed, with the error ["Task timeout in queue"], their retry
    count kept and no completion time set, are those that are older than
    [taskTimeoutMs] at the reading of the first pass; every other task,
    in particular every task that is not queued, is untouched, and so is
    the active map. As the clock does not go back, every task that is
    failed is also removed; a task that passes the limit between the two
    readings is removed without being failed. When all readings are the
    same, the tasks removed are exactly the tasks failed. *)
Theorem monitorHealth_evicts_stale_queued_tasks
    (env : Env) (clock : Clocked.Readings) (s : Controller) :
  let s' := Clocked.monitorHealth env clock s in
  taskQueue s'
  = filter_indexed (fun i r => negb (is_stale_at (Clocked.second clock i) s r))
      (taskQueue s)
  /\ (forall i r, taskQueue s !! i = Some r ->
        is_stale_at (Clocked.first clock i) s r = true ->
        status_of s' r = Some failed
        /\ error_of s' r = Some (Some "Task timeout in queue")
        /\ retryCount_of s' r = retryCount_of s r
        /\ completedAt_of s' r = completedAt_of s r)
  /\ (forall r,
        (forall i, taskQueue s !! i = Some r ->
           is_stale_at (Clocked.first clock i) s r = false) ->
        taskHeap s' !! r = taskHeap s !! r)
  /\ activeTasks s' = activeTasks s
  /\ ((forall i j, Clocked.first clock i <= Clocked.second clock j) ->
      forall i r, taskQueue s !! i = Some r ->
        is_stale_at (Clocked.first clock i) s r = true ->
        r ∉ taskQueue s')
  /\ (forall t, (forall i, Clocked.first clock i = t /\ Clocked.second clock i = t) ->
      taskQueue s' = List.filter (fun r => negb (is_stale_at t s r)) (taskQueue s)
      /\ forall r, r ∈ taskQueue s -> r ∉ taskQueue s' ->
           status_of s r <> None -> status_of s' r = Some failed).
Proof.
  intros s'. destruct (monitorHealth_clocked_tasks env clock s) as (Hcfg & Hq & Hheap & Hact).
  fold s' in Hcfg, Hq, Hheap, Hact.
  split; [done|]. split; [|split; [|split; [done|split]]].
  - intros i r Hi Hst. unfold status_of, error_of, retryCount_of, completedAt_of.
    rewrite Hheap. rewrite decide_True by (apply filter_indexed_elem; eauto).
    unfold is_stale_at in Hst. by destruct (taskHeap s !! r).
  - intros r Hr. rewrite Hheap. rewrite decide_False; [by destruct (taskHeap s !! r)|].
    intros (i & Hi & Hst)%filter_indexed_elem. specialize (Hr i Hi). congruence.
  - intros Hmono i r Hi Hst. rewrite Hq.
    intros (j & Hj & Hkeep)%filter_indexed_elem.
    apply negb_true_iff in Hkeep.
    rewrite (is_stale_at_mono _ _ s r (Hmono i j) Hst) in Hkeep. done.
  - intros t Ht.
    assert (Hq' : taskQueue s'
                  = List.filter (fun r => negb (is_stale_at t s r)) (taskQueue s)).
    { rewrite Hq. unfold filter_indexed.
      rewrite (filter_from_agree _ (fun _ r => negb (is_stale_at t s r)))
        by (intros i r; by rewrite (proj2 (Ht i))).
      apply (filter_from_plain (fun r => negb (is_stale_at t s r))). }
    split; [exact Hq'|]. intros r Hin Hout Hsome.
    assert (Hst : is_stale_at t s r = true).
    { destruct (is_stale_at t s r) eqn:E; [done|]. exfalso. apply Hout.
      rewrite Hq'. apply list_elem_of_In, filter_In.
      split; [by apply list_elem_of_In|by rewrite E]. }
    apply list_elem_of_lookup in Hin as [i Hi].
    unfold status_of in *. rewrite Hheap.
    rewrite decide_True
      by (apply filter_indexed_elem; exists i; by rewrite (proj1 (Ht i))).
    by destruct (taskHeap s !! r).
Qed.

(** A task queued at time 1 with the limit at 300000: read at 300001 by
    the first pass and at 300002 by the second, it leaves the queue with
    its status still queued. *)
Lemma monitorHealth_evicts_stale_queued_tasks_witness :
  let s := run (new_controller no_updates)
             [Start; SubmitTask text [] no_options (env_at 1 "a")] in
  let clock := {| Clocked.first := fun _ => 300001;
                  Clocked.second := fun _ => 300002 |} in
  let s' := Clocked.monitorHealth (env_at 300001 "c") clock s in
  taskQueue s = [0%nat]
  /\ taskQueue s' = []
  /\ status_of s' 0 = Some queued.
Proof.
  intros s clock s'.
  destruct (monitorHealth_evicts_stale_queued_tasks (env_at 300001 "c") clock s)
    as (Hq & _ & Hkeep & _).
  fold s' in Hq, Hkeep.
  split; [by vm_compute|]. split.
  - rewrite Hq. by vm_compute.
  - unfold status_of. rewrite (Hkeep 0%nat).
    + by vm_compute.
    + intros [|i] Hi; [by vm_compute|]. vm_compute in Hi. by destruct i.
Defined.

Lemma monitor_capability_off env acc c :
  selfHealing (config (snd acc)) = false -> monitor_capability env acc c = acc.
Proof.
  destruct acc as [k s]. cbn. intros Hoff. unfold monitor_capability.
  destruct (capHeap s !! c); [|done]. by rewrite Hoff, andb_false_r.
Qed.

Lemma monitor_capabilities_off env caps : forall acc,
  selfHealing (config (snd acc)) = false ->
  fold_left (monitor_capability env) caps acc = acc.
Proof.
  induction caps as [|c caps IH]; intros acc Hoff; [done|].
  cbn [fold_left]. rewrite monitor_capability_off by done. by apply IH.
Qed.

Lemma health_checked_idemp c : health_checked (health_checked c) = health_checked c.
Proof.
  unfold health_checked. destruct (underperforming c) eqn:E; [|by rewrite E].
  change (underperforming (set_enabled false c)) with (underperforming c).
  by rewrite E.
Qed.

Lemma monitor_capability_capHeap env acc c c' :
  selfHealing (config (snd acc)) = true ->
  capHeap (snd (monitor_capability env acc c)) !! c'
  = (if decide (c' = c) then health_checked else fun x => x) <$> capHeap (snd acc) !! c'.
Proof.
  destruct acc as [k s]. cbn [snd]. intros Hon. unfold monitor_capability.
  destruct (capHeap s !! c) as [cap|] eqn:Hc.
  - rewrite Hon, andb_true_r. fold (underperforming cap).
    destruct (underperforming cap) eqn:Hu.
    + cbn [snd capHeap with_cooldowns]. rewrite makeDecision_capHeap.
      cbn [capHeap update_cap with_capHeap].
      destruct (decide (c' = c)) as [->|Hne].
      * rewrite list_lookup_alter_eq, Hc. cbn. unfold health_checked. by rewrite Hu.
      * rewrite list_lookup_alter_ne by done. by destruct (capHeap s !! c').
    + cbn [snd]. destruct (decide (c' = c)) as [->|Hne].
      * rewrite Hc. cbn. unfold health_checked. by rewrite Hu.
      * by destruct (capHeap s !! c').
  - cbn [snd]. destruct (decide (c' = c)) as [->|Hne].
    + by rewrite Hc.
    + by destruct (capHeap s !! c').
Qed.

Lemma monitor_capabilities_capHeap env c' : forall caps acc,
  selfHealing (config (snd acc)) = true ->
  capHeap (snd (fold_left (monitor_capability env) caps acc)) !! c'
  = (if decide (c' ∈ caps) then health_checked else fun x => x) <$> capHeap (snd acc) !! c'.
Proof.
  induction caps as [|c caps IH]; intros acc Hon.
  - cbn. by destruct (capHeap (snd acc) !! c').
  - cbn [fold_left]. rewrite IH by by rewrite monitor_capability_config.
    rewrite monitor_capability_capHeap by done.
    destruct (capHeap (snd acc) !! c') as [cap|]; [|done]. cbn. f_equal.
    destruct (decide (c' = c)) as [->|Hne].
    + rewrite (decide_True (P := c ∈ c :: caps)) by left.
      destruct (decide (c ∈ caps)); [apply health_checked_idemp|done].
    + destruct (decide (c' ∈ caps)) as [Hin|Hnin].
      * by rewrite decide_True by by right.
      * rewrite decide_False; [done|]. by intros [?|?]%elem_of_cons.
Qed.

Lemma monitorHealth_capHeap env s :
  capHeap (monitorHealth env s)
  = capHeap (snd (fold_left (monitor_capability env) (map snd (capabilities s)) (O, s))).
Proof.
  unfold monitorHealth. cbn [capHeap emit with_taskQueue].
  by rewrite timeout_tasks_capHeap.
Qed.

Lemma underperforming_lt c : underperforming c = true <-> (successRate c < 0.5)%Q.
Proof.
  unfold underperforming. rewrite negb_true_iff. split.
  - intros H. apply Qnot_le_lt. intros Hle. apply Qle_bool_iff in Hle. congruence.
  - intros Hlt. destruct (Qle_bool 0.5 (successRate c)) eqn:E; [|done].
    apply Qle_bool_iff in E. exfalso. by apply (Qlt_not_le _ _ Hlt).
Qed.

Lemma monitorHealth_spares_healthy env s c cap :
  capHeap s !! c = Some cap -> (0.5 <= successRate cap)%Q ->
  capHeap (monitorHealth env s) !! c = Some cap.
Proof.
  intros Hc Hge. rewrite monitorHealth_capHeap.
  assert (Hu : underperforming cap = false).
  { destruct (underperforming cap) eqn:E; [|done].
    apply underperforming_lt in E. exfalso. by apply (Qlt_not_le _ _ E). }
  destruct (selfHealing (config s)) eqn:Hsh.
  - rewrite monitor_capabilities_capHeap by done. cbn [snd]. rewrite Hc. cbn.
    destruct (decide _); [|done]. unfold health_checked. by rewrite Hu.
  - by rewrite (monitor_capabilities_off env _ (O, s)).
Qed.

(** X11. Self-healing of capabilities: with [selfHealing] off the health
    monitor changes no capability, logs no decision and schedules
    nothing; with it on, every registered capability whose success rate
    is below 0.5 is disabled, with its load and statistics unchanged. A
    capability whose success rate is 0.5 or more is never touched, and
    no capability is ever removed from the registry. *)
Theorem monitorHealth_disables_underperformers (env : Env) (s : Controller) :
  let s' := monitorHealth env s in
  capabilities s' = capabilities s
  /\ (selfHealing (config s) = false ->
      capHeap s' = capHeap s /\ decisions s' = decisions s /\ cooldowns s' = cooldowns s)
  /\ (selfHealing (config s) = true ->
      forall k c cap, (k, c) ∈ capabilities s -> capHeap s !! c = Some cap ->
        (successRate cap < 0.5)%Q ->
        capHeap s' !! c = Some (set_enabled false cap))
  /\ (forall c cap, capHeap s !! c = Some cap -> (0.5 <= successRate cap)%Q ->
        capHeap s' !! c = Some cap).
Proof.
  intros s'. subst s'. split; [|split; [|split]].
  - unfold monitorHealth. cbn [capabilities emit with_taskQueue].
    by rewrite timeout_tasks_capabilities, monitor_capabilities_capabilities.
  - intros Hoff. rewrite monitorHealth_capHeap.
    unfold monitorHealth. cbn [decisions cooldowns emit with_taskQueue].
    rewrite timeout_tasks_decisions.
    rewrite !(monitor_capabilities_off env _ (O, s)) by done. cbn [snd].
    repeat split.
    generalize (List.filter (is_stale env s) (taskQueue s)). intros stale.
    revert s Hoff. induction stale as [|r stale IH]; intros s Hoff; [done|].
    cbn [fold_left]. by rewrite IH.
  - intros Hon k c cap Hin Hc Hlt. rewrite monitorHealth_capHeap.
    rewrite monitor_capabilities_capHeap by done. cbn [snd]. rewrite Hc.
    rewrite decide_True.
    + cbn. unfold health_checked. by rewrite (proj2 (underperforming_lt cap) Hlt).
    + apply list_elem_of_fmap. by exists (k, c).
  - intros c cap. apply monitorHealth_spares_healthy.
Qed.

(** At a capability registered with a success rate of 0.4. *)
Lemma monitorHealth_disables_underperformers_witness :
  let s := run (new_controller no_updates) [RegisterCapability weak_capability] in
  selfHealing (config s) = true
  /\ capHeap (monitorHealth (env_at 1 "a") s) !! 3%nat
     = Some (set_enabled false weak_capability).
Proof.
  intros s.
  assert (Hon : selfHealing (config s) = true) by reflexivity.
  assert (Hin : ("weak", 3%nat) ∈ capabilities s) by (vm_compute; repeat constructor).
  assert (Hc : capHeap s !! 3%nat = Some weak_capability) by reflexivity.
  assert (Hlt : (successRate weak_capability < 0.5)%Q) by reflexivity.
  split; [exact Hon|].
  exact (proj1 (proj2 (proj2 (monitorHealth_disables_underperformers (env_at 1 "a") s)))
           Hon "weak" 3%nat weak_capability Hin Hc Hlt).
Defined.

(** X12. The cooldown after a disabling: when the timeout of a disabled
    capability fires, the capability is enabled again with a success rate
    of 0.7, its other fields and the other capabilities are unchanged,
    and the timeout is spent; a health check that follows leaves it
    enabled. A timeout that is not pending does nothing. *)
Theorem reenable_restores_capability (i c : nat) (cap : AgentCapability) (s : Controller) :
  cooldowns s !! i = Some c ->
  capHeap s !! c = Some cap ->
  let s' := reenable i s in
  capHeap s' !! c = Some (set_successRate 0.7 (set_enabled true cap))
  /\ (forall c', c' <> c -> capHeap s' !! c' = capHeap s !! c')
  /\ cooldowns s' = delete i (cooldowns s)
  /\ (forall env, enabled <$> capHeap (monitorHealth env s') !! c = Some true)
  /\ (forall j, cooldowns s !! j = None -> reenable j s = s).
Proof.
  intros Hi Hc s'. subst s'. unfold reenable at 1 2 3. rewrite Hi.
  cbn [capHeap cooldowns update_cap with_capHeap with_cooldowns].
  rewrite !list_lookup_alter_eq, Hc. cbn [fmap option_fmap option_map].
  split; [done|]. split; [|split; [done|split]].
  - intros c' Hne. by rewrite !list_lookup_alter_ne.
  - intros env.
    rewrite (monitorHealth_spares_healthy env (reenable i s) c
               (set_successRate 0.7 (set_enabled true cap))); [done| |done].
    unfold reenable. rewrite Hi.
    cbn [capHeap update_cap with_capHeap with_cooldowns].
    by rewrite !list_lookup_alter_eq, Hc.
  - intros j Hj. unfold reenable. by rewrite Hj.
Qed.

(** At the weak capability, disabled by a health check. *)
Lemma reenable_restores_capability_witness :
  let s := monitorHealth (env_at 1 "a")
             (run (new_controller no_updates) [RegisterCapability weak_capability]) in
  enabled <$> capHeap s !! 3%nat = Some false
  /\ capHeap (reenable 0 s) !! 3%nat
     = Some (set_successRate 0.7 (set_enabled true (set_enabled false weak_capability))).
Proof.
  intros s.
  assert (Hi : cooldowns s !! 0%nat = Some 3%nat) by (vm_compute; reflexivity).
  assert (Hc : capHeap s !! 3%nat = Some (set_enabled false weak_capability))
    by (vm_compute; reflexivity).
  split; [by rewrite Hc|].
  exact (proj1 (reenable_restores_capability 0 3 _ s Hi Hc)).
Defined.

(** ** The success rate *)

Lemma rate_ok_alter f c heap :
  (forall cap, rate_ok cap -> rate_ok (f cap)) ->
  Forall rate_ok heap -> Forall rate_ok (alter f c heap).
Proof. intros Hf H. apply Forall_alter; [done|]. intros cap _. apply Hf. Qed.

Ltac keeps_rate := let cap := fresh in let H := fresh in intros cap H; exact H.

Lemma rate_ok_success cap :
  rate_ok cap -> rate_ok (set_successRate (successRate cap * 0.9 + 0.1)%Q cap).
Proof. unfold rate_ok. cbn. intros [H0 H1]. split; lra. Qed.

Lemma rate_ok_failure cap :
  rate_ok cap -> rate_ok (set_successRate (successRate cap * 0.9)%Q cap).
Proof. unfold rate_ok. cbn. intros [H0 H1]. split; lra. Qed.

Lemma rate_ok_baseline cap : rate_ok cap -> rate_ok (set_successRate 0.7 cap).
Proof. intros _. unfold rate_ok. cbn. split; lra. Qed.

Lemma executeTask_resume_capHeap i o env s :
  capHeap (executeTask_resume i o env s)
  = match executing s !! i with
    | None => capHeap s
    | Some ex =>
        match o with
        | Returns =>
            alter (fun cap => set_currentLoad (currentLoad cap - 1) cap) (ex_cap ex)
              (alter (fun cap => set_successRate (successRate cap * 0.9 + 0.1)%Q cap)
                 (ex_cap ex)
                 (alter (fun cap => set_avgLatencyMs
                            ((avgLatencyMs cap + inject_Z (now env - ex_startTime ex)) / 2)%Q
                            cap) (ex_cap ex) (capHeap s)))
        | Throws _ =>
            alter (fun cap => set_currentLoad (currentLoad cap - 1) cap) (ex_cap ex)
              (capHeap s)
        end
    end.
Proof.
  unfold executeTask_resume, executeTask_finally.
  destruct (executing s !! i) as [ex|]; [|done].
  destruct o; cbn [taskHeap update_task update_cap with_capHeap with_taskHeap
                   with_executing with_rejected emit log].
  - match goal with |- context [match ?h !! ?k with _ => _ end] => destruct (h !! k) end;
      reflexivity.
  - by destruct (taskHeap s !! ex_task ex).
Qed.

Lemma handleTaskError_capHeap r c err env s :
  capHeap (handleTaskError r c err env s)
  = alter (fun cap => set_successRate (successRate cap * 0.9)%Q cap) c
      (alter (fun cap => set_currentLoad (currentLoad cap - 1) cap) c (capHeap s)).
Proof.
  destruct (taskHeap s !! r) as [task|] eqn:Ht.
  - destruct (decide (retryCount task < maxRetries task)) as [Hretry|Hretry].
    + by destruct (handleTaskError_retry r c err env s task Ht Hretry)
        as (_ & _ & _ & _ & H & _).
    + by destruct (handleTaskError_exhausted r c err env s task Ht Hretry)
        as (_ & _ & _ & _ & H & _).
  - unfold handleTaskError. cbn [taskHeap update_cap with_capHeap]. by rewrite Ht.
Qed.

Lemma processTaskQueue_capHeap env s :
  capHeap (processTaskQueue env s) = capHeap s
  \/ exists c, capHeap (processTaskQueue env s)
               = alter (fun cap => set_currentLoad (currentLoad cap + 1) cap) c (capHeap s).
Proof.
  unfold processTaskQueue.
  destruct (decide (maxConcurrentTasks (config s) <= Z.of_nat (size (activeTasks s))))
    as [Hfull|Hroom]; [rewrite processTaskQueue_pop_idle; [by left|by left]|].
  destruct (taskQueue s) as [|r q] eqn:Hq;
    [rewrite processTaskQueue_pop_idle; [by left|by right]|].
  destruct (taskHeap s !! r) as [task|] eqn:Ht.
  - destruct (decide (candidates_of task s = [])) as [Hc|Hc].
    + destruct (decide (retryCount task < maxRetries task)).
      * rewrite (processTaskQueue_requeue env s r q task) by (done || lia). by left.
      * rewrite (processTaskQueue_exhausted env s r q task) by (done || lia). by left.
    + destruct (processTaskQueue_dispatch env s r q task)
        as (c & cap & ex & _ & _ & Hs); [lia|done..|].
      cbn zeta in Hs. destruct Hs as (_ & _ & _ & _ & Hcap & _).
      right. by exists c.
  - left. unfold processTaskQueue_pop. rewrite bool_decide_eq_false_2, Hq by lia.
    cbn. by rewrite Ht.
Qed.

Lemma monitor_capabilities_rate_ok env : forall caps acc,
  Forall rate_ok (capHeap (snd acc)) ->
  Forall rate_ok (capHeap (snd (fold_left (monitor_capability env) caps acc))).
Proof.
  induction caps as [|c caps IH]; intros acc H; [done|].
  cbn [fold_left]. apply IH. destruct acc as [k s]. cbn [snd] in *.
  unfold monitor_capability. destruct (capHeap s !! c); [|done].
  destruct (_ && _)%bool; [|done]. cbn [snd capHeap with_cooldowns].
  rewrite makeDecision_capHeap. cbn. by apply rate_ok_alter; [keeps_rate|].
Qed.

Lemma start_capHeap s : capHeap (start s) = capHeap s.
Proof. unfold start. by destruct (isRunning s). Qed.

Lemma setMode_capHeap m env s : capHeap (setMode m env s) = capHeap s.
Proof.
  unfold setMode. cbn [capHeap emit]. rewrite makeDecision_capHeap. by destruct m.
Qed.

Lemma submitTask_capHeap type input options env s :
  capHeap (snd (submitTask type input options env s)) = capHeap s.
Proof.
  rewrite submitTask_unfold. cbn [snd capHeap emit].
  rewrite insertTaskByPriority_capHeap. by destruct (_ || _)%bool.
Qed.

Lemma cancelTask_capHeap taskId s : capHeap (snd (cancelTask taskId s)) = capHeap s.
Proof. by destruct (cancelTask_frame taskId s) as (_ & _ & H & _). Qed.

Lemma registerCapability_capHeap c s :
  capHeap (registerCapability c s) = capHeap s ++ [c].
Proof. reflexivity. Qed.

Lemma reenable_capHeap i s :
  capHeap (reenable i s)
  = match cooldowns s !! i with
    | None => capHeap s
    | Some c => alter (set_successRate 0.7) c (alter (set_enabled true) c (capHeap s))
    end.
Proof. unfold reenable. by destruct (cooldowns s !! i). Qed.

Lemma step_rate_ok s a :
  match a with RegisterCapability c => rate_ok c | _ => True end ->
  Forall rate_ok (capHeap s) -> Forall rate_ok (capHeap (step s a)).
Proof.
  intros Ha H. destruct a; cbn [step].
  - by rewrite start_capHeap.
  - exact H.
  - by rewrite setMode_capHeap.
  - unfold enableUnrestrictedMode. by rewrite setMode_capHeap.
  - exact H.
  - by rewrite submitTask_capHeap.
  - by rewrite cancelTask_capHeap.
  - rewrite registerCapability_capHeap. apply Forall_app. split; [exact H|].
    by apply Forall_singleton.
  - exact H.
  - destruct (isRunning s); [|exact H].
    destruct (processTaskQueue_capHeap env s) as [->|[c' ->]]; [exact H|].
    by apply rate_ok_alter; [keeps_rate|].
  - rewrite executeTask_resume_capHeap. destruct (executing s !! i); [|exact H].
    destruct o.
    + apply rate_ok_alter; [keeps_rate|].
      apply rate_ok_alter; [apply rate_ok_success|].
      by apply rate_ok_alter; [keeps_rate|].
    + by apply rate_ok_alter; [keeps_rate|].
  - unfold executeTask_catch. destruct (rejected s !! i); [|exact H].
    rewrite handleTaskError_capHeap.
    apply rate_ok_alter; [apply rate_ok_failure|].
    by apply rate_ok_alter; [keeps_rate|].
  - destruct (healthIntervals s); [exact H|]. rewrite monitorHealth_capHeap.
    by apply monitor_capabilities_rate_ok.
  - rewrite reenable_capHeap. destruct (cooldowns s !! i); [|exact H].
    apply rate_ok_alter; [apply rate_ok_baseline|].
    by apply rate_ok_alter; [keeps_rate|].
Qed.

(** X13. The success rate stays a proportion: if every capability handed
    to [registerCapability] has a success rate between 0 and 1, then in
    every state the controller reaches every capability has one, whatever
    executions succeed or fail. *)
Theorem successRate_stays_within_bounds (cfg : ConfigUpdates) (l : list Action) :
  Forall (fun c => (0 <= successRate c)%Q /\ (successRate c <= 1)%Q) (registered l) ->
  Forall (fun c => (0 <= successRate c)%Q /\ (successRate c <= 1)%Q)
    (capHeap (run (new_controller cfg) l)).
Proof.
  induction l as [|a l IH] using rev_ind; intros Hreg.
  - change (capHeap (run (new_controller cfg) [])) with default_capabilities.
    repeat (apply Forall_cons; split; [split; cbn; lra|]). apply Forall_nil_2.
  - unfold run, registered in *. rewrite fold_left_app. cbn [fold_left].
    rewrite omap_app in Hreg. apply Forall_app in Hreg as [Hl Ha].
    apply (step_rate_ok _ a); [|by apply IH].
    destruct a; try exact I. cbn in Ha. inversion Ha as [|? ? Hc _]. exact Hc.
Qed.

(** At a run that registers the weak capability and lets a task fail. *)
Lemma successRate_stays_within_bounds_witness :
  let l := [Start; RegisterCapability weak_capability;
            SubmitTask custom [] (with_maxRetries 0) (env_at 1 "a");
            DispatchTick (env_at 2 "b"); Settle 0 (Throws "boom") (env_at 3 "c");
            Catch 0 (env_at 4 "d")] in
  Forall (fun c => (0 <= successRate c)%Q /\ (successRate c <= 1)%Q)
    (capHeap (run (new_controller no_updates) l)).
Proof.
  intros l. apply (successRate_stays_within_bounds no_updates l).
  repeat constructor; cbn; lra.
Defined.

(** ** The capability registry *)

Lemma map_set_keys {V} (k : string) (v : V) (m : list (string * V)) :
  map fst (map_set k v m)
  = if decide (k ∈ map fst m) then map fst m else map fst m ++ [k].
Proof.
  induction m as [|[k0 v0] m IH]; [done|]. cbn.
  case_bool_decide as Hk.
  - subst k0. cbn. by rewrite decide_True by left.
  - cbn. rewrite IH. destruct (decide (k ∈ map fst m)) as [Hin|Hnin].
    + by rewrite decide_True by by right.
    + rewrite decide_False; [done|]. intros [?|?]%elem_of_cons; congruence.
Qed.

Lemma map_set_NoDup {V} (k : string) (v : V) (m : list (string * V)) :
  NoDup (map fst m) -> NoDup (map fst (map_set k v m)).
Proof.
  intros H. rewrite map_set_keys. destruct (decide _) as [Hin|Hnin]; [done|].
  apply NoDup_app. split; [done|]. split; [|apply NoDup_singleton].
  intros x Hx ->%list_elem_of_singleton. done.
Qed.

Lemma map_set_elem {V} (k : string) (v : V) (m : list (string * V)) k' v' :
  NoDup (map fst m) ->
  (k', v') ∈ map_set k v m <-> (k' = k /\ v' = v) \/ (k' <> k /\ (k', v') ∈ m).
Proof.
  induction m as [|[k0 v0] m IH]; cbn; intros Hnd.
  - rewrite list_elem_of_singleton. split.
    + intros [= -> ->]. by left.
    + intros [[-> ->]|[_ Hin]]; [done|]. by apply elem_of_nil in Hin.
  - apply NoDup_cons in Hnd as [Hk0 Hnd]. case_bool_decide as Hk.
    + subst k0. rewrite !elem_of_cons. split.
      * intros [[= -> ->]|Hin]; [by left|].
        right. split; [|by right]. intros ->. apply Hk0.
        apply list_elem_of_fmap. by exists (k, v').
      * intros [[-> ->]|[Hne [[= -> ->]|Hin]]]; [by left|done|by right].
    + rewrite !elem_of_cons, (IH Hnd). split.
      * intros [[= -> ->]|[[-> ->]|[Hne Hin]]].
        -- right. split; [done|by left].
        -- by left.
        -- right. split; [done|by right].
      * intros [[-> ->]|[Hne [[= -> ->]|Hin]]].
        -- right. by left.
        -- by left.
        -- right. right. by split.
Qed.

Lemma ids_kept_refl h : ids_kept h h.
Proof. by intros c _. Qed.

Lemma ids_kept_alter f c0 h h' :
  (forall cap, cap_id (f cap) = cap_id cap) ->
  ids_kept h h' -> ids_kept h (alter f c0 h').
Proof.
  intros Hf H c Hc. rewrite <- (H c Hc).
  destruct (decide (c = c0)) as [->|Hne].
  - rewrite list_lookup_alter_eq. destruct (h' !! c0); [|done]. cbn. by rewrite Hf.
  - by rewrite list_lookup_alter_ne.
Qed.

Lemma ids_kept_app h l : ids_kept h (h ++ l).
Proof. intros c Hc. by rewrite lookup_app_l. Qed.

Ltac keeps_id := intros ?; reflexivity.

Lemma monitorHealth_ids_kept env s : ids_kept (capHeap s) (capHeap (monitorHealth env s)).
Proof.
  rewrite monitorHealth_capHeap. intros c Hc.
  destruct (selfHealing (config s)) eqn:Hsh.
  - rewrite monitor_capabilities_capHeap by done. cbn [snd].
    destruct (capHeap s !! c) as [cap|]; [|done]. cbn.
    destruct (decide _); [|done]. unfold health_checked. by destruct (underperforming cap).
  - by rewrite (monitor_capabilities_off env _ (O, s)).
Qed.

Lemma step_ids_kept s a : ids_kept (capHeap s) (capHeap (step s a)).
Proof.
  destruct a; cbn [step].
  - rewrite start_capHeap. apply ids_kept_refl.
  - apply ids_kept_refl.
  - rewrite setMode_capHeap. apply ids_kept_refl.
  - unfold enableUnrestrictedMode. rewrite setMode_capHeap. apply ids_kept_refl.
  - apply ids_kept_refl.
  - rewrite submitTask_capHeap. apply ids_kept_refl.
  - rewrite cancelTask_capHeap. apply ids_kept_refl.
  - rewrite registerCapability_capHeap. apply ids_kept_app.
  - apply ids_kept_refl.
  - destruct (isRunning s); [|apply ids_kept_refl].
    destruct (processTaskQueue_capHeap env s) as [->|[c' ->]]; [apply ids_kept_refl|].
    apply ids_kept_alter; [keeps_id|apply ids_kept_refl].
  - rewrite executeTask_resume_capHeap. destruct (executing s !! i); [|apply ids_kept_refl].
    destruct o; repeat (apply ids_kept_alter; [keeps_id|]); apply ids_kept_refl.
  - unfold executeTask_catch. destruct (rejected s !! i); [|apply ids_kept_refl].
    rewrite handleTaskError_capHeap.
    repeat (apply ids_kept_alter; [keeps_id|]). apply ids_kept_refl.
  - destruct (healthIntervals s); [apply ids_kept_refl|apply monitorHealth_ids_kept].
  - rewrite reenable_capHeap. destruct (cooldowns s !! i); [|apply ids_kept_refl].
    repeat (apply ids_kept_alter; [keeps_id|]). apply ids_kept_refl.
Qed.

Lemma processTaskQueue_capabilities env s :
  capabilities (processTaskQueue env s) = capabilities s.
Proof.
  unfold processTaskQueue.
  destruct (decide (maxConcurrentTasks (config s) <= Z.of_nat (size (activeTasks s))))
    as [Hfull|Hroom]; [rewrite processTaskQueue_pop_idle; [done|by left]|].
  destruct (taskQueue s) as [|r q] eqn:Hq;
    [rewrite processTaskQueue_pop_idle; [done|by right]|].
  destruct (taskHeap s !! r) as [task|] eqn:Ht.
  - destruct (decide (candidates_of task s = [])) as [Hc|Hc].
    + destruct (decide (retryCount task < maxRetries task)).
      * by rewrite (processTaskQueue_requeue env s r q task) by (done || lia).
      * by rewrite (processTaskQueue_exhausted env s r q task) by (done || lia).
    + destruct (processTaskQueue_dispatch env s r q task)
        as (c & cap & ex & _ & _ & Hs); [lia|done..|].
      cbn zeta in Hs. by destruct Hs as (_ & H & _).
  - unfold processTaskQueue_pop. rewrite bool_decide_eq_false_2, Hq by lia.
    cbn. by rewrite Ht.
Qed.

Lemma executeTask_resume_capabilities i o env s :
  capabilities (executeTask_resume i o env s) = capabilities s.
Proof.
  unfold executeTask_resume, executeTask_finally.
  destruct (executing s !! i) as [ex|]; [|done].
  destruct o; cbn [taskHeap update_task update_cap with_capHeap with_taskHeap
                   with_executing with_rejected emit log].
  - match goal with |- context [match ?h !! ?k with _ => _ end] => destruct (h !! k) end;
      reflexivity.
  - by destruct (taskHeap s !! ex_task ex).
Qed.

Lemma handleTaskError_capabilities r c err env s :
  capabilities (handleTaskError r c err env s) = capabilities s.
Proof.
  destruct (taskHeap s !! r) as [task|] eqn:Ht.
  - destruct (decide (retryCount task < maxRetries task)) as [Hretry|Hretry].
    + by destruct (handleTaskError_retry r c err env s task Ht Hretry) as (_ & H & _).
    + by destruct (handleTaskError_exhausted r c err env s task Ht Hretry) as (_ & H & _).
  - unfold handleTaskError. cbn [taskHeap update_cap with_capHeap]. by rewrite Ht.
Qed.

Lemma monitorHealth_capabilities env s :
  capabilities (monitorHealth env s) = capabilities s.
Proof.
  unfold monitorHealth. cbn [capabilities emit with_taskQueue].
  by rewrite timeout_tasks_capabilities, monitor_capabilities_capabilities.
Qed.

Lemma start_capabilities s : capabilities (start s) = capabilities s.
Proof. unfold start. by destruct (isRunning s). Qed.

Lemma setMode_capabilities m env s : capabilities (setMode m env s) = capabilities s.
Proof.
  unfold setMode. cbn [capabilities emit]. rewrite makeDecision_capabilities.
  by destruct m.
Qed.

Lemma submitTask_capabilities type input options env s :
  capabilities (snd (submitTask type input options env s)) = capabilities s.
Proof.
  rewrite submitTask_unfold. cbn [snd capabilities emit].
  rewrite insertTaskByPriority_capabilities. by destruct (_ || _)%bool.
Qed.

Lemma cancelTask_capabilities taskId s :
  capabilities (snd (cancelTask taskId s)) = capabilities s.
Proof. by destruct (cancelTask_frame taskId s) as (_ & _ & _ & H & _). Qed.

Lemma executeTask_catch_capabilities i env s :
  capabilities (executeTask_catch i env s) = capabilities s.
Proof.
  unfold executeTask_catch. destruct (rejected s !! i); [|reflexivity].
  by rewrite handleTaskError_capabilities.
Qed.

Lemma reenable_capabilities i s : capabilities (reenable i s) = capabilities s.
Proof. unfold reenable. by destruct (cooldowns s !! i). Qed.

Lemma step_capabilities s a :
  capabilities (step s a)
  = match a with
    | RegisterCapability c => map_set (cap_id c) (length (capHeap s)) (capabilities s)
    | _ => capabilities s
    end.
Proof.
  destruct a; cbn [step].
  - apply start_capabilities.
  - reflexivity.
  - apply setMode_capabilities.
  - apply setMode_capabilities.
  - reflexivity.
  - apply submitTask_capabilities.
  - apply cancelTask_capabilities.
  - reflexivity.
  - reflexivity.
  - destruct (isRunning s); [apply processTaskQueue_capabilities|reflexivity].
  - apply executeTask_resume_capabilities.
  - apply executeTask_catch_capabilities.
  - destruct (healthIntervals s); [reflexivity|apply monitorHealth_capabilities].
  - apply reenable_capabilities.
Qed.

Lemma step_caps_wf s a : caps_wf s -> caps_wf (step s a).
Proof.
  intros [Hnd Hids]. pose proof (step_ids_kept s a) as Hkept.
  assert (Hvalid : forall k c, (k, c) ∈ capabilities s -> (c < length (capHeap s))%nat).
  { intros k c Hin. apply lookup_lt_is_Some. specialize (Hids k c Hin).
    destruct (capHeap s !! c); [by eexists|done]. }
  assert (Hold : forall k c, (k, c) ∈ capabilities s ->
                   cap_id <$> capHeap (step s a) !! c = Some k).
  { intros k c Hin. rewrite (Hkept c (Hvalid k c Hin)). by apply Hids. }
  assert (Hcase : (exists c, a = RegisterCapability c)
                  \/ ~ (exists c, a = RegisterCapability c)).
  { destruct a; try (right; by intros [? ?]). left. by eexists. }
  destruct Hcase as [[c ->]|Hother].
  - split; rewrite step_capabilities.
    + by apply map_set_NoDup.
    + intros k c' Hin. apply map_set_elem in Hin as [[-> ->]|[Hne Hin]]; [|by apply Hold|done].
      cbn [step]. rewrite registerCapability_capHeap.
      by rewrite lookup_app_r, Nat.sub_diag by lia.
  - assert (Hcaps : capabilities (step s a) = capabilities s).
    { rewrite step_capabilities. destruct a; try reflexivity.
      exfalso. apply Hother. by eexists. }
    split; rewrite Hcaps; [exact Hnd|exact Hold].
Qed.

Lemma reachable_caps_wf cfg l : caps_wf (run (new_controller cfg) l).
Proof.
  induction l as [|a l IH] using rev_ind.
  - split.
    { change (map fst (capabilities (run (new_controller cfg) [])))
        with ["personaplex-voice"; "agent-zero-auto"; "poke-research"].
      apply (bool_decide_unpack _). by vm_compute. }
    change (capabilities (run (new_controller cfg) []))
      with [("personaplex-voice", 0%nat); ("agent-zero-auto", 1%nat);
            ("poke-research", 2%nat)].
    change (capHeap (run (new_controller cfg) [])) with default_capabilities.
    intros k c Hin. repeat (apply elem_of_cons in Hin as [[= -> ->]|Hin]; [done|]).
    by apply elem_of_nil in Hin.
  - unfold run in *. rewrite fold_left_app. cbn [fold_left]. by apply step_caps_wf.
Qed.

(** Under a well-formed registry, the registered capabilities are the
    stored objects in the order of the keys. *)
Lemma getCapabilities_ids s :
  caps_wf s -> cap_id <$> getCapabilities s = map fst (capabilities s).
Proof.
  intros [_ Hids]. unfold getCapabilities, capability_values.
  induction (capabilities s) as [|[k c] m IH]; [done|]. cbn.
  pose proof (Hids k c ltac:(left)) as Hk.
  destruct (capHeap s !! c) as [cap|]; [|done]. cbn in *. injection Hk as ->.
  f_equal. apply IH. intros k' c' Hin. apply Hids. by right.
Qed.

Lemma getCapabilities_elem s c :
  c ∈ getCapabilities s
  <-> exists k r, (k, r) ∈ capabilities s /\ capHeap s !! r = Some c.
Proof.
  unfold getCapabilities, capability_values. rewrite list_elem_of_fmap. split.
  - intros ([r c'] & -> & Hin). apply list_elem_of_omap in Hin as ([k r'] & Hin & Hc).
    cbn in Hc. destruct (capHeap s !! r') eqn:E; [|done]. cbn in Hc.
    injection Hc as -> ->. by exists k, r.
  - intros (k & r & Hin & Hc). exists (r, c). split; [done|].
    apply list_elem_of_omap. exists (k, r). split; [done|]. cbn. by rewrite Hc.
Qed.

(** X14. The capability registry is keyed by id. In every reachable state
    no two registered capabilities have the same id. [registerCapability]
    is an upsert: afterwards the capability handed over is registered and
    is the only one with its id, the capabilities with other ids are the
    same as before, and the number of registered capabilities has grown
    by one if the id was new and not at all if it was taken. *)
Theorem registerCapability_upsert
    (cfg : ConfigUpdates) (l : list Action) (c : AgentCapability) :
  let s := run (new_controller cfg) l in
  let s' := registerCapability c s in
  NoDup (cap_id <$> getCapabilities s)
  /\ c ∈ getCapabilities s'
  /\ (forall c', c' ∈ getCapabilities s' -> cap_id c' = cap_id c -> c' = c)
  /\ (forall c', cap_id c' <> cap_id c ->
        c' ∈ getCapabilities s' <-> c' ∈ getCapabilities s)
  /\ length (getCapabilities s')
     = (if decide (cap_id c ∈ cap_id <$> getCapabilities s)
        then length (getCapabilities s) else S (length (getCapabilities s)))
  /\ st_capabilities_total (getStatus s') = length (getCapabilities s').
Proof.
  intros s s'.
  assert (Hwf : caps_wf s) by apply reachable_caps_wf.
  assert (Hwf' : caps_wf s') by apply (step_caps_wf s (RegisterCapability c) Hwf).
  pose proof (getCapabilities_ids s Hwf) as Hids.
  pose proof (getCapabilities_ids s' Hwf') as Hids'.
  assert (Hcaps : capabilities s'
                  = map_set (cap_id c) (length (capHeap s)) (capabilities s))
    by reflexivity.
  assert (Hheap : capHeap s' = capHeap s ++ [c]) by reflexivity.
  assert (Hnew : capHeap s' !! length (capHeap s) = Some c).
  { by rewrite Hheap, lookup_app_r, Nat.sub_diag by lia. }
  destruct Hwf as [Hnd Hkey]. destruct Hwf' as [Hnd' Hkey'].
  assert (Hvalid : forall k r, (k, r) ∈ capabilities s ->
                     capHeap s' !! r = capHeap s !! r).
  { intros k r Hin. rewrite Hheap. apply lookup_app_l, lookup_lt_is_Some.
    specialize (Hkey k r Hin). destruct (capHeap s !! r); [by eexists|done]. }
  split; [by rewrite Hids|]. split; [|split; [|split; [|split]]].
  - apply getCapabilities_elem. exists (cap_id c), (length (capHeap s)).
    split; [|done]. rewrite Hcaps. apply map_set_elem; [done|]. by left.
  - intros c' (k & r & Hin & Hc)%getCapabilities_elem Hid.
    pose proof (Hkey' k r Hin) as Hk. rewrite Hc in Hk. cbn in Hk. injection Hk as <-.
    rewrite Hcaps in Hin. apply map_set_elem in Hin as [[_ ->]|[Hne _]]; [|done|done].
    rewrite Hnew in Hc. by injection Hc.
  - intros c' Hne. rewrite !getCapabilities_elem. split.
    + intros (k & r & Hin & Hc).
      pose proof (Hkey' k r Hin) as Hk. rewrite Hc in Hk. cbn in Hk. injection Hk as <-.
      rewrite Hcaps in Hin. apply map_set_elem in Hin as [[? _]|[_ Hin]]; [done| |done].
      exists (cap_id c'), r. split; [done|]. by rewrite <- (Hvalid _ _ Hin).
    + intros (k & r & Hin & Hc).
      pose proof (Hkey k r Hin) as Hk. rewrite Hc in Hk. cbn in Hk. injection Hk as <-.
      exists (cap_id c'), r. split; [|by rewrite (Hvalid _ _ Hin)].
      rewrite Hcaps. apply map_set_elem; [done|]. by right.
  - rewrite <- (length_fmap cap_id (getCapabilities s')), Hids', Hcaps, map_set_keys.
    rewrite <- (length_fmap cap_id (getCapabilities s)), Hids.
    destruct (decide _); [done|]. rewrite length_app. cbn. lia.
  - cbn [getStatus st_capabilities_total].
    by rewrite <- (length_fmap cap_id (getCapabilities s')), Hids', length_fmap.
Qed.

(** ** A task that succeeds *)

(** X15. A dispatch followed by the return of the executor is a round trip
    for the capability: its load is back where it was before the
    dispatch, its success rate has moved a tenth of the way to one, its
    average latency is the mean of the old average and the time the task
    took, and no other capability object is touched. The task is
    [completed], assigned to that capability, stamped with both times and
    given a result; it has left the queue, the active map and the pending
    calls, and no other task object is touched. *)
Theorem dispatch_then_return_round_trip
    (env1 env2 : Env) (s : Controller) (r : nat) (q : list nat) (task : Task) :
  Z.of_nat (size (activeTasks s)) < maxConcurrentTasks (config s) ->
  taskQueue s = r :: q ->
  taskHeap s !! r = Some task ->
  candidates_of task s <> [] ->
  let s1 := processTaskQueue env1 s in
  let s2 := executeTask_resume (length (executing s)) Returns env2 s1 in
  exists c cap cap2 task2,
    (c, cap) ∈ candidates_of task s
    /\ capHeap s2 !! c = Some cap2
    /\ currentLoad cap2 = currentLoad cap
    /\ successRate cap2 = (successRate cap * 0.9 + 0.1)%Q
    /\ avgLatencyMs cap2
       = ((avgLatencyMs cap + inject_Z (now env2 - now env1)) / 2)%Q
    /\ cap_id cap2 = cap_id cap /\ enabled cap2 = enabled cap
    /\ (forall c', c' <> c -> capHeap s2 !! c' = capHeap s !! c')
    /\ taskHeap s2 !! r = Some task2
    /\ status task2 = completed
    /\ assignedTo task2 = Some (cap_id cap)
    /\ startedAt task2 = Some (now env1)
    /\ completedAt task2 = Some (now env2)
    /\ is_Some (result task2)
    /\ error task2 = error task /\ retryCount task2 = retryCount task
    /\ task_id task2 = task_id task
    /\ (forall r', r' <> r -> taskHeap s2 !! r' = taskHeap s !! r')
    /\ taskQueue s2 = q
    /\ activeTasks s2 = delete (task_id task) (activeTasks s)
    /\ executing s2 = executing s
    /\ rejected s2 = rejected s.
Proof.
  intros Hroom Hq Ht Hc s1 s2.
  destruct (processTaskQueue_dispatch env1 s r q task Hroom Hq Ht Hc)
    as (c & cap & ex & Hin & _ & Hs1).
  cbn zeta in Hs1. fold s1 in Hs1.
  destruct Hs1 as (_ & _ & Hq1 & Hth1 & Hch1 & Hact1 & Hex1 & Hxt & Hxc & Hxs & Hrej1 & _).
  pose proof (proj1 (candidates_of_elem task s c cap) Hin) as (_ & Hcap & _).
  set (task1 := set_startedAt (now env1)
                  (set_status running (set_assignedTo (cap_id cap) task))).
  assert (Hi : executing s1 !! length (executing s) = Some ex).
  { by rewrite Hex1, list_lookup_middle. }
  assert (Ht1 : taskHeap s1 !! ex_task ex = Some task1).
  { by rewrite Hxt, Hth1, !list_lookup_alter_eq, Ht. }
  destruct (executeTask_resume_return _ env2 s1 ex task1 Hi Ht1)
    as (_ & _ & Hq2 & Hth2 & Hch2 & Hact2 & Hex2 & Hrej2 & _).
  fold s2 in Hq2, Hth2, Hch2, Hact2, Hex2, Hrej2.
  rewrite Hxt in Hth2. rewrite Hxc, Hxs in Hch2.
  exists c, cap,
    (set_currentLoad (currentLoad cap + 1 - 1)
       (set_successRate (successRate cap * 0.9 + 0.1)%Q
          (set_avgLatencyMs
             ((avgLatencyMs cap + inject_Z (now env2 - now env1)) / 2)%Q
             (set_currentLoad (currentLoad cap + 1) cap)))),
    (set_result (ex_value ex)
       (set_completedAt (now env2) (set_status completed task1))).
  split; [done|].
  split; [by rewrite Hch2, Hch1, !list_lookup_alter_eq, Hcap|].
  split; [cbn; lia|].
  do 4 (split; [reflexivity|]).
  split; [intros c' Hne; by rewrite Hch2, Hch1, !list_lookup_alter_ne|].
  split; [by rewrite Hth2, Hth1, !list_lookup_alter_eq, Ht|].
  do 4 (split; [reflexivity|]).
  split; [by eexists|].
  do 3 (split; [reflexivity|]).
  split; [intros r' Hne; by rewrite Hth2, Hth1, !list_lookup_alter_ne|].
  split; [by rewrite Hq2|].
  split; [rewrite Hact2, Hact1; apply delete_insert_eq|].
  split; [by rewrite Hex2, Hex1, delete_middle, app_nil_r|].
  by rewrite Hrej2.
Qed.

(** A text task on the default capabilities. *)
Lemma dispatch_then_return_round_trip_witness :
  let s := snd (submitTask text [] no_options (env_at 1 "a")
                  (new_controller no_updates)) in
  let task := {| task_id := "1-a0"; task_type := text; task_input := [];
                 task_priority := normal; status := queued; assignedTo := None;
                 createdAt := 1; startedAt := None; completedAt := None;
                 result := None; error := None; retryCount := 0;
                 maxRetries := 3 |} in
  taskHeap s !! 0%nat = Some task
  /\ exists c cap cap2,
       (c, cap) ∈ candidates_of task s
       /\ capHeap (executeTask_resume 0 Returns (env_at 9 "c")
                     (processTaskQueue (env_at 2 "b") s)) !! c = Some cap2
       /\ currentLoad cap2 = currentLoad cap.
Proof.
  intros s task.
  assert (Ht : taskHeap s !! 0%nat = Some task) by (vm_compute; reflexivity).
  assert (Hroom : Z.of_nat (size (activeTasks s)) < maxConcurrentTasks (config s))
    by (vm_compute; reflexivity).
  assert (Hq : taskQueue s = [0%nat]) by (vm_compute; reflexivity).
  assert (Hc : candidates_of task s <> []) by (vm_compute; discriminate).
  split; [exact Ht|].
  destruct (dispatch_then_return_round_trip (env_at 2 "b") (env_at 9 "c")
              s 0 [] task Hroom Hq Ht Hc)
    as (c & cap & cap2 & task2 & H1 & H2 & H3 & _).
  exists c, cap, cap2. split; [exact H1|]. split; [exact H2|exact H3].
Defined.

(** ** A task that no capability can take *)

Lemma candidates_of_ext task task' s s' :
  task_type task' = task_type task ->
  capHeap s' = capHeap s -> capabilities s' = capabilities s ->
  candidates_of task' s' = candidates_of task s.
Proof.
  intros Htype Hheap Hcaps.
  unfold candidates_of, capability_values, matchesTaskType.
  by rewrite Htype, Hheap, Hcaps.
Qed.

Lemma list_alter_twice {A} (f g : A -> A) (i : nat) (l : list A) :
  alter f i (alter g i l) = alter (fun x => f (g x)) i l.
Proof.
  apply list_eq. intros j. destruct (decide (i = j)) as [->|Hne].
  - rewrite !list_lookup_alter_eq. by destruct (l !! j).
  - by rewrite !list_lookup_alter_ne.
Qed.

Lemma iter_incr_retryCount k task :
  retryCount (Nat.iter k incr_retryCount task) = retryCount task + Z.of_nat k
  /\ maxRetries (Nat.iter k incr_retryCount task) = maxRetries task
  /\ task_type (Nat.iter k incr_retryCount task) = task_type task
  /\ status (Nat.iter k incr_retryCount task) = status task
  /\ error (Nat.iter k incr_retryCount task) = error task
  /\ completedAt (Nat.iter k incr_retryCount task) = completedAt task.
Proof.
  induction k as [|k (IH1 & IH2 & IH3 & IH4 & IH5 & IH6)].
  - repeat split. change (Nat.iter 0 incr_retryCount task) with task. lia.
  - rewrite !Nat.iter_succ.
    cbn [incr_retryCount retryCount maxRetries task_type status error completedAt].
    repeat split; try done. lia.
Qed.

Lemma dispatch_ticks_requeue r : forall envs s task,
  taskQueue s = [r] ->
  taskHeap s !! r = Some task ->
  candidates_of task s = [] ->
  Z.of_nat (size (activeTasks s)) < maxConcurrentTasks (config s) ->
  retryCount task + Z.of_nat (length envs) <= maxRetries task ->
  dispatch_ticks envs s
  = with_taskHeap (alter (Nat.iter (length envs) incr_retryCount) r) s.
Proof.
  induction envs as [|env envs IH] using rev_ind; intros s task Hq Ht Hc Hroom Hk.
  - cbn. unfold with_taskHeap. destruct s; cbn. f_equal.
    symmetry. apply list_alter_id. done.
  - rewrite length_app in Hk. cbn in Hk.
    unfold dispatch_ticks. rewrite fold_left_app. cbn [fold_left].
    fold (dispatch_ticks envs s). rewrite (IH s task) by (done || lia).
    set (task' := Nat.iter (length envs) incr_retryCount task).
    set (s' := with_taskHeap (alter (Nat.iter (length envs) incr_retryCount) r) s).
    destruct (iter_incr_retryCount (length envs) task) as (Hrc & Hmr & Hty & _).
    assert (Ht' : taskHeap s' !! r = Some task').
    { subst s'. cbn. by rewrite list_lookup_alter_eq, Ht. }
    assert (Hc' : candidates_of task' s' = []).
    { rewrite <- Hc. by apply candidates_of_ext. }
    unfold processTaskQueue.
    rewrite (processTaskQueue_requeue env s' r [] task' Hroom Hq Ht' Hc')
      by (fold task' in Hrc, Hmr; lia).
    subst s'. unfold update_task, with_taskQueue, with_taskHeap. cbn.
    rewrite length_app, Nat.add_comm. cbn [length Nat.add].
    rewrite Hq, list_alter_twice. reflexivity.
Qed.

(** X16. A task that no capability can take uses up its retries in
    consecutive runs of the dispatch loop. Alone in the queue, it is put
    back with its retry count raised by one on each of the runs that
    [maxRetries] allows, and the run after the last fails it with the
    error "No capable agent available". It is never started, no capability
    and no other task is touched, its completion time is not set, and one
    [task_failed] event is all that is emitted. *)
Theorem unroutable_task_uses_up_its_retries
    (envs : list Env) (env : Env) (s : Controller) (r : nat) (task : Task) :
  taskQueue s = [r] ->
  taskHeap s !! r = Some task ->
  candidates_of task s = [] ->
  Z.of_nat (size (activeTasks s)) < maxConcurrentTasks (config s) ->
  retryCount task + Z.of_nat (length envs) = maxRetries task ->
  let s1 := dispatch_ticks envs s in
  let s2 := processTaskQueue env s1 in
  (forall k, (k <= length envs)%nat ->
     taskQueue (dispatch_ticks (take k envs) s) = [r]
     /\ status_of (dispatch_ticks (take k envs) s) r = Some (status task)
     /\ retryCount_of (dispatch_ticks (take k envs) s) r
        = Some (retryCount task + Z.of_nat k))
  /\ taskQueue s2 = []
  /\ status_of s2 r = Some failed
  /\ error_of s2 r = Some (Some "No capable agent available")
  /\ retryCount_of s2 r = Some (maxRetries task)
  /\ completedAt_of s2 r = Some (completedAt task)
  /\ (forall r', r' <> r -> taskHeap s2 !! r' = taskHeap s !! r')
  /\ capHeap s2 = capHeap s
  /\ activeTasks s2 = activeTasks s
  /\ executing s2 = executing s
  /\ decisions s2 = decisions s
  /\ events s2 = events s ++ [task_failed r].
Proof.
  intros Hq Ht Hc Hroom Hk s1 s2.
  split.
  { intros k Hle.
    rewrite (dispatch_ticks_requeue r (take k envs) s task Hq Ht Hc Hroom)
      by (rewrite length_take; lia).
    rewrite length_take, Nat.min_l by lia.
    destruct (iter_incr_retryCount k task) as (Hrc & _ & _ & Hst & _).
    unfold status_of, retryCount_of. cbn [taskQueue taskHeap with_taskHeap].
    rewrite list_lookup_alter_eq, Ht. cbn [fmap option_fmap option_map].
    by rewrite Hrc, Hst. }
  assert (Hs1 : s1 = with_taskHeap (alter (Nat.iter (length envs) incr_retryCount) r) s).
  { subst s1. apply (dispatch_ticks_requeue r envs s task Hq Ht Hc Hroom). lia. }
  set (task' := Nat.iter (length envs) incr_retryCount task) in *.
  destruct (iter_incr_retryCount (length envs) task)
    as (Hrc & Hmr & Hty & Hst & Her & Hca).
  fold task' in Hrc, Hmr, Hty, Hst, Her, Hca.
  assert (Ht' : taskHeap s1 !! r = Some task').
  { rewrite Hs1. cbn. by rewrite list_lookup_alter_eq, Ht. }
  assert (Hc' : candidates_of task' s1 = []).
  { rewrite <- Hc. apply candidates_of_ext; [done|by rewrite Hs1..]. }
  assert (Hroom' : Z.of_nat (size (activeTasks s1)) < maxConcurrentTasks (config s1))
    by (by rewrite Hs1).
  assert (Hq' : taskQueue s1 = [r]) by (by rewrite Hs1).
  assert (Hs2 : s2 = emit (task_failed r)
                       (update_task r (set_error "No capable agent available")
                          (update_task r (set_status failed)
                             (with_taskQueue (fun _ => []) s1)))).
  { subst s2. unfold processTaskQueue.
    rewrite (processTaskQueue_exhausted env s1 r [] task' Hroom' Hq' Ht' Hc') by lia.
    reflexivity. }
  rewrite Hs2, Hs1. unfold status_of, error_of, retryCount_of, completedAt_of.
  cbn [taskQueue taskHeap capHeap activeTasks executing decisions events
       emit update_task with_taskHeap with_taskQueue].
  rewrite !list_lookup_alter_eq, Ht. cbn [fmap option_fmap option_map].
  split; [done|]. split; [done|]. split; [done|].
  split; [cbn; f_equal; fold task'; lia|].
  split; [cbn; f_equal; fold task'; done|].
  split; [intros r' Hne; by rewrite !list_lookup_alter_ne|].
  done.
Qed.

(** A voice task, with the voice capability of the defaults disabled. *)
Lemma unroutable_task_uses_up_its_retries_witness :
  let s := run (new_controller no_updates)
             [RegisterCapability voice_disabled;
              SubmitTask voice [] (with_maxRetries 2) (env_at 1 "a")] in
  let task := {| task_id := "1-a0"; task_type := voice; task_input := [];
                 task_priority := normal; status := queued; assignedTo := None;
                 createdAt := 1; startedAt := None; completedAt := None;
                 result := None; error := None; retryCount := 0;
                 maxRetries := 2 |} in
  let envs := [env_at 2 "b"; env_at 3 "c"] in
  taskHeap s !! 0%nat = Some task
  /\ candidates_of task s = []
  /\ status_of (processTaskQueue (env_at 4 "d") (dispatch_ticks envs s)) 0
     = Some failed.
Proof.
  intros s task envs.
  assert (Hq : taskQueue s = [0%nat]) by (vm_compute; reflexivity).
  assert (Ht : taskHeap s !! 0%nat = Some task) by (vm_compute; reflexivity).
  assert (Hc : candidates_of task s = []) by (vm_compute; reflexivity).
  assert (Hroom : Z.of_nat (size (activeTasks s)) < maxConcurrentTasks (config s))
    by (vm_compute; reflexivity).
  assert (Hk : retryCount task + Z.of_nat (length envs) = maxRetries task)
    by (vm_compute; reflexivity).
  split; [exact Ht|]. split; [exact Hc|].
  exact (proj1 (proj2 (proj2
    (unroutable_task_uses_up_its_retries envs (env_at 4 "d") s 0 task
       Hq Ht Hc Hroom Hk)))).
Defined.

(** ** Start, stop and the two timers *)

Lemma lifecycle_kept_refl s s' :
  isRunning s' = isRunning s -> healthIntervals s' = healthIntervals s ->
  lifecycle_kept s s'.
Proof. by split. Qed.

Lemma lifecycle_kept_trans s1 s2 s3 :
  lifecycle_kept s1 s2 -> lifecycle_kept s2 s3 -> lifecycle_kept s1 s3.
Proof. intros [H1 H2] [H3 H4]. split; congruence. Qed.

Lemma makeDecision_lifecycle type why input output env i s :
  lifecycle_kept s (snd (makeDecision type why input output env i s)).
Proof. split; decision_frame. Qed.

Lemma setMode_lifecycle m env s : lifecycle_kept s (setMode m env s).
Proof.
  unfold setMode. eapply lifecycle_kept_trans;
    [|apply lifecycle_kept_refl; cbn [isRunning healthIntervals emit]; reflexivity].
  eapply lifecycle_kept_trans; [|apply makeDecision_lifecycle].
  apply lifecycle_kept_refl; by destruct m.
Qed.

Lemma selectCapability_lifecycle task env s :
  lifecycle_kept s (snd (selectCapability task env s)).
Proof.
  unfold selectCapability. destruct (sort_by_score _); [by apply lifecycle_kept_refl|].
  destruct (_ && _)%bool; [|by apply lifecycle_kept_refl].
  apply makeDecision_lifecycle.
Qed.

Lemma executeTask_begin_lifecycle r c env s :
  lifecycle_kept s (executeTask_begin r c env s).
Proof.
  unfold executeTask_begin.
  destruct (taskHeap s !! r) as [task|]; [|by apply lifecycle_kept_refl].
  destruct (capHeap s !! c) as [cap|]; [|by apply lifecycle_kept_refl].
  destruct (cap_type cap); try (by apply lifecycle_kept_refl).
  unfold executeAutonomousTask. cbn [fst snd].
  eapply lifecycle_kept_trans; [apply makeDecision_lifecycle|].
  by apply lifecycle_kept_refl.
Qed.

Lemma processTaskQueue_lifecycle env s : lifecycle_kept s (processTaskQueue env s).
Proof.
  unfold processTaskQueue, processTaskQueue_pop.
  case_bool_decide; [by apply lifecycle_kept_refl|].
  destruct (shift (taskQueue s)) as [[r rest]|]; [|by apply lifecycle_kept_refl].
  cbn [taskHeap with_taskQueue].
  destruct (taskHeap s !! r) as [task|]; [|by apply lifecycle_kept_refl].
  cbn zeta.
  pose proof (selectCapability_lifecycle task env (with_taskQueue (fun _ => rest) s))
    as Hsel.
  destruct (fst (selectCapability task env _)) as [c|].
  - cbn [snd]. eapply lifecycle_kept_trans; [|apply executeTask_begin_lifecycle].
    eapply lifecycle_kept_trans; [|apply lifecycle_kept_refl; reflexivity]. exact Hsel.
  - case_bool_decide; cbn [snd];
      (eapply lifecycle_kept_trans; [|apply lifecycle_kept_refl; reflexivity]);
      exact Hsel.
Qed.

Lemma insertTaskByPriority_lifecycle r s : lifecycle_kept s (insertTaskByPriority r s).
Proof. split; insert_frame. Qed.

Lemma handleTaskError_lifecycle r c err env s :
  lifecycle_kept s (handleTaskError r c err env s).
Proof.
  unfold handleTaskError. cbn [taskHeap update_cap with_capHeap].
  destruct (taskHeap s !! r) as [task|]; [|by apply lifecycle_kept_refl].
  case_bool_decide; [|by apply lifecycle_kept_refl].
  assert (Hins : forall s0, lifecycle_kept s0 (log ("Retrying task " +:+ task_id task
                    +:+ " (attempt " +:+ pretty (retryCount task + 1) +:+ ")")
                    (insertTaskByPriority r s0))).
  { intros s0. eapply lifecycle_kept_trans; [apply insertTaskByPriority_lifecycle|].
    by apply lifecycle_kept_refl. }
  match goal with |- context [selfHealing ?c] => destruct (selfHealing c) end.
  - eapply lifecycle_kept_trans; [|apply makeDecision_lifecycle].
    eapply lifecycle_kept_trans; [|apply Hins]. by apply lifecycle_kept_refl.
  - eapply lifecycle_kept_trans; [|apply Hins]. by apply lifecycle_kept_refl.
Qed.

Lemma executeTask_resume_lifecycle i o env s :
  lifecycle_kept s (executeTask_resume i o env s).
Proof.
  unfold executeTask_resume, executeTask_finally.
  destruct (executing s !! i) as [ex|]; [|by apply lifecycle_kept_refl].
  destruct o; cbn.
  - match goal with |- context [alter ?f ?r ?h !! ?k] =>
      destruct (alter f r h !! k) end; by apply lifecycle_kept_refl.
  - match goal with |- context [taskHeap s !! ?k] =>
      destruct (taskHeap s !! k) end; by apply lifecycle_kept_refl.
Qed.

Lemma monitor_capability_lifecycle env acc c :
  lifecycle_kept (snd acc) (snd (monitor_capability env acc c)).
Proof.
  destruct acc as [k s]. unfold monitor_capability. cbn [snd].
  destruct (capHeap s !! c) as [cap|]; [|by apply lifecycle_kept_refl].
  destruct (_ && _)%bool; [|by apply lifecycle_kept_refl]. cbn [snd].
  eapply lifecycle_kept_trans; [|apply lifecycle_kept_refl; reflexivity].
  eapply lifecycle_kept_trans; [|apply makeDecision_lifecycle].
  by apply lifecycle_kept_refl.
Qed.

Lemma monitor_capabilities_lifecycle env caps : forall acc,
  lifecycle_kept (snd acc) (snd (fold_left (monitor_capability env) caps acc)).
Proof.
  induction caps as [|c caps IH]; intros acc; [by apply lifecycle_kept_refl|].
  cbn [fold_left].
  eapply lifecycle_kept_trans; [apply monitor_capability_lifecycle|apply IH].
Qed.

Lemma timeout_tasks_lifecycle stale : forall s,
  lifecycle_kept s (fold_left timeout_task stale s).
Proof.
  induction stale as [|r stale IH]; intros s; [by apply lifecycle_kept_refl|].
  cbn [fold_left]. eapply lifecycle_kept_trans; [|apply IH].
  by apply lifecycle_kept_refl.
Qed.

Lemma monitorHealth_lifecycle env s : lifecycle_kept s (monitorHealth env s).
Proof.
  unfold monitorHealth. cbn zeta.
  eapply lifecycle_kept_trans;
    [apply (monitor_capabilities_lifecycle env (map snd (capabilities s)) (O, s))|].
  eapply lifecycle_kept_trans; [apply timeout_tasks_lifecycle|].
  by apply lifecycle_kept_refl.
Qed.

Lemma submitTask_lifecycle type input options env s :
  lifecycle_kept s (snd (submitTask type input options env s)).
Proof.
  rewrite submitTask_unfold. cbn [snd].
  eapply lifecycle_kept_trans; [|apply lifecycle_kept_refl; reflexivity].
  eapply lifecycle_kept_trans; [|apply insertTaskByPriority_lifecycle].
  destruct (_ || _)%bool; by apply lifecycle_kept_refl.
Qed.

Lemma cancelTask_lifecycle taskId s : lifecycle_kept s (snd (cancelTask taskId s)).
Proof.
  unfold cancelTask.
  destruct (getTask taskId s) as [r|]; [|by apply lifecycle_kept_refl].
  destruct (taskHeap s !! r) as [task|]; [|by apply lifecycle_kept_refl].
  destruct (_ && _)%bool; by apply lifecycle_kept_refl.
Qed.

Lemma executeTask_catch_lifecycle i env s : lifecycle_kept s (executeTask_catch i env s).
Proof.
  unfold executeTask_catch. destruct (rejected s !! i); [|by apply lifecycle_kept_refl].
  eapply lifecycle_kept_trans; [|apply handleTaskError_lifecycle].
  by apply lifecycle_kept_refl.
Qed.

Lemma reenable_lifecycle i s : lifecycle_kept s (reenable i s).
Proof. unfold reenable. destruct (cooldowns s !! i); by apply lifecycle_kept_refl. Qed.

Lemma step_lifecycle s a :
  a <> Start -> a <> Stop -> lifecycle_kept s (step s a).
Proof.
  intros Hstart Hstop. destruct a; cbn [step]; [done|done|..].
  - apply setMode_lifecycle.
  - apply setMode_lifecycle.
  - by apply lifecycle_kept_refl.
  - apply submitTask_lifecycle.
  - apply cancelTask_lifecycle.
  - by apply lifecycle_kept_refl.
  - by apply lifecycle_kept_refl.
  - destruct (isRunning s); [apply processTaskQueue_lifecycle|by apply lifecycle_kept_refl].
  - apply executeTask_resume_lifecycle.
  - apply executeTask_catch_lifecycle.
  - destruct (healthIntervals s); [by apply lifecycle_kept_refl|].
    apply monitorHealth_lifecycle.
  - apply reenable_lifecycle.
Qed.

Lemma step_healthIntervals s a :
  (healthIntervals s <= healthIntervals (step s a))%nat.
Proof.
  assert (Hcase : a = Start \/ a = Stop \/ (a <> Start /\ a <> Stop)).
  { destruct a; auto; right; right; split; discriminate. }
  destruct Hcase as [->|[->|[Hstart Hstop]]].
  - cbn [step]. unfold start. destruct (isRunning s); cbn; lia.
  - cbn. lia.
  - destruct (step_lifecycle s a Hstart Hstop) as [_ ->]. lia.
Qed.

Lemma run_healthIntervals l : forall s,
  (healthIntervals s <= healthIntervals (run s l))%nat.
Proof.
  induction l as [|a l IH]; intros s; [cbn; lia|].
  cbn [run fold_left]. etransitivity; [apply step_healthIntervals|apply IH].
Qed.

(** X17. The controller runs exactly from a [start] to the next [stop]:
    no other call, tick or callback changes the running flag. [start] on a
    running controller does nothing at all. The health timer, however, is
    never cleared: whatever happens, the number of health timers does not
    go down, [stop] leaves them in place, and every [start] of a stopped
    controller adds one more. *)
Theorem health_timers_are_never_cleared (s : Controller) (l : list Action) :
  (healthIntervals s <= healthIntervals (run s l))%nat
  /\ (forall a, a <> Start -> a <> Stop ->
        isRunning (step s a) = isRunning s
        /\ healthIntervals (step s a) = healthIntervals s)
  /\ isRunning (start s) = true
  /\ (isRunning s = true -> start s = s)
  /\ (isRunning s = false -> healthIntervals (start s) = S (healthIntervals s))
  /\ isRunning (stop s) = false
  /\ healthIntervals (stop s) = healthIntervals s
  /\ healthIntervals (start (stop s)) = S (healthIntervals s).
Proof.
  split; [apply run_healthIntervals|].
  split; [intros a Hstart Hstop; apply (step_lifecycle s a Hstart Hstop)|].
  split; [unfold start; by destruct (isRunning s) eqn:E|].
  split; [intros H; unfold start; by rewrite H|].
  split; [intros H; unfold start; by rewrite H|].
  done.
Qed.

(** ** The decision history *)

(** X18. [getDecisions(limit)] returns the end of the decision log, oldest
    first: the last [limit] decisions when the log holds more than that
    and the whole log otherwise. A limit of zero does not return the
    empty list but the whole log. *)
Theorem getDecisions_returns_the_latest (limit : nat) (s : Controller) :
  getDecisions limit s `suffix_of` decisions s
  /\ length (getDecisions limit s)
     = (if decide (limit = 0%nat) then length (decisions s)
        else Nat.min limit (length (decisions s)))
  /\ getDecisions 0 s = decisions s.
Proof.
  unfold getDecisions. destruct limit as [|n].
  - done.
  - rewrite decide_False by done. rewrite length_drop.
    split; [apply suffix_drop|]. split; [lia|done].
Qed.

(** ** The identity of a task *)

Lemma same_task_refl t : same_task t t.
Proof. unfold same_task. repeat split. lia. Qed.

Lemma tasks_kept_refl h : tasks_kept h h.
Proof. intros r t Ht. exists t. split; [done|apply same_task_refl]. Qed.

Lemma tasks_kept_eq h h' : h' = h -> tasks_kept h h'.
Proof. intros ->. apply tasks_kept_refl. Qed.

Lemma tasks_kept_trans h1 h2 h3 :
  tasks_kept h1 h2 -> tasks_kept h2 h3 -> tasks_kept h1 h3.
Proof.
  intros H12 H23 r t Ht.
  destruct (H12 r t Ht) as (t2 & Ht2 & E1 & E2 & E3 & E4 & E5 & E6 & E7).
  destruct (H23 r t2 Ht2) as (t3 & Ht3 & F1 & F2 & F3 & F4 & F5 & F6 & F7).
  exists t3. split; [done|]. unfold same_task.
  repeat split; try congruence. lia.
Qed.

Lemma tasks_kept_alter f i h :
  (forall t, same_task t (f t)) -> tasks_kept h (alter f i h).
Proof.
  intros Hf r t Ht. destruct (decide (i = r)) as [->|Hne].
  - exists (f t). split; [by rewrite list_lookup_alter_eq, Ht|apply Hf].
  - exists t. split; [by rewrite list_lookup_alter_ne|].
    apply same_task_refl.
Qed.

Lemma tasks_kept_app h added : tasks_kept h (h ++ added).
Proof.
  intros r t Ht. exists t. split; [by apply lookup_app_l_Some|].
  apply same_task_refl.
Qed.

Ltac keeps_task :=
  let t := fresh in intros t; unfold same_task; cbn; repeat split; lia.

Ltac tasks_altered :=
  repeat (eapply tasks_kept_trans; [|apply tasks_kept_alter; keeps_task]);
  apply tasks_kept_refl.

Lemma submitTask_tasks_kept type input options env s :
  tasks_kept (taskHeap s) (taskHeap (snd (submitTask type input options env s))).
Proof.
  destruct (submitTask_spec type input options env s) as (_ & -> & _).
  apply tasks_kept_app.
Qed.

Lemma cancelTask_tasks_kept taskId s :
  tasks_kept (taskHeap s) (taskHeap (snd (cancelTask taskId s))).
Proof.
  unfold cancelTask.
  destruct (getTask taskId s) as [r|]; [|apply tasks_kept_refl].
  destruct (taskHeap s !! r) as [task|]; [|apply tasks_kept_refl].
  destruct (_ && _)%bool; [|apply tasks_kept_refl]. cbn.
  tasks_altered.
Qed.

Lemma processTaskQueue_tasks_kept env s :
  tasks_kept (taskHeap s) (taskHeap (processTaskQueue env s)).
Proof.
  unfold processTaskQueue.
  destruct (decide (maxConcurrentTasks (config s) <= Z.of_nat (size (activeTasks s))))
    as [Hfull|Hroom];
    [rewrite processTaskQueue_pop_idle; [apply tasks_kept_refl|by left]|].
  destruct (taskQueue s) as [|r q] eqn:Hq;
    [rewrite processTaskQueue_pop_idle; [apply tasks_kept_refl|by right]|].
  destruct (taskHeap s !! r) as [task|] eqn:Ht.
  - destruct (decide (candidates_of task s = [])) as [Hc|Hc].
    + destruct (decide (retryCount task < maxRetries task)).
      * rewrite (processTaskQueue_requeue env s r q task) by (done || lia). cbn.
        tasks_altered.
      * rewrite (processTaskQueue_exhausted env s r q task) by (done || lia). cbn.
        tasks_altered.
    + destruct (processTaskQueue_dispatch env s r q task)
        as (c & cap & ex & _ & _ & Hs); [lia|done..|].
      cbn zeta in Hs. destruct Hs as (_ & _ & _ & Hheap & _).
      unfold processTaskQueue in Hheap. rewrite Hheap.
      tasks_altered.
  - unfold processTaskQueue_pop. rewrite bool_decide_eq_false_2, Hq by lia.
    cbn. rewrite Ht. apply tasks_kept_refl.
Qed.

Lemma executeTask_resume_tasks_kept i o env s :
  tasks_kept (taskHeap s) (taskHeap (executeTask_resume i o env s)).
Proof.
  unfold executeTask_resume, executeTask_finally.
  destruct (executing s !! i) as [ex|]; [|apply tasks_kept_refl].
  destruct o; cbn [taskHeap update_task update_cap with_capHeap with_taskHeap
                   with_executing with_rejected emit log].
  - match goal with |- context [match ?h !! ?k with _ => _ end] => destruct (h !! k) end;
      cbn; tasks_altered.
  - destruct (taskHeap s !! ex_task ex); apply tasks_kept_refl.
Qed.

Lemma handleTaskError_tasks_kept r c err env s :
  tasks_kept (taskHeap s) (taskHeap (handleTaskError r c err env s)).
Proof.
  destruct (taskHeap s !! r) as [task|] eqn:Ht.
  - destruct (decide (retryCount task < maxRetries task)) as [Hretry|Hretry].
    + destruct (handleTaskError_retry r c err env s task Ht Hretry)
        as (_ & _ & -> & _).
      tasks_altered.
    + destruct (handleTaskError_exhausted r c err env s task Ht Hretry)
        as (_ & _ & -> & _).
      tasks_altered.
  - unfold handleTaskError. cbn [taskHeap update_cap with_capHeap]. rewrite Ht.
    apply tasks_kept_refl.
Qed.

Lemma timeout_tasks_tasks_kept stale : forall s,
  tasks_kept (taskHeap s) (taskHeap (fold_left timeout_task stale s)).
Proof.
  induction stale as [|r stale IH]; intros s; [apply tasks_kept_refl|].
  cbn [fold_left]. eapply tasks_kept_trans; [|apply IH].
  unfold timeout_task. cbn. tasks_altered.
Qed.

Lemma monitorHealth_tasks_kept env s :
  tasks_kept (taskHeap s) (taskHeap (monitorHealth env s)).
Proof.
  unfold monitorHealth. cbn [taskHeap emit with_taskQueue].
  eapply tasks_kept_trans; [|apply timeout_tasks_tasks_kept].
  apply tasks_kept_eq.
  apply (monitor_capabilities_taskHeap env (map snd (capabilities s)) (O, s)).
Qed.

Lemma step_tasks_kept s a : tasks_kept (taskHeap s) (taskHeap (step s a)).
Proof.
  destruct a; cbn [step].
  - apply tasks_kept_eq. unfold start. by destruct (isRunning s).
  - apply tasks_kept_refl.
  - apply tasks_kept_eq, setMode_taskHeap.
  - apply tasks_kept_eq, setMode_taskHeap.
  - apply tasks_kept_refl.
  - apply submitTask_tasks_kept.
  - apply cancelTask_tasks_kept.
  - apply tasks_kept_refl.
  - apply tasks_kept_refl.
  - destruct (isRunning s); [apply processTaskQueue_tasks_kept|apply tasks_kept_refl].
  - apply executeTask_resume_tasks_kept.
  - unfold executeTask_catch. destruct (rejected s !! i); [|apply tasks_kept_refl].
    eapply tasks_kept_trans; [|apply handleTaskError_tasks_kept].
    apply tasks_kept_refl.
  - destruct (healthIntervals s); [apply tasks_kept_refl|apply monitorHealth_tasks_kept].
  - apply tasks_kept_eq. unfold reenable. by destruct (cooldowns s !! i).
Qed.

Lemma run_tasks_kept l : forall s, tasks_kept (taskHeap s) (taskHeap (run s l)).
Proof.
  induction l as [|a l IH]; intros s; [apply tasks_kept_refl|].
  cbn [run fold_left]. eapply tasks_kept_trans; [apply step_tasks_kept|apply IH].
Qed.

(** X19. A task object stays what it was at submission: whatever is
    called or happens afterwards, retries, timeouts, cancellation and
    changes of configuration included, the object is still there with the
    same id, type, input, priority, creation time and [maxRetries], and
    its retry count has not gone down. *)
Theorem task_identity_is_stable
    (s : Controller) (l : list Action) (r : nat) (t : Task) :
  taskHeap s !! r = Some t ->
  exists t',
    taskHeap (run s l) !! r = Some t'
    /\ task_id t' = task_id t /\ task_type t' = task_type t
    /\ task_input t' = task_input t /\ task_priority t' = task_priority t
    /\ createdAt t' = createdAt t /\ maxRetries t' = maxRetries t
    /\ retryCount t <= retryCount t'.
Proof. apply run_tasks_kept. Qed.

(** A submitted task after a configuration update, a dispatch and a
    thrown error. *)
Lemma task_identity_is_stable_witness :
  let s := snd (submitTask text [] no_options (env_at 1 "a")
                  (new_controller no_updates)) in
  let l := [Start; DispatchTick (env_at 2 "b"); Settle 0 (Throws "boom") (env_at 3 "c");
            Catch 0 (env_at 4 "d")] in
  exists t t',
    taskHeap s !! 0%nat = Some t
    /\ taskHeap (run s l) !! 0%nat = Some t'
    /\ task_id t' = task_id t /\ maxRetries t' = maxRetries t.
Proof.
  intros s l.
  assert (Ht : taskHeap s !! 0%nat
               = Some {| task_id := "1-a0"; task_type := text; task_input := [];
                         task_priority := normal; status := queued; assignedTo := None;
                         createdAt := 1; startedAt := None; completedAt := None;
                         result := None; error := None; retryCount := 0;
                         maxRetries := 3 |}) by (vm_compute; reflexivity).
  destruct (task_identity_is_stable s l 0 _ Ht)
    as (t' & Ht' & Hid & _ & _ & _ & _ & Hmax & _).
  eexists _, t'. split; [exact Ht|]. split; [exact Ht'|]. split; [exact Hid|exact Hmax].
Defined.

(** ** Services from the environment *)

Import AutoConfigEnv.

Lemma load_variable_events env ty acc var :
  config_events (snd (load_variable env ty acc var)) = config_events (snd acc).
Proof. unfold load_variable. by destruct (truthy (env var)). Qed.

Lemma load_variable_lookup_ne env ty acc var k :
  (forall value, truthy (env var) = Some value ->
     k <> svc_id (env_endpoint ty var value)) ->
  services (snd (load_variable env ty acc var)) !! k = services (snd acc) !! k.
Proof.
  intros Hk. unfold load_variable. destruct (truthy (env var)) as [value|]; [|done].
  cbn [snd services]. apply lookup_insert_ne. intros E. by apply (Hk value).
Qed.

Lemma load_variable_lookup env ty acc var value :
  truthy (env var) = Some value ->
  services (snd (load_variable env ty acc var)) !! svc_id (env_endpoint ty var value)
  = Some (env_endpoint ty var value).
Proof.
  intros Hv. unfold load_variable. rewrite Hv. cbn [snd services].
  apply lookup_insert_eq.
Qed.

Lemma load_variable_lines env ty acc var :
  fst (load_variable env ty acc var)
  = fst acc ++ match truthy (env var) with
               | Some value => [log_found (type_name ty) var value]
               | None => []
               end.
Proof.
  unfold load_variable. destruct (truthy (env var)); [done|by rewrite app_nil_r].
Qed.

Lemma load_variables_spec env : forall (l : list (ServiceType * string)) acc,
  NoDup (map (fun p => svc_id (env_endpoint (fst p) (snd p) "")) l) ->
  let acc' := fold_left (fun acc p => load_variable env (fst p) acc (snd p)) l acc in
  (forall ty var value, (ty, var) ∈ l -> truthy (env var) = Some value ->
     services (snd acc') !! svc_id (env_endpoint ty var value)
     = Some (env_endpoint ty var value)
     /\ log_found (type_name ty) var value ∈ fst acc')
  /\ (forall k,
        (forall ty var value, (ty, var) ∈ l -> truthy (env var) = Some value ->
           k <> svc_id (env_endpoint ty var value)) ->
        services (snd acc') !! k = services (snd acc) !! k)
  /\ config_events (snd acc') = config_events (snd acc)
  /\ (forall line, line ∈ fst acc -> line ∈ fst acc').
Proof.
  induction l as [|[ty0 var0] l IH]; intros acc Hnd; cbn [fold_left].
  - split; [intros ty var value Hin; by apply elem_of_nil in Hin|]. done.
  - cbn [map fst snd] in Hnd. apply NoDup_cons in Hnd as [Hnotin Hnd].
    destruct (IH (load_variable env ty0 acc var0) Hnd) as (IH1 & IH2 & IH3 & IH4).
    cbn zeta in IH1, IH2, IH3, IH4. cbn [fst snd] in *.
    split; [|split; [|split]].
    + intros ty var value [[= -> ->]|Hin]%elem_of_cons Hv.
      * split.
        -- rewrite IH2; [by apply load_variable_lookup|].
           intros ty' var' value' Hin' _ E. apply Hnotin.
           apply list_elem_of_In, in_map_iff. exists (ty', var').
           split; [symmetry; exact E|by apply list_elem_of_In].
        -- apply IH4. rewrite load_variable_lines, Hv.
           apply elem_of_app. right. by apply list_elem_of_singleton.
      * by apply IH1.
    + intros k Hk. rewrite IH2.
      * apply load_variable_lookup_ne. intros value Hv.
        apply (Hk ty0 var0 value); [apply elem_of_cons; by left|done].
      * intros ty var value Hin Hv. apply (Hk ty var value); [|done].
        apply elem_of_cons. by right.
    + by rewrite IH3, load_variable_events.
    + intros line Hin. apply IH4. rewrite load_variable_lines.
      apply elem_of_app. by left.
Qed.

Lemma mapped_variables_NoDup :
  NoDup (map (fun p => svc_id (env_endpoint (fst p) (snd p) "")) mapped_variables).
Proof. apply (bool_decide_unpack _). by vm_compute. Qed.

(** X20. [loadFromEnvironment] registers one service for each variable of
    [ENV_VAR_MAPPINGS] that is set and not empty: under an id made of the
    service type and the lower-cased name of the variable, with the value
    of the variable as its url, status [unknown] and not auto-discovered,
    and it logs the value. Every other entry of the registry is left as
    it was and no [config_event] is emitted. [COMPOSIO_API_KEY] being one
    of the mapped variables, an API key set there becomes the url of a
    poke service and is written to the log. *)
Theorem loadFromEnvironment_registers_what_is_set (env : ProcessEnv) (m : Manager) :
  let out := loadFromEnvironment env m in
  (forall ty var value,
     (ty, var) ∈ mapped_variables -> truthy (env var) = Some value ->
     services (snd out) !! (type_name ty +:+ "-env-" +:+ toLowerCase var)
     = Some {| svc_id := type_name ty +:+ "-env-" +:+ toLowerCase var;
               svc_name := type_name ty +:+ " (" +:+ var +:+ ")";
               svc_type := ty; url := value; svc_status := unknown;
               lastCheck := None; latencyMs := None; svc_config := None;
               autoDiscovered := Some false |}
     /\ log_found (type_name ty) var value ∈ fst out)
  /\ (forall k,
        (forall ty var, (ty, var) ∈ mapped_variables -> is_Some (truthy (env var)) ->
           k <> type_name ty +:+ "-env-" +:+ toLowerCase var) ->
        services (snd out) !! k = services m !! k)
  /\ config_events (snd out) = config_events m
  /\ (forall key, truthy (env "COMPOSIO_API_KEY") = Some key ->
        exists e, services (snd out) !! "poke-env-composio_api_key" = Some e
                  /\ url e = key /\ svc_type e = svc_poke
                  /\ log_found "poke" "COMPOSIO_API_KEY" key ∈ fst out).
Proof.
  intros out.
  destruct (load_variables_spec env mapped_variables ([log_loading], m)
              mapped_variables_NoDup) as (H1 & H2 & H3 & _).
  cbn zeta in H1, H2, H3.
  assert (Hout : out = (fst (fold_left (fun acc p => load_variable env (fst p) acc (snd p))
                               mapped_variables ([log_loading], m)) ++ key_lines env,
                        snd (fold_left (fun acc p => load_variable env (fst p) acc (snd p))
                               mapped_variables ([log_loading], m))))
    by reflexivity.
  assert (Hall : forall ty var value,
     (ty, var) ∈ mapped_variables -> truthy (env var) = Some value ->
     services (snd out) !! svc_id (env_endpoint ty var value)
     = Some (env_endpoint ty var value)
     /\ log_found (type_name ty) var value ∈ fst out).
  { intros ty var value Hin Hv. destruct (H1 ty var value Hin Hv) as [Hs Hl].
    rewrite Hout. cbn [fst snd]. split; [exact Hs|].
    apply elem_of_app. by left. }
  split; [exact Hall|]. split; [|split].
  - intros k Hk. rewrite Hout. cbn [fst snd]. apply H2.
    intros ty var value Hin Hv. apply (Hk ty var Hin). by rewrite Hv.
  - rewrite Hout. cbn [fst snd]. exact H3.
  - intros key Hkey.
    destruct (Hall svc_poke "COMPOSIO_API_KEY" key) as [Hs Hl]; [|exact Hkey|].
    { apply (bool_decide_unpack _). by vm_compute. }
    exists (env_endpoint svc_poke "COMPOSIO_API_KEY" key).
    split; [exact Hs|]. split; [reflexivity|]. split; [reflexivity|exact Hl].
Qed.

(** ** The status summary of the service registry *)

Lemma filter_length_perm {A} (f : A -> bool) (l l' : list A) :
  l ≡ₚ l' -> length (List.filter f l) = length (List.filter f l').
Proof.
  induction 1 as [|x l l' _ IH|x y l|l1 l2 l3 _ IH1 _ IH2]; cbn.
  - done.
  - destruct (f x); cbn; by rewrite IH.
  - by destruct (f x), (f y).
  - by rewrite IH1.
Qed.

Lemma filter_cons_length {A} (f : A -> bool) (x : A) (l : list A) :
  length (List.filter f (x :: l))
  = ((if f x then 1 else 0) + length (List.filter f l))%nat.
Proof. cbn. by destruct (f x). Qed.

Lemma getServices_insert_new k e m :
  services m !! k = None ->
  snd <$> map_to_list (<[k := e]> (services m)) ≡ₚ e :: getServices m.
Proof.
  intros Hnew. unfold getServices. by rewrite map_to_list_insert.
Qed.

Lemma getServices_insert_old k e old m :
  services m !! k = Some old ->
  snd <$> map_to_list (<[k := e]> (services m))
    ≡ₚ e :: (snd <$> map_to_list (delete k (services m)))
  /\ getServices m ≡ₚ old :: (snd <$> map_to_list (delete k (services m))).
Proof.
  intros Hold. unfold getServices. split.
  - rewrite <- insert_delete_eq.
    by rewrite map_to_list_insert by apply lookup_delete_eq.
  - rewrite <- (insert_delete_id (services m) k old Hold) at 1.
    by rewrite map_to_list_insert by apply lookup_delete_eq.
Qed.

(** X21. A service registered by hand counts as neither healthy nor
    unhealthy. [registerService] under a new id raises the total of
    [getStatus] by one and leaves both counts as they were; under an id
    that is taken it leaves the total as it was and takes the service it
    replaces out of the count it was in, so that a healthy service that is
    registered again is no longer reported healthy. The endpoint stored is
    listed under its type and not among the healthy services. *)
Theorem registerService_resets_health
    (service : ServiceInput) (env : Env) (m : Manager) :
  let m' := AutoConfig.registerService service env m in
  let before := getStatus_services m in
  let after := getStatus_services m' in
  let was (st : ServiceStatus) : nat :=
    match services m !! in_id service with
    | Some old => if bool_decide (svc_status old = st) then 1%nat else 0%nat
    | None => 0%nat
    end in
  sc_total after
  = match services m !! in_id service with
    | Some _ => sc_total before
    | None => S (sc_total before)
    end
  /\ (sc_healthy after + was healthy = sc_healthy before)%nat
  /\ (sc_unhealthy after + was unhealthy = sc_unhealthy before)%nat
  /\ endpoint_of service ∈ getServicesByType (in_type service) m'
  /\ endpoint_of service ∉ getHealthyServices m'.
Proof.
  intros m' before after was.
  assert (Hm' : getServices m'
                = snd <$> map_to_list (<[in_id service := endpoint_of service]> (services m)))
    by reflexivity.
  assert (Hin : endpoint_of service ∈ getServices m').
  { rewrite Hm'. apply list_elem_of_fmap. exists (in_id service, endpoint_of service).
    split; [done|]. apply elem_of_map_to_list, lookup_insert_eq. }
  split; [|split; [|split; [|split]]].
  - subst before after. unfold getStatus_services. cbn [sc_total]. rewrite Hm'.
    destruct (services m !! in_id service) as [old|] eqn:E.
    + destruct (getServices_insert_old _ (endpoint_of service) old m E) as [H1 H2].
      by rewrite H1, H2.
    + by rewrite (getServices_insert_new _ (endpoint_of service) m E).
  - subst before after was. unfold getStatus_services. cbn [sc_healthy]. rewrite Hm'.
    destruct (services m !! in_id service) as [old|] eqn:E.
    + destruct (getServices_insert_old _ (endpoint_of service) old m E) as [H1 H2].
      rewrite (filter_length_perm _ _ _ H1), (filter_length_perm _ _ _ H2).
      rewrite !filter_cons_length.
      rewrite (bool_decide_eq_false_2 (svc_status (endpoint_of service) = healthy)) by done.
      destruct (bool_decide (svc_status old = healthy)); lia.
    + rewrite (filter_length_perm _ _ _
                 (getServices_insert_new _ (endpoint_of service) m E)).
      rewrite filter_cons_length.
      rewrite (bool_decide_eq_false_2 (svc_status (endpoint_of service) = healthy)) by done.
      lia.
  - subst before after was. unfold getStatus_services. cbn [sc_unhealthy]. rewrite Hm'.
    destruct (services m !! in_id service) as [old|] eqn:E.
    + destruct (getServices_insert_old _ (endpoint_of service) old m E) as [H1 H2].
      rewrite (filter_length_perm _ _ _ H1), (filter_length_perm _ _ _ H2).
      rewrite !filter_cons_length.
      rewrite (bool_decide_eq_false_2 (svc_status (endpoint_of service) = unhealthy)) by done.
      destruct (bool_decide (svc_status old = unhealthy)); lia.
    + rewrite (filter_length_perm _ _ _
                 (getServices_insert_new _ (endpoint_of service) m E)).
      rewrite filter_cons_length.
      rewrite (bool_decide_eq_false_2 (svc_status (endpoint_of service) = unhealthy)) by done.
      lia.
  - unfold getServicesByType. apply list_elem_of_In, filter_In.
    split; [by apply list_elem_of_In|]. by apply bool_decide_eq_true.
  - unfold getHealthyServices. intros [_ H]%list_elem_of_In%filter_In.
    by apply bool_decide_eq_true in H.
Qed.

(** ** How often a task is started *)




























(** ** The cycle of retries of one task *)





















(** ** Retries *)



